(** * Quarterly report summariser: chunker, point extractor, scorer/ranker

    A shallow embedding of [pipeline/chunker.py], [pipeline/summariser.py],
    [pipeline/ranker.py] and of the validation step of [app/main.py], with
    the properties of the specification stated over it.

    Python values are modelled as follows.
    - [int] is [Z].
    - [str] is a list of Unicode code points ([N]); [len] is the length of
      the list.  ASCII literals are written with [py "..."]; the characters
      that Rocq strings cannot escape (newline, the en dash, the bullet) are
      given by their code point.
    - the character classes of [str] and [re] are fixed on ASCII and at the
      white space and line break characters, which CPython lists in full;
      beyond ASCII the decimal digits, the alphanumeric characters and the
      lower-case mapping come from the Unicode database of the interpreter,
      which is a parameter ([UnicodeData]).  Every theorem holds for every
      database.
    - [None] in a variable that otherwise holds an [int] is [option Z];
      truthiness ([x or y], [if buf], [if overlap]) is written out.
    - a raised exception is the [Raise] constructor of [result]; a call of
      the generation backend returns text or fails ([outcome]).
    - the float scores are exact rationals ([Q]).  In [score_value] every
      value is an integer, which a float holds exactly (up to 2^53) and
      [round(., 1)] returns unchanged.  In [_top_sentences] a score is
      [a + k * 0.3] with [a] one of 0, 2, 3, 4, 5, 7 and [k <= 5]; two such
      numbers are equal or at least 0.1 apart, far more than the rounding
      error, so the floats compare as the rationals do. *)

From Stdlib Require Import Ascii String DecimalString.
From Stdlib Require Import ZArith NArith QArith Qround Bool Lia List Permutation Sorted.
From Stdlib Require Qcanon.
From Stdlib Require DecimalPos.
Import ListNotations.

Set Implicit Arguments.
Close Scope Q_scope.

(* ------------------------------------------------------------------ *)
(** * Python values *)

Module Py.

Local Open Scope N_scope.

Definition char := N.
Definition str := list char.

(** An ASCII literal as a [str]. *)
Definition py (s : string) : str := map N_of_ascii (list_ascii_of_string s).

Definition nl : char := 10%N.

(** [len(s)] *)
Definition len (s : str) : Z := Z.of_nat (length s).

(** [str(n)] for an [int]. *)
Definition str_of_int (n : Z) : str := py (NilZero.string_of_int (Z.to_int n)).

(** [bool(s)] for a list or a string: non-empty. *)
Definition truthy {A} (l : list A) : bool :=
  match l with [] => false | _ :: _ => true end.

(** [a or b] where [a] holds an [int] or [None]: [None] and [0] are falsy. *)
Definition or_int (a b : option Z) : option Z :=
  match a with
  | Some x => if (x =? 0)%Z then b else a
  | None => b
  end.

(** [s[i:]]: a negative [i] counts from the end, and both ends clamp. *)
Definition slice_from (i : Z) (s : str) : str :=
  if (i <? 0)%Z then skipn (Z.to_nat (Z.max (len s + i) 0)) s
  else skipn (Z.to_nat i) s.

(** [l[:k]] *)
Definition slice_to {A} (k : Z) (l : list A) : list A :=
  if (k <? 0)%Z then firstn (Z.to_nat (Z.max (Z.of_nat (length l) + k) 0)) l
  else firstn (Z.to_nat k) l.

Definition ch (a : ascii) : char := N_of_ascii a.

Definition in_range (lo hi c : char) : bool := ((lo <=? c) && (c <=? hi))%N.

Definition is_ascii (c : char) : bool := (c <? 128)%N.

(** The part of the Unicode character database that CPython consults for
    code points beyond ASCII.  It is not part of the repository, so it is a
    parameter of the model; on ASCII the answers are fixed below. *)
Class UnicodeData := {
  (** [Py_UNICODE_ISDECIMAL] on a non-ASCII code point *)
  uni_decimal : char -> bool;
  (** [Py_UNICODE_ISALNUM] on a non-ASCII code point *)
  uni_alnum : char -> bool;
  (** [str.lower()] on a string that has a non-ASCII code point *)
  uni_lower : str -> str
}.

(** A database with no decimal digit and no letter beyond ASCII, for
    evaluating the model on concrete texts. *)
Definition ascii_only : UnicodeData :=
  {| uni_decimal := fun _ => false;
     uni_alnum := fun _ => false;
     uni_lower := fun s => s |}.

(** [str.isspace()] of one character, which is also the class [\s] of [re]
    on [str] patterns: CPython's [_PyUnicode_IsWhitespace]. *)
Definition is_space (c : char) : bool :=
  in_range 9 13 c || in_range 28 32 c || (c =? 133)%N || (c =? 160)%N
  || (c =? 5760)%N || in_range 8192 8202 c || (c =? 8232)%N || (c =? 8233)%N
  || (c =? 8239)%N || (c =? 8287)%N || (c =? 12288)%N.

(** The line boundaries of [str.splitlines()]: CPython's
    [_PyUnicode_IsLinebreak]. *)
Definition is_linebreak (c : char) : bool :=
  in_range 10 13 c || in_range 28 30 c || (c =? 133)%N || (c =? 8232)%N
  || (c =? 8233)%N.

Section Unicode.
Context {U : UnicodeData}.

(** The class [\d] of [re] on [str] patterns. *)
Definition is_decimal (c : char) : bool :=
  if is_ascii c then in_range 48 57 c else uni_decimal c.

(** The class [\w] of [re] on [str] patterns: alphanumeric or underscore. *)
Definition is_word (c : char) : bool :=
  if is_ascii c then
    in_range 48 57 c || in_range 65 90 c || in_range 97 122 c || (c =? 95)%N
  else uni_alnum c.

Definition ascii_lower (c : char) : char :=
  if in_range 65 90 c then (c + 32)%N else c.

(** [s.lower()] *)
Definition lower (s : str) : str :=
  if forallb is_ascii s then map ascii_lower s else uni_lower s.

End Unicode.

Fixpoint lstrip (p : char -> bool) (s : str) : str :=
  match s with
  | c :: s' => if p c then lstrip p s' else s
  | [] => []
  end.

Definition rstrip (p : char -> bool) (s : str) : str := rev (lstrip p (rev s)).

(** [s.strip()] *)
Definition strip (s : str) : str := rstrip is_space (lstrip is_space s).

Fixpoint starts_with (p s : str) : bool :=
  match p, s with
  | [], _ => true
  | a :: p', b :: s' => (a =? b)%N && starts_with p' s'
  | _ :: _, [] => false
  end.

(** [k in s] *)
Fixpoint contains (k s : str) : bool :=
  starts_with k s || match s with [] => false | _ :: s' => contains k s' end.

(** [s.replace(old, new)] for a non-empty [old]: the occurrences are taken
    from the left and do not overlap; [skip] counts the characters of the
    occurrence just replaced that are still to be passed over. *)
Fixpoint replace_from (old new s : str) (skip : nat) : str :=
  match s with
  | [] => []
  | c :: s' =>
      match skip with
      | S n => replace_from old new s' n
      | O =>
          if starts_with old s then new ++ replace_from old new s' (length old - 1)
          else c :: replace_from old new s' 0
      end
  end.

Definition replace (old new s : str) : str := replace_from old new s 0.

(** [s.splitlines()]; [cur] is the line being read, reversed. *)
Fixpoint splitlines_from (cur : str) (s : str) : list str :=
  match s with
  | [] => if truthy cur then [rev cur] else []
  | c :: s' =>
      if is_linebreak c then
        match s' with
        | d :: s'' =>
            if (c =? 13)%N && (d =? 10)%N then rev cur :: splitlines_from [] s''
            else rev cur :: splitlines_from [] s'
        | [] => rev cur :: splitlines_from [] s'
        end
      else splitlines_from (c :: cur) s'
  end.

Definition splitlines (s : str) : list str := splitlines_from [] s.

(** [a < b] on strings: lexicographic on code points. *)
Fixpoint str_ltb (a b : str) : bool :=
  match a, b with
  | _, [] => false
  | [], _ :: _ => true
  | x :: a', y :: b' => (x <? y)%N || ((x =? y)%N && str_ltb a' b')
  end.

(** [list.sort(key=..)] is stable and compares keys with [<] only.  Every
    stable sort returns the same list, so insertion is as good a model as
    any: [x] goes in front of the first element whose key is not smaller. *)
Section Sort.
Variables (A K : Type) (ltb : K -> K -> bool) (key : A -> K).

Fixpoint insert (x : A) (l : list A) : list A :=
  match l with
  | [] => [x]
  | y :: l' => if ltb (key y) (key x) then y :: insert x l' else x :: y :: l'
  end.

Definition sort_stable (l : list A) : list A := fold_right insert [] l.

(** [y] may follow [x] in a sorted list: its key is not smaller. *)
Definition ascending (x y : A) : Prop := ltb (key y) (key x) = false.

(** [sorted(l, key=.., reverse=..)]; as in CPython, [reverse=True] reverses
    the list, sorts it, and reverses the result. *)
Definition sorted (reverse : bool) (l : list A) : list A :=
  if reverse then rev (sort_stable (rev l)) else sort_stable l.

End Sort.

Definition Qltb (a b : Q) : bool := negb (Qle_bool b a).

(** [round(x, 1)] on the exact value: to the nearest tenth, ties to even. *)
Definition round1 (x : Q) : Q :=
  let t := (x * 10)%Q in
  let f := Qfloor t in
  let r := (t - inject_Z f)%Q in
  let n := match (r ?= 1 # 2)%Q with
           | Lt => f
           | Gt => (f + 1)%Z
           | Eq => if Z.even f then f else (f + 1)%Z
           end in
  Qred (n # 10).

Inductive exn :=
| ValueError (msg : string).

Inductive result (A : Type) :=
| Ok (a : A)
| Raise (e : exn).
Arguments Ok {A} a.
Arguments Raise {A} e.

Definition bind {A B} (r : result A) (f : A -> result B) : result B :=
  match r with Ok a => f a | Raise e => Raise e end.

End Py.

Import Py.

(* ------------------------------------------------------------------ *)
(** * pipeline/chunker.py *)

Module Chunker.

Local Open Scope Z_scope.

Definition Page : Type := Z * str.

(** [Chunk = (text, page_start, page_end)].  The page fields hold what the
    code stores in them, which is an [int] or, before any page was seen,
    [None]. *)
Record Chunk := mk_chunk {
  text : str;
  page_start : option Z;
  page_end : option Z
}.

(** [part = f"\n[p.{pnum}]\n{text}\n"] *)
Definition format_page (pg : Page) : str :=
  [nl] ++ py "[p." ++ str_of_int (fst pg) ++ py "]" ++ [nl] ++ snd pg ++ [nl].

(** The variables of the loop of [chunk_pages]. *)
Record loop_state := mk_state {
  chunks : list Chunk;
  buf : list str;
  start_p : option Z;
  end_p : option Z;
  size : Z
}.

Definition init : loop_state :=
  {| chunks := []; buf := []; start_p := None; end_p := None; size := 0 |}.

(** [tail = joined[-overlap:] if overlap else ""] *)
Definition overlap_tail (overlap : Z) (joined : str) : str :=
  if overlap =? 0 then [] else slice_from (- overlap) joined.

(** One iteration of [for pnum, text in pages]. *)
Definition step (max_chars overlap : Z) (st : loop_state) (pg : Page) : loop_state :=
  let pnum := fst pg in
  let part := format_page pg in
  let part_len := len part in
  let start_p1 := if truthy (buf st) then start_p st else Some pnum in
  if (size st + part_len >? max_chars) && truthy (buf st) then
    let joined := concat (buf st) in
    let closed := mk_chunk joined start_p1 (or_int (end_p st) start_p1) in
    let tail := overlap_tail overlap joined in
    {| chunks := chunks st ++ [closed];
       buf := (if truthy tail then [tail] else []) ++ [part];
       start_p := if truthy tail then start_p1 else Some pnum;
       end_p := Some pnum;
       size := len tail + part_len |}
  else
    {| chunks := chunks st;
       buf := buf st ++ [part];
       start_p := start_p1;
       end_p := Some pnum;
       size := size st + part_len |}.

(** The code after the loop: the last buffer, when non-empty, is a chunk. *)
Definition finish (st : loop_state) : list Chunk :=
  if truthy (buf st) then
    chunks st ++
      [mk_chunk (concat (buf st))
         (or_int (start_p st) (Some 1))
         (or_int (end_p st) (or_int (start_p st) (Some 1)))]
  else chunks st.

Definition run_loop (max_chars overlap : Z) (st : loop_state) (pages : list Page)
  : loop_state :=
  fold_left (step max_chars overlap) pages st.

Definition chunk_pages (pages : list Page) (max_chars overlap : Z)
  : result (list Chunk) :=
  if max_chars <=? 1000 then
    Raise (ValueError "max_chars too small; recommend >= 3000")
  else if (overlap <? 0) || (overlap >=? max_chars) then
    Raise (ValueError "overlap must be >=0 and < max_chars")
  else Ok (finish (run_loop max_chars overlap init pages)).

(** The configurations [chunk_pages] accepts. *)
Definition valid_config (max_chars overlap : Z) : Prop :=
  1000 < max_chars /\ 0 <= overlap < max_chars.

End Chunker.

(* ------------------------------------------------------------------ *)
(** * app/main.py: validation of the chunking parameters *)

Module Main.

Local Open Scope Z_scope.

(** [ensure_positive_int(name, val, min_val)] on a value that [argparse]
    already converted with [type=int]. *)
Definition ensure_positive_int (name : string) (val min_val : Z) : result Z :=
  if val <? min_val then
    Raise (ValueError (name ++ " must be >= "
                         ++ NilZero.string_of_int (Z.to_int min_val))%string)
  else Ok val.

(** The part of [run] between argument parsing and summarisation: both
    numbers are validated, then the pages are chunked. *)
Definition run_chunking (pages : list Chunker.Page) (arg_max_chars arg_overlap : Z)
  : result (list Chunker.Chunk) :=
  bind (ensure_positive_int "max-chars" arg_max_chars 1000) (fun max_chars =>
  bind (ensure_positive_int "overlap" arg_overlap 0) (fun overlap =>
  Chunker.chunk_pages pages max_chars overlap)).

End Main.


(* ------------------------------------------------------------------ *)
(** * The regular expressions of the [re] module

    A backtracking matcher for the constructs the repository's patterns
    use.  Quantifiers apply to single-character classes, as they do in
    every pattern of the source; look-behinds have a fixed width. *)

Module Re.

Inductive regex :=
| Eps
| Cls (p : char -> bool)                  (* one character of a class *)
| Cat (r1 r2 : regex)                     (* r1 r2 *)
| Alt (r1 r2 : regex)                     (* r1|r2, the left one first *)
| Rep (greedy : bool) (lo : nat) (hi : option nat) (p : char -> bool)
                                          (* p{lo,hi}, greedy or lazy *)
| Bol                                     (* ^ *)
| Eol                                     (* $ *)
| WordBoundary                            (* \b *)
| LookBehind (positive : bool) (width : nat) (r : regex)
                                          (* (?<=r) and (?<!r) *)
| Group (r : regex).                      (* the capture group *)

(** A position in the subject: the characters before it (nearest first),
    the characters after it, and the text of the capture group. *)
Record pos := mk_pos {
  before : list char;
  after : list char;
  group : option str
}.

Definition or_else {A} (a : option A) (b : unit -> option A) : option A :=
  match a with Some x => Some x | None => b tt end.

Definition may_repeat (hi : option nat) : bool :=
  match hi with Some O => false | _ => true end.

(** [p{lo,hi}] from a position, then [k].  The greedy form tries one more
    character before it tries to stop, the lazy form the other way round. *)
Fixpoint rep (greedy : bool) (p : char -> bool) (lo : nat) (hi : option nat)
    (l r : list char) (g : option str) (k : pos -> option pos) : option pos :=
  let more (_ : unit) :=
    match r with
    | c :: r' =>
        if p c && may_repeat hi
        then rep greedy p (pred lo) (option_map pred hi) (c :: l) r' g k
        else None
    | [] => None
    end in
  let stop (_ : unit) :=
    match lo with O => k (mk_pos l r g) | S _ => None end in
  if greedy then or_else (more tt) stop else or_else (stop tt) more.

Section Run.
Context {U : UnicodeData}.

Definition at_boundary (l r : list char) : bool :=
  let that := match l with c :: _ => is_word c | [] => false end in
  let this := match r with c :: _ => is_word c | [] => false end in
  negb (eqb this that).

(** The matcher, in continuation-passing style: [run r st k] matches [r] at
    [st] and hands the position it reaches to [k]; when [k] fails the
    matcher backtracks into [r]. *)
Fixpoint run (r : regex) (st : pos) (k : pos -> option pos) : option pos :=
  match r with
  | Eps => k st
  | Cls p =>
      match after st with
      | c :: r' => if p c then k (mk_pos (c :: before st) r' (group st)) else None
      | [] => None
      end
  | Cat r1 r2 => run r1 st (fun st' => run r2 st' k)
  | Alt r1 r2 => or_else (run r1 st k) (fun _ => run r2 st k)
  | Rep greedy lo hi p => rep greedy p lo hi (before st) (after st) (group st) k
  | Bol => match before st with [] => k st | _ :: _ => None end
  | Eol =>
      match after st with
      | [] => k st
      | [c] => if (c =? nl)%N then k st else None
      | _ => None
      end
  | WordBoundary => if at_boundary (before st) (after st) then k st else None
  | LookBehind positive width r' =>
      let found :=
        if (length (before st) <? width)%nat then false
        else
          let back := mk_pos (skipn width (before st))
                        (rev (firstn width (before st)) ++ after st) (group st) in
          match run r' back Some with Some _ => true | None => false end in
      if eqb found positive then k st else None
  | Group r' =>
      run r' st (fun st' =>
        let n := (length (before st') - length (before st))%nat in
        k (mk_pos (before st') (after st') (Some (rev (firstn n (before st'))))))
  end.

(** [pattern.match(s)]: a match at the start of [s]. *)
Definition match_ (r : regex) (s : str) : option pos :=
  run r (mk_pos [] s None) Some.

(** The leftmost match at or after a position. *)
Fixpoint search_from (r : regex) (l : list char) (s : str) : option pos :=
  or_else (run r (mk_pos l s None) Some)
    (fun _ => match s with
              | [] => None
              | c :: s' => search_from r (c :: l) s'
              end).

(** [bool(re.search(r, s))] *)
Definition search (r : regex) (s : str) : bool :=
  match search_from r [] s with Some _ => true | None => false end.

(** The subject cut into the matches that [re.findall], [re.sub] and
    [re.split] walk through, and the characters between them. *)
Inductive token :=
| Lit (c : char)
| Hit (m : str).

(** The matches are taken from the left and do not overlap; [skip] counts
    the characters of the last match that are still to be passed over.  A
    match of the empty string is followed by the next character as a
    literal; no pattern of the repository that is scanned this way matches
    the empty string. *)
Fixpoint scan (r : regex) (l : list char) (s : str) (skip : nat) : list token :=
  match skip with
  | S n =>
      match s with
      | [] => []
      | c :: s' => scan r (c :: l) s' n
      end
  | O =>
      match run r (mk_pos l s None) Some with
      | Some st' =>
          let n := (length s - length (after st'))%nat in
          Hit (firstn n s) ::
            match s with
            | [] => []
            | c :: s' =>
                (match n with O => [Lit c] | S _ => [] end)
                  ++ scan r (c :: l) s' (pred n)
            end
      | None =>
          match s with
          | [] => []
          | c :: s' => Lit c :: scan r (c :: l) s' 0
          end
      end
  end.

Definition tokens (r : regex) (s : str) : list token := scan r [] s 0.

(** [re.findall(r, s)] for a pattern without a capture group. *)
Definition findall (r : regex) (s : str) : list str :=
  flat_map (fun t => match t with Hit m => [m] | Lit _ => [] end) (tokens r s).

(** [re.sub(r, repl, s)] for a replacement without back-references. *)
Definition sub (r : regex) (repl s : str) : str :=
  flat_map (fun t => match t with Hit _ => repl | Lit c => [c] end) (tokens r s).

(** The pieces between the matches; [cur] is the piece being read,
    reversed. *)
Fixpoint pieces (cur : str) (ts : list token) : list str :=
  match ts with
  | [] => [rev cur]
  | Lit c :: ts' => pieces (c :: cur) ts'
  | Hit _ :: ts' => rev cur :: pieces [] ts'
  end.

(** [re.split(r, s)] for a pattern without a capture group. *)
Definition split (r : regex) (s : str) : list str := pieces [] (tokens r s).

End Run.

(** Pattern syntax. *)
Definition lit (a : ascii) : regex := Cls (N.eqb (ch a)).
Definition one_of (cs : list char) : regex :=
  Cls (fun c => existsb (N.eqb c) cs).
Definition not_newline (c : char) : bool := negb (c =? nl)%N.
Definition any_char : regex := Cls not_newline.
Definition star (p : char -> bool) : regex := Rep true 0 None p.
Definition plus (p : char -> bool) : regex := Rep true 1 None p.
Definition lazy_plus (p : char -> bool) : regex := Rep false 1 None p.
Definition seq (rs : list regex) : regex := fold_right Cat Eps rs.
Fixpoint alt (r : regex) (rs : list regex) : regex :=
  match rs with
  | [] => r
  | r' :: rs' => Alt r (alt r' rs')
  end.

End Re.

Import Re.

(* ------------------------------------------------------------------ *)
(** * pipeline/ranker.py *)

Module Ranker.

Section WithUnicode.
Context {U : UnicodeData}.

(** [\d+] *)
Definition re_number : regex := plus is_decimal.

(** [\d+%|\+\d+pp|-\d+pp] *)
Definition re_percent : regex :=
  alt (seq [plus is_decimal; lit "%"])
      [seq [lit "+"; plus is_decimal; lit "p"; lit "p"];
       seq [lit "-"; plus is_decimal; lit "p"; lit "p"]].

(** [\$\d+] *)
Definition re_currency : regex := seq [lit "$"; plus is_decimal].

Definition kpis : list str :=
  [py "revenue"; py "market share"; py "retention"; py "awareness";
   py "guidance"; py "customers"; py "growth"; py "qoq"; py "yoy"].

Definition score_value (point : str) : Q :=
  let score := 0%Q in
  let text := lower point in
  let nums := findall re_number point in
  let score := (score + inject_Z (Z.min (Z.of_nat (length nums)) 5 * 5))%Q in
  let score :=
    (score + inject_Z (10 * Z.of_nat (length (findall re_percent point))))%Q in
  let score := if search re_currency point then (score + 15)%Q else score in
  let score :=
    (score + inject_Z
               (5 * Z.of_nat (length (filter (fun k => contains k text) kpis))))%Q in
  round1 score.

(** [rank_points] between reading the points file and writing the ranking
    file: [content] is the text of the latest points file, [scored_points]
    is the list [scored], and the result of [rank_points] is the list
    [ranked] whose rows the code then writes in order. *)
Definition scored_points (content : str) : list (str * Q) :=
  let raw := splitlines content in
  let points :=
    flat_map (fun ln => if truthy (strip ln) then [strip ln] else []) raw in
  map (fun p => (p, score_value p)) points.

Definition rank_points (content : str) : list (str * Q) :=
  let scored := scored_points content in
  sorted Qltb snd true scored.

End WithUnicode.

End Ranker.

(* ------------------------------------------------------------------ *)
(** * pipeline/summariser.py *)

Module Summariser.

Local Open Scope Z_scope.

(** [(chunk_text, start_page, end_page)] *)
Definition Chunk : Type := str * Z * Z.

(** What a call of [client.generate] does: it returns text or raises. *)
Inductive outcome :=
| Returns (raw : str)
| Fails.

(** The lines [summarise_chunks] prints when [verbose] is set. *)
Inductive message :=
| MsgEmpty (idx : Z)            (* Chunk idx is empty; skipping. *)
| MsgError (idx : Z)            (* Error on chunk idx: ... *)
| MsgRawLength (idx n : Z)      (* Chunk idx raw length: n *)
| MsgFallback (idx : Z)         (* Chunk idx yielded 0 bullets; using fallback sentences. *)
| MsgAdded (idx n : Z).         (* Chunk idx: +n bullet(s) *)

Section WithUnicode.
Context {U : UnicodeData}.

Definition format_prompt (template text : str) (start_page end_page : Z) : str :=
  replace (py "{{END_PAGE}}") (str_of_int end_page)
    (replace (py "{{START_PAGE}}") (str_of_int start_page)
       (replace (py "{{TEXT}}") text template)).

(** [^\s*(?:[-\u2013\u2022*]|\d{1,3}[.)])\s+(?P<pt>.+?)\s*$], where the
    source has the en dash (code point 8211) and the bullet (8226)
    themselves, with [re.IGNORECASE], which changes nothing here: no
    character of the pattern has a case. *)
Definition BULLET_LINE : regex :=
  seq [Bol; star is_space;
       Alt (one_of [ch "-"; 8211%N; 8226%N; ch "*"])
           (seq [Rep true 1 (Some 3%nat) is_decimal; one_of [ch "."; ch ")"]]);
       plus is_space;
       Group (lazy_plus not_newline);
       star is_space; Eol].

(** [\s+] *)
Definition re_spaces : regex := plus is_space.

Definition group_text (m : pos) : str :=
  match group m with Some g => g | None => [] end.

Definition extract_bullets (raw : str) : list str :=
  flat_map
    (fun ln =>
       match match_ BULLET_LINE ln with
       | Some m =>
           let pt := strip (group_text m) in
           let pt := sub re_spaces (py " ") pt in
           if truthy pt then [py "- " ++ pt] else []
       | None => []
       end)
    (splitlines raw).

(** [(?<!\w\.\w.)(?<![A-Z][a-z]\.)(?<=\.|\?|!)\s] *)
Definition SENTENCE : regex :=
  seq [LookBehind false 4 (seq [Cls is_word; lit "."; Cls is_word; any_char]);
       LookBehind false 3
         (seq [Cls (in_range 65%N 90%N); Cls (in_range 97%N 122%N); lit "."]);
       LookBehind true 1 (alt (lit ".") [lit "?"; lit "!"]);
       Cls is_space].

(** [\d%\b|\bpp\b|%\b] *)
Definition re_percent_sign : regex :=
  alt (seq [Cls is_decimal; lit "%"; WordBoundary])
      [seq [WordBoundary; lit "p"; lit "p"; WordBoundary];
       seq [lit "%"; WordBoundary]].

(** [\$\s*\d] *)
Definition re_amount : regex := seq [lit "$"; star is_space; Cls is_decimal].

Definition signal_words : list str :=
  [py "yoy"; py "qoq"; py "guidance"; py "revenue"; py "retention";
   py "market share"; py "pricing"; py "margin"].

(** The score of one candidate sentence in [_top_sentences]. *)
Definition sentence_score (s : str) : Q :=
  let tokens := lower s in
  let score := 0%Q in
  let score := if search re_percent_sign s then (score + 3)%Q else score in
  let score := if search re_amount s then (score + 2)%Q else score in
  let score :=
    if existsb (fun w => contains w tokens) signal_words
    then (score + 2)%Q else score in
  (score
   + inject_Z (Z.min (Z.of_nat (length (findall (Cls is_decimal) s))) 5)
     * (3 # 10))%Q.

Definition top_sentences (text : str) (k : Z) : list str :=
  let candidates := split SENTENCE text in
  let scored :=
    flat_map
      (fun s => let s := strip s in
                if truthy s then [(sentence_score s, s)] else [])
      candidates in
  let scored := sorted str_ltb snd false scored in
  let scored := sorted Qltb fst true scored in
  map (fun x => py "- " ++ sub re_spaces (py " ") (snd x)) (slice_to k scored).

(** [tag = f" [p.{start_page if start_page == end_page else
    f'{start_page}-{end_page}'}]"] *)
Definition page_tag (start_page end_page : Z) : str :=
  py " [p."
  ++ (if start_page =? end_page then str_of_int start_page
      else str_of_int start_page ++ py "-" ++ str_of_int end_page)
  ++ py "]".

(** [\[p\.\d] *)
Definition re_tag : regex := seq [lit "["; lit "p"; lit "."; Cls is_decimal].

Definition ensure_tag (tag s : str) : str :=
  if search re_tag s then s else rstrip (N.eqb (ch ".")) s ++ tag.

(** The loop body of [summarise_chunks] from [pts = _extract_bullets(raw)]
    to [pts = [_ensure_tag(p) for p in pts]]: the points of one chunk, given
    the raw text the backend produced for it. *)
Definition extract (raw text_in : str) (start_page end_page : Z) : list str :=
  let pts := extract_bullets raw in
  let pts := if truthy pts then pts else top_sentences text_in 6 in
  map (ensure_tag (page_tag start_page end_page)) pts.

(** [raw] after the [try] statement: the text returned, or the empty
    string when the call raised. *)
Definition raw_of (answer : outcome) : str :=
  match answer with
  | Returns r => if truthy r then r else []
  | Fails => []
  end.

(** What an iteration prints for a chunk it processes. *)
Definition report (idx : Z) (answer : outcome) (pts : list str) : list message :=
  (match answer with Fails => [MsgError idx] | Returns _ => [] end)
  ++ [MsgRawLength idx (len (raw_of answer))]
  ++ (if truthy (extract_bullets (raw_of answer)) then [] else [MsgFallback idx])
  ++ [MsgAdded idx (Z.of_nat (length pts))].

Section Backend.

(** The client and the backend behind it: [generate model prompt
    temperature] answers from the state of the backend and changes it. *)
Variable B : Type.
Variable generate : str -> str -> Q -> B -> outcome * B.

(** The variables of the loop of [summarise_chunks] and what it does to the
    outside: the lines printed and the state of the backend. *)
Record loop_state := mk_state {
  bullets : list str;
  printed : list message;
  backend : B
}.

Definition say (verbose : bool) (st : loop_state) (ms : list message) : loop_state :=
  if verbose then mk_state (bullets st) (printed st ++ ms) (backend st) else st.

(** One iteration of [for idx, (chunk_text, start_page, end_page) in
    enumerate(chunks, start=1)]. *)
Definition step (model prompt_template : str) (temperature : Q) (verbose : bool)
    (st : loop_state) (ic : Z * Chunk) : loop_state :=
  let '(idx, (chunk_text, start_page, end_page)) := ic in
  let text_in := strip chunk_text in
  if negb (truthy text_in) then say verbose st [MsgEmpty idx]
  else
    let prompt := format_prompt prompt_template text_in start_page end_page in
    let '(answer, b) := generate model prompt temperature (backend st) in
    let st := mk_state (bullets st) (printed st) b in
    let '(raw, st) :=
      match answer with
      | Returns r => (if truthy r then r else [], st)
      | Fails => ([], say verbose st [MsgError idx])
      end in
    let st := say verbose st [MsgRawLength idx (len raw)] in
    let pts := extract_bullets raw in
    let '(pts, st) :=
      if truthy pts then (pts, st)
      else (top_sentences text_in 6, say verbose st [MsgFallback idx]) in
    let pts := map (ensure_tag (page_tag start_page end_page)) pts in
    let st := mk_state (bullets st ++ pts) (printed st) (backend st) in
    say verbose st [MsgAdded idx (Z.of_nat (length pts))].

Fixpoint enumerate {A} (start : Z) (l : list A) : list (Z * A) :=
  match l with
  | [] => []
  | x :: l' => (start, x) :: enumerate (start + 1) l'
  end.

(** The loop of [summarise_chunks], started in any state. *)
Definition run_loop (model prompt_template : str) (temperature : Q) (verbose : bool)
    (st : loop_state) (ics : list (Z * Chunk)) : loop_state :=
  fold_left (step model prompt_template temperature verbose) ics st.

(** [summarise_chunks(client, model, prompt_template, chunks, temperature,
    verbose)]: the bullets it returns, with the lines it printed and the
    state it left the backend in. *)
Definition summarise_chunks (client : B) (model prompt_template : str)
    (chunks : list Chunk) (temperature : Q) (verbose : bool) : loop_state :=
  run_loop model prompt_template temperature verbose
    (mk_state [] [] client) (enumerate 1 chunks).

(** The state in which the loop reaches the chunk that comes after the
    chunks [before]. *)
Definition reached (client : B) (model prompt_template : str) (before : list Chunk)
    (temperature : Q) (verbose : bool) : loop_state :=
  summarise_chunks client model prompt_template before temperature verbose.

End Backend.
End WithUnicode.
End Summariser.

(* ------------------------------------------------------------------ *)
(** * What the patterns find, said without the matcher

    The counts and tests of the scoring heuristic as the specification
    words them: by what stands at a position of the text. *)

Module Direct.

(** The first character of [s] is in class [p]. *)
Definition next_is (p : char -> bool) (s : str) : bool :=
  match s with c :: _ => p c | [] => false end.

(** The number of leading characters of [s] in class [p]. *)
Fixpoint span_len (p : char -> bool) (s : str) : nat :=
  match s with
  | c :: s' => if p c then S (span_len p s') else O
  | [] => O
  end.

(** [s] begins with one character of each class, in order. *)
Fixpoint classes_at (ps : list (char -> bool)) (s : str) : bool :=
  match ps, s with
  | [], _ => true
  | p :: ps', c :: s' => p c && classes_at ps' s'
  | _ :: _, [] => false
  end.

(** Some position of [s] satisfies [occ]; a position is given by the text
    from it to the end. *)
Fixpoint any_at (occ : str -> bool) (s : str) : bool :=
  occ s || match s with [] => false | _ :: s' => any_at occ s' end.

(** The number of positions of [s] that satisfy [occ]. *)
Fixpoint count_at (occ : str -> bool) (s : str) : nat :=
  match s with
  | [] => O
  | _ :: s' => ((if occ s then 1 else 0) + count_at occ s')%nat
  end.

Section WithUnicode.
Context {U : UnicodeData}.

(** A digit that no digit follows: the end of a maximal digit run. *)
Definition digit_run_end (s : str) : bool :=
  match s with
  | c :: s' => is_decimal c && negb (next_is is_decimal s')
  | [] => false
  end.

(** The number of maximal digit runs. *)
Definition digit_runs (s : str) : nat := count_at digit_run_end s.

(** [N%]: a digit with the percent sign right after it. *)
Definition percent_at (s : str) : bool :=
  match s with
  | c :: s' => is_decimal c && next_is (N.eqb (ch "%")) s'
  | [] => false
  end.

(** [+Npp] and [-Npp]: a sign, a digit run, and [pp]. *)
Definition points_at (s : str) : bool :=
  match s with
  | c :: s' =>
      ((c =? ch "+")%N || (c =? ch "-")%N)
      && next_is is_decimal s'
      && starts_with (py "pp") (lstrip is_decimal s')
  | [] => false
  end.

(** A percentage or a basis-point pattern. *)
Definition marked (t : str) : bool := percent_at t || points_at t.

(** The number of percentage and basis-point patterns. *)
Definition percent_patterns (s : str) : nat := count_at marked s.

(** [$] with a digit right after it. *)
Definition currency_at (s : str) : bool :=
  match s with
  | c :: s' => (c =? ch "$")%N && next_is is_decimal s'
  | [] => false
  end.

(** The number of KPI keywords that occur in [s], case ignored. *)
Definition kpi_hits (s : str) : nat :=
  length (filter (fun k => contains k (lower s)) Ranker.kpis).

(** The score as the specification words it. *)
Definition spec_score (s : str) : Z :=
  (5 * Z.min (Z.of_nat (digit_runs s)) 5
   + 10 * Z.of_nat (percent_patterns s)
   + (if any_at currency_at s then 15 else 0)
   + 5 * Z.of_nat (kpi_hits s))%Z.

(** [[p.] with a digit right after it. *)
Definition tag_at (s : str) : bool :=
  classes_at [N.eqb (ch "["); N.eqb (ch "p"); N.eqb (ch "."); is_decimal] s.

(** The length of the match of [\d+] at the head of [s], if there is one. *)
Definition number_len (s : str) : option nat :=
  match span_len is_decimal s with
  | O => None
  | n => Some n
  end.

(** The length of the match of [\d+%|\+\d+pp|-\d+pp] at the head of
    [s], if there is one. *)
Definition percent_len (s : str) : option nat :=
  let n := span_len is_decimal s in
  if (0 <? n)%nat && next_is (N.eqb (ch "%")) (skipn n s) then Some (S n)
  else
    match s with
    | c :: s' =>
        let n' := span_len is_decimal s' in
        if ((c =? ch "+")%N || (c =? ch "-")%N)
           && (0 <? n')%nat && starts_with (py "pp") (skipn n' s')
        then Some (n' + 3)%nat
        else None
    | [] => None
    end.

(** The length of the match of [\$\d+] at the head of [s], if any. *)
Definition currency_len (s : str) : option nat :=
  match s with
  | c :: s' =>
      if (c =? ch "$")%N && (0 <? span_len is_decimal s')%nat
      then Some (S (span_len is_decimal s'))
      else None
  | [] => None
  end.

End WithUnicode.

Definition is_some {A} (o : option A) : bool :=
  match o with Some _ => true | None => false end.

(** The characters a match consumed, counted on what is left. *)
Definition consumed (s : str) (st : pos) : nat := length s - length (after st)%nat.

End Direct.

(* ------------------------------------------------------------------ *)
(** * The statements of the specification that the code does not meet,
      as they are written *)

Module Claims.

Local Open Scope Z_scope.

Import Chunker.

(** [inner] occurs in [s]. *)
Definition occurs_in (inner s : str) : Prop :=
  exists pre post, s = pre ++ inner ++ post.

(** Chunk size never exceeds [max_chars] except in a chunk that holds a
    page whose formatted text alone exceeds it. *)
Definition chunk_budget (pages : list Page) (max_chars overlap : Z) : Prop :=
  forall cs c,
    chunk_pages pages max_chars overlap = Ok cs -> In c cs ->
    len (text c) <= max_chars
    \/ exists pg, In pg pages /\ max_chars < len (format_page pg)
                  /\ occurs_in (format_page pg) (text c).

(** When a non-empty tail seeds the buffer, the next chunk starts at the
    last page of the chunk just closed. *)
Definition start_page_after_tail (pages : list Page) (max_chars overlap : Z) : Prop :=
  forall cs before c c' rest,
    chunk_pages pages max_chars overlap = Ok cs ->
    cs = before ++ c :: c' :: rest ->
    0 < overlap -> overlap_tail overlap (text c) <> [] ->
    page_start c' = page_end c.

(** With [overlap = 200], a chunk begins with exactly the last 200
    characters of the chunk before it. *)
Definition exact_overlap_prefix (pages : list Page) (max_chars : Z) : Prop :=
  forall cs before c c' rest,
    chunk_pages pages max_chars 200 = Ok cs ->
    cs = before ++ c :: c' :: rest ->
    exists tail,
      len tail = 200
      /\ (exists pre, text c = pre ++ tail)
      /\ (exists more, text c' = tail ++ more).

(** [[p.N]] or [[p.N-M]], the tag of a page range without the space that
    [page_tag] puts in front of it. *)
Definition range_tag (start_page end_page : Z) : str :=
  py "[p."
  ++ (if start_page =? end_page then str_of_int start_page
      else str_of_int start_page ++ py "-" ++ str_of_int end_page)
  ++ py "]".

(** Every point of the fallback path carries the tag of the chunk's page
    range.  The fallback path is the one taken on empty raw output. *)
Definition fallback_points_tagged (U : UnicodeData) : Prop :=
  forall text_in start_page end_page p,
    In p (Summariser.extract [] text_in start_page end_page) ->
    occurs_in (range_tag start_page end_page) p.

(** [s] without its last character when that is a period. *)
Definition strip_one_period (s : str) : str :=
  match rev s with
  | c :: s' => if (c =? ch ".")%N then rev s' else s
  | [] => s
  end.

(** An extracted point that has no tag gets the tag appended, after the
    single period it ends with, if any, is removed. *)
Definition one_period_stripped (U : UnicodeData) : Prop :=
  forall raw text_in start_page end_page p,
    In p (Summariser.extract_bullets raw) ->
    ~ occurs_in (py "[p.") p ->
    In (strip_one_period p ++ Summariser.page_tag start_page end_page)
       (Summariser.extract raw text_in start_page end_page).

End Claims.

(* ------------------------------------------------------------------ *)
(** * The scoring heuristic in the words of the specification

    Nothing here is taken from [Ranker]: the keyword list is written out,
    and "case-insensitive substring" is said character by character. *)

Module ScoreSpec.

Import Direct.

(** The fixed KPI keyword list. *)
Definition keywords : list str :=
  [py "revenue"; py "market share"; py "retention"; py "awareness";
   py "guidance"; py "customers"; py "growth"; py "qoq"; py "yoy"].

(** A character without its case: one of the capitals [A]..[Z] becomes
    the small letter, every other ASCII character is itself. *)
Definition fold_case (c : char) : char :=
  if ((65 <=? c) && (c <=? 90))%N then (c + 32)%N else c.

(** [a] and [b] are the same character, case ignored. *)
Definition same_letter (a b : char) : bool := (fold_case a =? fold_case b)%N.

(** [t] begins with [k], case ignored. *)
Fixpoint ci_prefix (k t : str) : bool :=
  match k, t with
  | [], _ => true
  | a :: k', b :: t' => same_letter a b && ci_prefix k' t'
  | _ :: _, [] => false
  end.

Section WithUnicode.
Context {U : UnicodeData}.

(** [k] is a case-insensitive substring of [s]: at some position of [s]
    stand the characters of [k], case ignored.  In a text that has a
    character beyond ASCII the case of a character is a matter of the
    Unicode database: there [k] is to stand in what [str.lower] makes of
    the text. *)
Definition ci_substring (k s : str) : bool :=
  if forallb is_ascii s then any_at (ci_prefix k) s
  else any_at (starts_with k) (uni_lower s).

(** The number of keywords of the list that are present in [s]. *)
Definition keywords_present (s : str) : nat :=
  length (filter (fun k => ci_substring k s) keywords).

(** The sum of the four contributions. *)
Definition score (s : str) : Z :=
  (5 * Z.min (Z.of_nat (digit_runs s)) 5
   + 10 * Z.of_nat (percent_patterns s)
   + (if any_at currency_at s then 15 else 0)
   + 5 * Z.of_nat (keywords_present s))%Z.

End WithUnicode.

End ScoreSpec.

(* ------------------------------------------------------------------ *)
(** * Invariants of the chunker's loop *)

Module ChunkerInv.

Import Chunker.
Local Open Scope Z_scope.

Section Budget.
Variables (max_chars overlap : Z) (Q : Page -> Prop).

(** A text is within budget, or it is one page behind a tail of at most
    [overlap] characters. *)
Definition within (t : str) : Prop :=
  len t <= max_chars
  \/ exists tail pg, Q pg /\ t = tail ++ format_page pg /\ len tail <= overlap.

Definition budget_inv (st : loop_state) : Prop :=
  size st = len (concat (buf st))
  /\ Forall (fun c => within (text c)) (chunks st)
  /\ (truthy (buf st) = true -> within (concat (buf st))).

End Budget.

(** The chunk the buffer would become if it were closed now. *)
Definition pending (st : loop_state) : Chunk :=
  mk_chunk (concat (buf st)) (start_p st) (or_int (end_p st) (start_p st)).

(** The chunks closed so far, followed by the one being filled. *)
Definition view (st : loop_state) : list Chunk :=
  chunks st ++ (if truthy (buf st) then [pending st] else []).

(** A relation holds between every chunk and the next one. *)
Fixpoint chain (R : Chunk -> Chunk -> Prop) (l : list Chunk) : Prop :=
  match l with
  | x :: (y :: _) as l' => R x y /\ chain R l'
  | _ => True
  end.

(** The buffer is empty only before the first page; once it is not empty
    its text is not empty and the start page is the number of a page that
    was read. *)
Definition started (Q : Page -> Prop) (st : loop_state) : Prop :=
  (truthy (buf st) = false -> chunks st = [])
  /\ (truthy (buf st) = true ->
      concat (buf st) <> []
      /\ exists pg, Q pg /\ start_p st = Some (fst pg)).

Definition chain_inv (Q : Page -> Prop) (R : Chunk -> Chunk -> Prop)
    (st : loop_state) : Prop :=
  started Q st /\ chain R (view st).

(** How the start page of a chunk follows from the chunk before it: it is
    kept when a tail was carried over, which is whenever [overlap] is not
    zero, and it is the page that opens the chunk otherwise. *)
Definition start_rule (overlap : Z) (Q : Page -> Prop) (c c' : Chunk) : Prop :=
  (overlap_tail overlap (text c) <> [] -> page_start c' = page_start c)
  /\ (overlap_tail overlap (text c) = [] ->
      exists pg more, Q pg /\ page_start c' = Some (fst pg)
                      /\ text c' = format_page pg ++ more)
  /\ (0 < overlap -> overlap_tail overlap (text c) <> [])
  /\ (exists pg, Q pg /\ page_start c' = Some (fst pg)).

(** A chunk begins with the overlap tail of the chunk before it. *)
Definition seeded (overlap : Z) (c c' : Chunk) : Prop :=
  exists more, text c' = overlap_tail overlap (text c) ++ more.

End ChunkerInv.

(* ------------------------------------------------------------------ *)
(** * Inputs used in the examples *)

Module Inputs.

Local Open Scope Z_scope.

(** Two pages of 600 characters each. *)
Definition two_pages : list Chunker.Page :=
  [(1, repeat (ch "a") 600); (2, repeat (ch "b") 600)].

(** A page without text and a page of 2000 characters. *)
Definition short_first_page : list Chunker.Page :=
  [(1, []); (2, repeat (ch "x") 2000)].

(** Four pages of 2000 characters each. *)
Definition four_pages : list Chunker.Page :=
  [(1, repeat (ch "a") 2000); (2, repeat (ch "b") 2000);
   (3, repeat (ch "c") 2000); (4, repeat (ch "d") 2000)].

(** Two short pages and a long one. *)
Definition three_pages : list Chunker.Page :=
  [(1, py "Revenue up 10% to $50M"); (2, py "Guidance raised for FY25");
   (3, repeat (ch "c") 1000)].

Definition no_chunk : Chunker.Chunk := Chunker.mk_chunk [] None None.

(** The text of the chunk that [chunk_pages] makes of the two pages of the
    specification's end-to-end scenario. *)
Definition scenario_text : str :=
  Chunker.format_page (1, py "Revenue up 10% to $50M")
  ++ Chunker.format_page (2, py "Guidance raised for FY25").

(** Model output with one bullet line and one line of narration. *)
Definition raw_revenue : str :=
  py "- Revenue grew 12%." ++ [nl] ++ py "Some non-bullet narration.".

(** A points file with three points, the first and the last of equal
    score. *)
Definition three_points : str :=
  py "- a 5%" ++ [nl] ++ py "- b" ++ [nl] ++ py "- c 5%" ++ [nl].

(** Model output whose only bullet ends with three periods. *)
Definition raw_wait : str := py "- Wait...".

(** A chunk of nothing but white space. *)
Definition blank_chunk : Summariser.Chunk := ([ch " "; nl; 9%N], 4%Z, 4%Z).

(** A backend that is down: every call raises. *)
Definition backend_down (model prompt : str) (temperature : Q) (calls : nat)
  : Summariser.outcome * nat :=
  (Summariser.Fails, S calls).

(** A backend that answers every call with the same text. *)
Definition backend_says (answer : str) (model prompt : str) (temperature : Q)
    (calls : nat) : Summariser.outcome * nat :=
  (Summariser.Returns answer, S calls).

End Inputs.

(* ------------------------------------------------------------------ *)
(** * More invariants of the chunker's loop *)

Module ChunkerShape.

Import Chunker ChunkerInv.
Local Open Scope Z_scope.

(** The texts of the chunks without what was copied over: each text loses
    as many leading characters as the overlap tail of the text before it
    has; [prev] is the text before the first one. *)
Fixpoint unseed (overlap : Z) (prev : str) (ts : list str) : list str :=
  match ts with
  | [] => []
  | t :: ts' =>
      skipn (length (overlap_tail overlap prev)) t :: unseed overlap t ts'
  end.

(** What the loop has read so far is what the closed chunks and the buffer
    hold beyond their seeds, in order. *)
Definition read_inv (overlap : Z) (seen : list Page) (st : loop_state) : Prop :=
  exists rest,
    concat (buf st)
    = overlap_tail overlap (last (map text (chunks st)) []) ++ rest
    /\ concat (unseed overlap [] (map text (chunks st))) ++ rest
       = concat (map format_page seen).

(** The chunks are not more than the pages read, none is empty, and the
    buffer is in use as soon as a page was read. *)
Definition count_inv (seen : list Page) (st : loop_state) : Prop :=
  (length (view st) <= length seen)%nat
  /\ (seen <> [] -> truthy (buf st) = true)
  /\ (truthy (buf st) = false -> chunks st = [])
  /\ (truthy (buf st) = true -> concat (buf st) <> [])
  /\ Forall (fun c => text c <> []) (chunks st).

(** The page numbers of a list of pages are positive and never go down. *)
Definition numbered (pages : list Page) : Prop :=
  Forall (fun pg => 0 < fst pg) pages
  /\ StronglySorted (fun p q => fst p <= fst q) pages.

(** A text and a page range that belong together: the range is [a..b] with
    [0 < a <= b], both numbers of pages of [seen], and the text ends with
    the formatted text of a page numbered [b]. *)
Definition ranged (seen : list Page) (t : str) (s e : option Z) : Prop :=
  exists a b pa pb pre,
    s = Some a /\ e = Some b /\ 0 < a <= b
    /\ In pa seen /\ fst pa = a
    /\ In pb seen /\ fst pb = b
    /\ t = pre ++ format_page pb.

Definition range_inv (seen : list Page) (st : loop_state) : Prop :=
  Forall (fun c => ranged seen (text c) (page_start c) (page_end c)) (chunks st)
  /\ (truthy (buf st) = true ->
      ranged seen (concat (buf st)) (start_p st) (end_p st)
      /\ end_p st = Some (fst (last seen (0, []))))
  /\ (seen <> [] -> truthy (buf st) = true).

(** The page [pg] lies in the range from [s] to [e]. *)
Definition covers (s e : option Z) (pg : Page) : Prop :=
  exists a b, s = Some a /\ e = Some b /\ a <= fst pg <= b.

(** Every page read so far lies in the range of a closed chunk or in the
    range of the buffer. *)
Definition cover_inv (seen : list Page) (st : loop_state) : Prop :=
  Forall (fun pg =>
            Exists (fun c => covers (page_start c) (page_end c) pg) (chunks st)
            \/ (truthy (buf st) = true /\ covers (start_p st) (end_p st) pg))
    seen.

End ChunkerShape.

(* ------------------------------------------------------------------ *)
(** * More of Python's [str] *)

Module PyText.

(** [s.split()]: the maximal runs of characters that are not white space;
    [word] is the run being read. *)
Fixpoint split_from (word s : str) : list str :=
  match s with
  | [] => if truthy word then [word] else []
  | c :: s' =>
      if is_space c then
        (if truthy word then [word] else []) ++ split_from [] s'
      else split_from (word ++ [c]) s'
  end.

Definition split (s : str) : list str := split_from [] s.

(** [sep.join(l)] *)
Fixpoint join (sep : str) (l : list str) : str :=
  match l with
  | [] => []
  | [x] => x
  | x :: l' => x ++ sep ++ join sep l'
  end.

(** A character that is not white space. *)
Definition is_ink (c : char) : bool := negb (is_space c).

(** What [s.split()] returns is made of words: not empty, no white
    space. *)
Definition word (w : str) : Prop := w <> [] /\ forallb is_ink w = true.

End PyText.

(* ------------------------------------------------------------------ *)
(** * pipeline/pdf_reader.py *)

Module PdfReader.

Import Chunker PyText.
Local Open Scope Z_scope.

(** What [page.extract_text()] does: it returns a text or [None], or it
    raises. *)
Inductive extraction :=
| Extracted (txt : option str)
| ExtractionFails.

(** What [PdfReader(pdf_path)] and going through [reader.pages] do.  The
    constructor raises [FileNotFoundError], or another exception [e], of
    which the code uses [str(e)]; or it returns, and then [reader.pages]
    gives the pages one after the other, or gives some pages [read] and
    raises an exception [e], as it does for an encrypted document, whose
    pages cannot be read at all. *)
Inductive opening :=
| Opened (pages : list extraction)
| PagesFail (read : list extraction) (e : string)
| NotFound
| OpenFails (e : string).

(** What [extract_pages] raises: the two exceptions it raises itself, and
    an exception [e] that comes from [reader.pages], outside every [try],
    and passes through. *)
Inductive error :=
| FileNotFoundError
| ValueError (msg : string)
| Uncaught (e : string).

(** [txt] after the inner [try]: [page.extract_text() or ""], and [""] when
    the call raised. *)
Definition text_of (x : extraction) : str :=
  match x with
  | Extracted (Some t) => if truthy t then t else []
  | Extracted None => []
  | ExtractionFails => []
  end.

(** [" ".join(txt.split())] *)
Definition cleaned (txt : str) : str := join (py " ") (split txt).

(** One iteration of [for i, page in enumerate(reader.pages, start=1)]. *)
Definition step (pages : list Page) (ip : Z * extraction) : list Page :=
  pages ++ [(fst ip, cleaned (text_of (snd ip)))].

Definition extract_pages (pdf : opening) : error + list Page :=
  match pdf with
  | NotFound => inl FileNotFoundError
  | OpenFails e => inl (ValueError ("Failed to open PDF: " ++ e))
  | Opened ps =>
      let pages := fold_left step (Summariser.enumerate 1 ps) [] in
      if truthy pages then inr pages
      else inl (ValueError "PDF has no extractable text.")
  | PagesFail read e =>
      (* the loop has appended the pages [read] when [e] is raised *)
      let pages := fold_left step (Summariser.enumerate 1 read) [] in
      inl (Uncaught e)
  end.

(** The page numbers [k], [k + 1], ... of [n] pages. *)
Fixpoint numbers (k : Z) (n : nat) : list Z :=
  match n with
  | O => []
  | S n' => k :: numbers (k + 1) n'
  end.

End PdfReader.

(* ------------------------------------------------------------------ *)
(** * Collapsing runs, said without the matcher *)

Module Collapse.

Import Direct.

(** The length of the match of [p+] at the head of [s], if there is
    one. *)
Definition run_len (p : char -> bool) (s : str) : option nat :=
  match span_len p s with
  | O => None
  | n => Some n
  end.

(** Every maximal run of characters of class [p] becomes one [repl];
    [in_run] says that the character before belongs to a run. *)
Fixpoint collapse_from (p : char -> bool) (repl : str) (in_run : bool) (s : str)
  : str :=
  match s with
  | [] => []
  | c :: s' =>
      if p c then (if in_run then [] else repl) ++ collapse_from p repl true s'
      else c :: collapse_from p repl false s'
  end.

Definition collapse (p : char -> bool) (repl s : str) : str :=
  collapse_from p repl false s.

(** No two characters of class [p] stand next to each other. *)
Fixpoint no_pair (p : char -> bool) (s : str) : bool :=
  match s with
  | c :: (d :: _) as s' => negb (p c && p d) && no_pair p s'
  | _ => true
  end.

(** [s] is single-spaced: no white space at either end, and inside only
    single [" "] characters. *)
Definition single_spaced (s : str) : Prop :=
  strip s = s
  /\ Forall (fun c => is_space c = true -> c = ch " ") s
  /\ no_pair is_space s = true.

End Collapse.

(* ------------------------------------------------------------------ *)
(** * The shape of the points *)

Module Points.

Import Collapse Summariser.
Local Open Scope Z_scope.

(** The characters of [str(n)] for an [int]: an ASCII digit or the minus
    sign. *)
Definition is_int_char (c : char) : bool := in_range 48%N 57%N c || (c =? 45)%N.

(** A point as [_extract_bullets] and [_top_sentences] make it: ["- "] and
    a single-spaced text that is not empty. *)
Definition point (b : str) : Prop :=
  exists pt, b = py "- " ++ pt /\ pt <> [] /\ single_spaced pt.

(** A bullet that can stand on a line of its own: it begins with ["- "],
    has no line boundary in it and no white space at either end. *)
Definition one_line (b : str) : Prop :=
  (exists rest, b = py "- " ++ rest)
  /\ forallb (fun c => negb (is_linebreak c)) b = true
  /\ strip b = b.

(** [points_text = "\n".join(pieces) + ("\n" if pieces else "")] of
    [run]. *)
Definition points_text (pieces : list str) : str :=
  PyText.join [nl] pieces ++ (if truthy pieces then [nl] else []).

Section Backend.
Context {U : UnicodeData}.
Variable B : Type.
Variable generate : str -> str -> Q -> B -> outcome * B.
Variables (model prompt_template : str) (temperature : Q).

(** The calls of the backend said without the loop: the chunks whose text
    is not blank, each with the answer to its prompt, the backend answering
    them one after the other; and the state the backend is left in. *)
Fixpoint replies (b : B) (cs : list Chunk) : list (Chunk * outcome) * B :=
  match cs with
  | [] => ([], b)
  | (chunk_text, start_page, end_page) as c :: cs' =>
      if truthy (strip chunk_text) then
        let '(answer, b') :=
          generate model
            (format_prompt prompt_template (strip chunk_text) start_page end_page)
            temperature b in
        let '(l, b'') := replies b' cs' in
        ((c, answer) :: l, b'')
      else replies b cs'
  end.

(** The points of one answered chunk. *)
Definition points_of (ca : Chunk * outcome) : list str :=
  let '((chunk_text, start_page, end_page), answer) := ca in
  extract (raw_of answer) (strip chunk_text) start_page end_page.

End Backend.

End Points.

(* ------------------------------------------------------------------ *)
(** * From the chunker to the summariser *)

Module Pipeline.

Local Open Scope Z_scope.



End Pipeline.

(* ------------------------------------------------------------------ *)
(** * app/main.py: the name of the points file *)

Module Titles.

Section WithUnicode.
Context {U : UnicodeData}.

(** A character that the class [[^\w\-]] matches. *)
Definition unsafe (c : char) : bool := negb (is_word c || (c =? ch "-")%N).

(** [[^\w\-]+] *)
Definition re_unsafe : regex := plus unsafe.

(** [s.strip(chars)], for the characters that [p] holds of. *)
Definition strip_chars (p : char -> bool) (s : str) : str :=
  rstrip p (lstrip p s).

(** [company] in [_build_titles], from [pdf_path.stem]:
    [re.sub(r"[^\w\-]+", "_", company).strip("_")] *)
Definition company_of (stem : str) : str :=
  strip_chars (N.eqb (ch "_")) (sub re_unsafe (py "_") stem).

(** [_build_titles(pdf_path, pages)], given the stem of the path and the
    time stamp that [datetime.now().strftime] returns. *)
Definition build_titles (stem ts : str) : str :=
  company_of stem ++ py "_POINTS_" ++ ts.

End WithUnicode.

End Titles.

(* ------------------------------------------------------------------ *)
(** * The prompt template *)

Module Prompt.

(** A piece of template text without a brace. *)
Definition no_braces (s : str) : Prop :=
  forallb (fun c => negb ((c =? ch "{")%N || (c =? ch "}")%N)) s = true.

(** A placeholder: it begins with ["{"] and ends with ["}"]. *)
Definition placeholder (old : str) : Prop :=
  exists mid, old = ch "{" :: mid ++ [ch "}"].

End Prompt.

(* ------------------------------------------------------------------ *)
(** * The candidates of the fallback *)

Module Fallback.

Import Summariser.

Section WithUnicode.
Context {U : UnicodeData}.

(** The list [scored] of [_top_sentences] before it is sorted: the
    sentences that are not blank, stripped, each with its score. *)
Definition scored_sentences (text : str) : list (Q * str) :=
  flat_map
    (fun s => let s := strip s in
              if truthy s then [(sentence_score s, s)] else [])
    (Re.split SENTENCE text).

(** The bullet that [_top_sentences] makes of a sentence. *)
Definition render (x : Q * str) : str :=
  py "- " ++ sub re_spaces (py " ") (snd x).

End WithUnicode.

End Fallback.

(* ------------------------------------------------------------------ *)
(** * app/main.py: the latest report *)

Module Latest.

Inductive error :=
| FileNotFoundError (msg : string).

(** [Path(p).stat().st_mtime if Path(p).exists() else 0], where [mtime]
    gives the modification time of the paths that exist. *)
Definition key (mtime : str -> option Q) (p : str) : Q :=
  match mtime p with
  | Some t => t
  | None => 0%Q
  end.

(** [find_latest_pdf()], given what [glob("reports/*.pdf")] returns. *)
Definition find_latest_pdf (mtime : str -> option Q) (found : list str)
  : error + str :=
  let pdfs := sorted Qltb (key mtime) true found in
  match pdfs with
  | [] => inl (FileNotFoundError "No PDF found in ./reports.")
  | p :: _ => inr p
  end.

End Latest.

(* ------------------------------------------------------------------ *)
(** * More concrete inputs *)

Module MoreInputs.

Local Open Scope Z_scope.

(** A document of three pages; the text of the second one cannot be
    extracted. *)
Definition three_extractions : list PdfReader.extraction :=
  [PdfReader.Extracted (Some (repeat (ch "a") 300 ++ py "  " ++ repeat (ch "a") 300));
   PdfReader.ExtractionFails;
   PdfReader.Extracted (Some (repeat (ch "b") 600))].

End MoreInputs.

(* ------------------------------------------------------------------ *)
(** * Properties of the chunker *)

Module ChunkerFacts.

Import Chunker ChunkerInv.
Local Open Scope Z_scope.

#[local] Arguments format_page : simpl never.
#[local] Arguments overlap_tail : simpl never.

Lemma len_app (a b : str) : len (a ++ b) = len a + len b.
Proof. unfold len. rewrite length_app. lia. Qed.

Lemma len_nonneg (a : str) : 0 <= len a.
Proof. unfold len. lia. Qed.

Lemma truthy_false {A} (l : list A) : truthy l = false <-> l = [].
Proof. destruct l; simpl; split; congruence. Qed.

Lemma truthy_true {A} (l : list A) : truthy l = true <-> l <> [].
Proof. destruct l; simpl; split; congruence. Qed.

Lemma format_page_nonempty pg : format_page pg <> [].
Proof. unfold format_page. simpl. discriminate. Qed.

Lemma concat_snoc (ls : list str) (l : str) :
  concat (ls ++ [l]) = concat ls ++ l.
Proof. rewrite concat_app. simpl. now rewrite app_nil_r. Qed.

(** ** The overlap tail *)

Lemma overlap_tail_skipn overlap joined :
  0 <= overlap ->
  overlap_tail overlap joined
  = skipn (length joined - Z.to_nat overlap) joined.
Proof.
  intros Hov. unfold overlap_tail, slice_from.
  destruct (Z.eqb_spec overlap 0) as [->|Hne].
  - simpl. rewrite Nat.sub_0_r. now rewrite skipn_all.
  - destruct (Z.ltb_spec (- overlap) 0); [|lia].
    f_equal. unfold len. lia.
Qed.

Lemma overlap_tail_suffix overlap joined :
  0 <= overlap ->
  exists pre, joined = pre ++ overlap_tail overlap joined.
Proof.
  intros Hov. rewrite overlap_tail_skipn by assumption.
  eexists. symmetry. apply firstn_skipn.
Qed.

Lemma overlap_tail_len overlap joined :
  0 <= overlap ->
  len (overlap_tail overlap joined) = Z.min overlap (len joined).
Proof.
  intros Hov. rewrite overlap_tail_skipn by assumption.
  unfold len. rewrite length_skipn. lia.
Qed.

Lemma overlap_tail_empty overlap joined :
  0 <= overlap ->
  (overlap_tail overlap joined = [] <-> overlap = 0 \/ joined = []).
Proof.
  intros Hov. split.
  - intros H. pose proof (overlap_tail_len joined Hov) as L.
    rewrite H in L. unfold len in L. simpl in L.
    destruct joined; [now right|]. simpl in L. left. lia.
  - intros [->| ->]; [reflexivity|].
    unfold overlap_tail, slice_from. destruct (overlap =? 0); [reflexivity|].
    destruct (- overlap <? 0); now rewrite skipn_nil.
Qed.

(** ** Invariants of the loop *)

Lemma run_loop_ind (I : loop_state -> Prop) (Q : Page -> Prop) max_chars overlap :
  (forall st pg, I st -> Q pg -> I (step max_chars overlap st pg)) ->
  forall pages st, I st -> Forall Q pages -> I (run_loop max_chars overlap st pages).
Proof.
  intros Hstep. induction pages as [|pg pages IH]; intros st Hst Hq; simpl.
  - exact Hst.
  - inversion Hq; subst. apply IH; auto.
Qed.

(** ** The three ways an iteration can go *)

Section Step.
Variables (max_chars overlap : Z) (st : loop_state) (pg : Page).

Lemma step_first :
  buf st = [] ->
  step max_chars overlap st pg
  = mk_state (chunks st) [format_page pg] (Some (fst pg)) (Some (fst pg))
      (size st + len (format_page pg)).
Proof.
  intros Hb. unfold step. rewrite Hb. cbn [truthy app].
  now rewrite andb_false_r.
Qed.

Lemma step_append :
  truthy (buf st) = true ->
  (size st + len (format_page pg) >? max_chars) = false ->
  step max_chars overlap st pg
  = mk_state (chunks st) (buf st ++ [format_page pg]) (start_p st)
      (Some (fst pg)) (size st + len (format_page pg)).
Proof. intros Hb Hgt. unfold step. now rewrite Hb, Hgt. Qed.

Lemma step_close :
  truthy (buf st) = true ->
  (size st + len (format_page pg) >? max_chars) = true ->
  let tail := overlap_tail overlap (concat (buf st)) in
  step max_chars overlap st pg
  = mk_state (chunks st ++ [pending st])
      ((if truthy tail then [tail] else []) ++ [format_page pg])
      (if truthy tail then start_p st else Some (fst pg))
      (Some (fst pg)) (len tail + len (format_page pg)).
Proof. intros Hb Hgt. unfold step, pending. now rewrite Hb, Hgt. Qed.

Lemma step_cases :
  (buf st = [])
  \/ (truthy (buf st) = true
      /\ (size st + len (format_page pg) >? max_chars) = false)
  \/ (truthy (buf st) = true
      /\ (size st + len (format_page pg) >? max_chars) = true).
Proof.
  destruct (buf st); [now left|right].
  destruct (size st + len (format_page pg) >? max_chars); auto.
Qed.

End Step.

Lemma concat_seed (tail part : str) :
  concat ((if truthy tail then [tail] else []) ++ [part]) = tail ++ part.
Proof. rewrite concat_snoc. destruct tail; simpl; now rewrite ?app_nil_r. Qed.

Ltac projections :=
  cbn [chunks buf start_p end_p size text page_start page_end] in *.

(** ** The budget *)

Section Budget.
Variables (max_chars overlap : Z) (Q : Page -> Prop).
Hypothesis Hov : 0 <= overlap.

Lemma budget_inv_init : budget_inv max_chars overlap Q init.
Proof.
  unfold budget_inv, init; simpl. repeat split; auto. discriminate.
Qed.

Lemma budget_inv_step st pg :
  budget_inv max_chars overlap Q st -> Q pg ->
  budget_inv max_chars overlap Q (step max_chars overlap st pg).
Proof.
  intros (Hsize & Hchunks & Hbuf) Hq.
  destruct (step_cases max_chars st pg) as [Hb | [[Hb Hgt] | [Hb Hgt]]].
  - (* the first page *)
    rewrite step_first by assumption. rewrite Hb in Hsize.
    change (len (concat [])) with 0 in Hsize.
    unfold budget_inv; projections.
    replace (concat [format_page pg]) with (format_page pg)
      by (simpl; now rewrite app_nil_r).
    repeat split; [lia|assumption|].
    intros _. right. exists [], pg. repeat split; auto.
  - (* the page joins the buffer, which stays within budget *)
    rewrite step_append by assumption.
    unfold budget_inv; projections. rewrite concat_snoc, len_app.
    repeat split; [lia|assumption|].
    intros _. left. rewrite len_app.
    rewrite Z.gtb_ltb in Hgt. apply Z.ltb_ge in Hgt. lia.
  - (* the buffer is closed, the tail and the page start the next one *)
    rewrite step_close by assumption.
    set (tail := overlap_tail overlap (concat (buf st))).
    assert (Htail : len tail <= overlap).
    { unfold tail. rewrite overlap_tail_len by assumption. lia. }
    unfold budget_inv; projections. rewrite concat_seed, len_app.
    repeat split.
    + apply Forall_app. split; [assumption|].
      constructor; [|constructor]. unfold pending; projections. auto.
    + intros _. right. exists tail, pg. auto.
Qed.

Lemma budget_inv_finish st :
  budget_inv max_chars overlap Q st ->
  Forall (fun c => within max_chars overlap Q (text c)) (finish st).
Proof.
  intros (_ & Hchunks & Hbuf). unfold finish.
  destruct (truthy (buf st)); [|assumption].
  apply Forall_app. split; [assumption|].
  constructor; [|constructor]. simpl. auto.
Qed.

End Budget.

Lemma chunk_pages_ok pages max_chars overlap :
  valid_config max_chars overlap ->
  chunk_pages pages max_chars overlap
  = Ok (finish (run_loop max_chars overlap init pages)).
Proof.
  intros [Hm [Ho1 Ho2]]. unfold chunk_pages.
  destruct (Z.leb_spec max_chars 1000); [lia|].
  destruct (Z.ltb_spec overlap 0); [lia|].
  destruct (Z.geb_spec overlap max_chars); [lia|]. reflexivity.
Qed.

(** C1, as the code has it.  For every accepted configuration and every
    page sequence, a chunk of the result is within [max_chars], or it is
    exactly one page's formatted text behind an overlap tail of at most
    [overlap] characters (no tail at all when [overlap = 0]); so only a
    chunk that holds a single page can exceed the budget, and it does so by
    at most the length of its tail unless the page alone exceeds it. *)
Theorem chunk_budget_soft pages max_chars overlap cs c :
  valid_config max_chars overlap ->
  chunk_pages pages max_chars overlap = Ok cs ->
  In c cs ->
  len (text c) <= max_chars
  \/ exists tail pg,
       In pg pages /\ text c = tail ++ format_page pg
       /\ len tail <= overlap
       /\ len (text c) <= overlap + len (format_page pg)
       /\ (overlap = 0 -> tail = [] /\ max_chars < len (format_page pg)).
Proof.
  intros Hv Hrun Hin. pose proof Hv as [Hm [Ho1 Ho2]].
  rewrite chunk_pages_ok in Hrun by assumption. injection Hrun as <-.
  assert (Hall : Forall (fun c => within max_chars overlap (fun pg => In pg pages) (text c))
                   (finish (run_loop max_chars overlap init pages))).
  { apply budget_inv_finish.
    apply run_loop_ind with (Q := fun pg => In pg pages).
    - intros st pg Hst Hq. now apply budget_inv_step.
    - apply budget_inv_init.
    - apply Forall_forall. auto. }
  rewrite Forall_forall in Hall. specialize (Hall c Hin).
  destruct Hall as [Hle | (tail & pg & Hpg & Htext & Htail)]; [now left|].
  destruct (Z.leb_spec (len (text c)) max_chars) as [Hle|Hgt]; [now left|].
  right. exists tail, pg. do 3 (split; [assumption|]). split.
  - rewrite Htext, len_app. lia.
  - intros ->. assert (tail = []) as ->.
    { destruct tail; [reflexivity|]. unfold len in Htail. simpl in Htail. lia. }
    split; [reflexivity|]. now rewrite Htext in Hgt.
Qed.

(** ** Neighbouring chunks *)

Lemma chain_app_inv R l1 x y l2 : chain R (l1 ++ x :: y :: l2) -> R x y.
Proof.
  induction l1 as [|a l1 IH]; simpl.
  - now intros [H _].
  - destruct (l1 ++ x :: y :: l2) eqn:E.
    + destruct l1; discriminate.
    + intros [_ H]. auto.
Qed.

Lemma chain_snoc R l x y : chain R (l ++ [x]) -> R x y -> chain R (l ++ [x; y]).
Proof.
  induction l as [|a l IH]; simpl; intros H Hxy.
  - auto.
  - destruct l as [|b l]; simpl in *.
    + destruct H. auto.
    + destruct H as [Hab H]. split; [assumption|]. now apply IH.
Qed.

Lemma chain_last R l x x' :
  chain R (l ++ [x]) -> (forall w, R w x -> R w x') -> chain R (l ++ [x']).
Proof.
  induction l as [|a l IH]; simpl; intros H Hx.
  - exact I.
  - destruct l as [|b l]; simpl in *.
    + destruct H. auto.
    + destruct H as [Hab H]. split; [assumption|]. now apply IH.
Qed.

Lemma truthy_snoc {A} (l : list A) (x : A) : truthy (l ++ [x]) = true.
Proof. now destruct l. Qed.

Lemma view_filling st :
  truthy (buf st) = true -> view st = chunks st ++ [pending st].
Proof. intros H. unfold view. now rewrite H. Qed.

Section Chain.
Variables (max_chars overlap : Z) (Q : Page -> Prop) (R : Chunk -> Chunk -> Prop).

Hypothesis R_extends :
  forall w x x',
    R w x -> page_start x' = page_start x ->
    (exists more, text x' = text x ++ more) -> R w x'.

Hypothesis R_new :
  forall x pg e,
    Q pg -> text x <> [] ->
    (exists pg', Q pg' /\ page_start x = Some (fst pg')) ->
    R x (mk_chunk (overlap_tail overlap (text x) ++ format_page pg)
           (if truthy (overlap_tail overlap (text x)) then page_start x
            else Some (fst pg)) e).

Lemma chain_inv_init : chain_inv Q R init.
Proof.
  unfold chain_inv, started, view, init; simpl. repeat split; discriminate.
Qed.

Lemma chain_inv_step st pg :
  chain_inv Q R st -> Q pg -> chain_inv Q R (step max_chars overlap st pg).
Proof.
  intros [[Hempty Hfull] Hchain] Hq.
  destruct (step_cases max_chars st pg) as [Hb | [[Hb Hgt] | [Hb Hgt]]].
  - (* the first page *)
    rewrite step_first by assumption.
    assert (Hc : chunks st = []) by (apply Hempty; now rewrite Hb).
    unfold chain_inv, started; rewrite view_filling by reflexivity.
    projections. rewrite Hc. split; [split|exact I].
    + discriminate.
    + intros _. split; [|now exists pg].
      simpl. rewrite app_nil_r. apply format_page_nonempty.
  - (* the page joins the buffer *)
    rewrite step_append by assumption.
    destruct (Hfull Hb) as [Hne Hstart].
    rewrite view_filling in Hchain by assumption.
    unfold chain_inv, started.
    rewrite view_filling by (projections; apply truthy_snoc).
    projections. rewrite truthy_snoc, concat_snoc. split; [split|].
    + discriminate.
    + intros _. split; [|assumption].
      intros E. apply app_eq_nil in E. now destruct E.
    + apply chain_last with (x := pending st); [assumption|].
      intros w Hw. apply R_extends with (x := pending st); [assumption|reflexivity|].
      unfold pending; projections. rewrite concat_snoc. now eexists.
  - (* the buffer is closed *)
    rewrite step_close by assumption.
    destruct (Hfull Hb) as [Hne Hstart].
    rewrite view_filling in Hchain by assumption.
    unfold chain_inv, started.
    rewrite view_filling by (projections; apply truthy_snoc).
    projections. rewrite truthy_snoc, concat_seed. split; [split|].
    + discriminate.
    + intros _. split.
      * intros E. apply app_eq_nil in E. destruct E as [_ E].
        now apply format_page_nonempty in E.
      * destruct (truthy (overlap_tail overlap (concat (buf st))));
          [assumption|now exists pg].
    + rewrite <- app_assoc. apply chain_snoc; [assumption|].
      unfold pending at 2; projections. rewrite concat_seed.
      apply (R_new (pending st)); assumption.
Qed.

Lemma chain_inv_run pages st :
  chain_inv Q R st -> Forall Q pages ->
  chain_inv Q R (run_loop max_chars overlap st pages).
Proof.
  intros Hst Hq.
  apply run_loop_ind with (Q := Q)
                          (I := chain_inv Q R); auto using chain_inv_step.
Qed.

End Chain.

(** The last chunk is the buffer as it stands, and it keeps the start page
    when that is not zero. *)
Lemma finish_view Q R st :
  chain_inv Q R st ->
  (forall w x x', R w x -> text x' = text x ->
                  (page_start x <> Some 0 -> page_start x' = page_start x) ->
                  R w x') ->
  chain R (finish st).
Proof.
  intros [[Hempty Hfull] Hchain] HR. unfold finish.
  destruct (truthy (buf st)) eqn:Hb.
  - rewrite view_filling in Hchain by assumption.
    apply chain_last with (x := pending st); [assumption|].
    intros w Hw. apply HR with (x := pending st); [assumption|reflexivity|].
    unfold pending; projections. intros Hnz.
    destruct (Hfull eq_refl) as (_ & pg & _ & E). rewrite E in *. simpl.
    destruct (Z.eqb_spec (fst pg) 0); congruence.
  - unfold view in Hchain. rewrite Hb, app_nil_r in Hchain. exact Hchain.
Qed.

Lemma chain_of_result Q R pages max_chars overlap cs :
  valid_config max_chars overlap ->
  chunk_pages pages max_chars overlap = Ok cs ->
  Forall Q pages ->
  (forall w x x',
     R w x -> page_start x' = page_start x ->
     (exists more, text x' = text x ++ more) -> R w x') ->
  (forall x pg e,
     Q pg -> text x <> [] ->
     (exists pg', Q pg' /\ page_start x = Some (fst pg')) ->
     R x (mk_chunk (overlap_tail overlap (text x) ++ format_page pg)
            (if truthy (overlap_tail overlap (text x)) then page_start x
             else Some (fst pg)) e)) ->
  (forall w x x',
     R w x -> text x' = text x ->
     (page_start x <> Some 0 -> page_start x' = page_start x) -> R w x') ->
  chain R cs.
Proof.
  intros Hv Hrun Hq Hext Hnew Hfin.
  rewrite chunk_pages_ok in Hrun by assumption. injection Hrun as <-.
  apply finish_view with (Q := Q); [|assumption].
  apply chain_inv_run; auto using chain_inv_init.
Qed.

(** C7, as the code has it.  For every accepted configuration and page
    sequence, the text that seeds the buffer after chunk [c] is closed is
    shorter than [max_chars], it is a suffix of [c]'s text, and the next
    chunk [c'] begins with it.  It has [overlap] characters when [c] has
    that many; when [c] is shorter it is the whole text of [c].  So with
    [overlap = 200] chunk N+1 begins with the last 200 characters of chunk
    N only when chunk N has 200 characters. *)
Theorem overlap_seeds_next_chunk pages max_chars overlap cs before c c' rest :
  valid_config max_chars overlap ->
  chunk_pages pages max_chars overlap = Ok cs ->
  cs = before ++ c :: c' :: rest ->
  exists tail,
    len tail < max_chars
    /\ (exists pre, text c = pre ++ tail)
    /\ (exists more, text c' = tail ++ more)
    /\ len tail = Z.min overlap (len (text c))
    /\ (overlap <= len (text c) -> len tail = overlap)
    /\ (len (text c) <= overlap -> tail = text c).
Proof.
  intros Hv Hrun Hcs. pose proof Hv as [Hm [Ho1 Ho2]].
  set (tail := overlap_tail overlap (text c)).
  assert (Hlen : len tail = Z.min overlap (len (text c)))
    by (apply overlap_tail_len; assumption).
  assert (Hchain : chain (seeded overlap) cs).
  { apply chain_of_result with (Q := fun _ => True) (pages := pages)
                               (max_chars := max_chars) (overlap := overlap);
      try assumption.
    - apply Forall_forall. auto.
    - intros w x x' [more Hw] _ [more' Hx]. exists (more ++ more').
      now rewrite Hx, Hw, app_assoc.
    - intros x pg e _ _ _. now exists (format_page pg).
    - intros w x x' [more Hw] Hx _. exists more. now rewrite Hx. }
  rewrite Hcs in Hchain. apply chain_app_inv in Hchain.
  destruct (overlap_tail_suffix (text c) Ho1) as [pre Hpre]. fold tail in Hpre.
  exists tail. split; [lia|]. split; [now exists pre|].
  split; [exact Hchain|]. split; [exact Hlen|]. split; [lia|].
  intros Hshort.
  assert (Hp : len pre = 0).
  { pose proof (f_equal len Hpre) as E. rewrite len_app in E. lia. }
  destruct pre as [|x pre]; [exact (eq_sym Hpre)|].
  unfold len in Hp. cbn [length] in Hp. lia.
Qed.

(** The start page from one chunk to the next.  For every accepted
    configuration and every page sequence with non-zero page numbers: when
    the tail taken from a closed chunk [c] is not empty, the next chunk
    [c'] keeps the start page of [c] (not its last page); when the tail is
    empty, [c'] starts at the page that opens it.  With [overlap > 0] the
    tail is never empty. *)
Theorem start_page_bookkeeping pages max_chars overlap cs before c c' rest :
  valid_config max_chars overlap ->
  Forall (fun pg => fst pg <> 0) pages ->
  chunk_pages pages max_chars overlap = Ok cs ->
  cs = before ++ c :: c' :: rest ->
  (overlap_tail overlap (text c) <> [] -> page_start c' = page_start c)
  /\ (overlap_tail overlap (text c) = [] ->
      exists pg more, In pg pages /\ page_start c' = Some (fst pg)
                      /\ text c' = format_page pg ++ more)
  /\ (0 < overlap -> overlap_tail overlap (text c) <> []).
Proof.
  intros Hv Hnz Hrun Hcs. pose proof Hv as [Hm [Ho1 Ho2]].
  set (Q := fun pg : Page => In pg pages /\ fst pg <> 0).
  assert (Hchain : chain (start_rule overlap Q) cs).
  { apply chain_of_result with (Q := Q) (pages := pages)
                               (max_chars := max_chars) (overlap := overlap);
      try assumption.
    - rewrite Forall_forall in *. intros pg Hin. split; auto.
    - intros w x x' (H1 & H2 & H3 & H4) Hs [more Hx].
      split; [|split; [|split]].
      + intros Ht. rewrite Hs. auto.
      + intros Ht. destruct (H2 Ht) as (pg & more' & Hpg & Hst & Htx).
        exists pg, (more' ++ more). split; [assumption|]. split; [congruence|].
        now rewrite Hx, Htx, app_assoc.
      + assumption.
      + destruct H4 as (pg & Hpg & Hst). exists pg. split; congruence.
    - intros x pg e Hpg Hne Hx. unfold start_rule; projections.
      split; [|split; [|split]].
      + intros Ht. apply truthy_true in Ht. now rewrite Ht.
      + intros Ht. rewrite Ht. exists pg, []. simpl. now rewrite app_nil_r.
      + intros Hpos Ht. apply overlap_tail_empty in Ht; [|assumption].
        destruct Ht; [lia|contradiction].
      + destruct (truthy (overlap_tail overlap (text x)));
          [assumption|now exists pg].
    - intros w x x' (H1 & H2 & H3 & H4) Htx Hs.
      destruct H4 as (pg & Hpg & Hst).
      assert (Hs' : page_start x' = page_start x).
      { apply Hs. rewrite Hst. destruct Hpg. congruence. }
      split; [|split; [|split]].
      + intros Ht. rewrite Hs'. auto.
      + intros Ht. destruct (H2 Ht) as (pg' & more & Hpg' & Hst' & Htx').
        exists pg', more. split; [assumption|]. split; congruence.
      + assumption.
      + exists pg. split; congruence. }
  rewrite Hcs in Hchain. apply chain_app_inv in Hchain.
  destruct Hchain as (H1 & H2 & H3 & _). split; [|split].
  - assumption.
  - intros Ht. destruct (H2 Ht) as (pg & more & [Hpg _] & Hst & Htx).
    now exists pg, more.
  - assumption.
Qed.

(** The configuration check of [chunk_pages] raises exactly when
    [max_chars <= 1000], [overlap < 0] or [overlap >= max_chars]. *)
Lemma chunk_pages_raises_iff pages max_chars overlap :
  (exists e, chunk_pages pages max_chars overlap = Raise e)
  <-> max_chars <= 1000 \/ overlap < 0 \/ max_chars <= overlap.
Proof.
  unfold chunk_pages.
  destruct (Z.leb_spec max_chars 1000).
  { split; [intros _; lia | intros _; eexists; reflexivity]. }
  destruct (Z.ltb_spec overlap 0); simpl.
  { split; [intros _; lia | intros _; eexists; reflexivity]. }
  destruct (Z.geb_spec overlap max_chars).
  { split; [intros _; lia | intros _; eexists; reflexivity]. }
  split; [intros [e He]; discriminate | lia].
Qed.

(** C6 at the floor itself.  [--max-chars 1000] passes the validation of
    [run], which asks for [>= 1000], and [chunk_pages] then raises whatever
    the pages and the overlap are; so does [run] with [--overlap 0]. *)
Theorem chunk_pages_rejects_floor pages overlap :
  Main.ensure_positive_int "max-chars" 1000 1000 = Ok 1000
  /\ chunk_pages pages 1000 overlap
     = Raise (ValueError "max_chars too small; recommend >= 3000")
  /\ Main.run_chunking pages 1000 0
     = Raise (ValueError "max_chars too small; recommend >= 3000").
Proof. repeat split. Qed.

(** ** The claims on concrete pages *)

Import Inputs.

Lemma two_pages_chunks :
  exists t1 t2,
    chunk_pages two_pages 1001 500
    = Ok [mk_chunk t1 (Some 1) (Some 1); mk_chunk t2 (Some 1) (Some 2)]
    /\ len t1 = 608 /\ len t2 = 1108.
Proof. do 2 eexists. vm_compute. repeat split. Qed.

(** C1 as it is written fails: with [max_chars = 1001] and [overlap = 500],
    two pages whose formatted text has 608 characters each give a second
    chunk of 1108 characters, and no page exceeds the budget. *)
Lemma chunk_budget_counterexample : ~ Claims.chunk_budget two_pages 1001 500.
Proof.
  intros H. destruct two_pages_chunks as (t1 & t2 & Hrun & _ & Hlen).
  destruct (H _ (mk_chunk t2 (Some 1) (Some 2)) Hrun) as [Hle | (pg & Hin & Hgt & _)].
  - simpl. auto.
  - simpl in Hle. lia.
  - destruct Hin as [<- | [<- | []]]; vm_compute in Hgt; discriminate.
Qed.

Lemma chunk_budget_soft_witness :
  let cs := finish (run_loop 1001 500 init two_pages) in
  let c := nth 1 cs no_chunk in
  len (text c) <= 1001
  \/ exists tail pg,
       In pg two_pages /\ text c = tail ++ format_page pg
       /\ len tail <= 500
       /\ len (text c) <= 500 + len (format_page pg)
       /\ (500 = 0 -> tail = [] /\ 1001 < len (format_page pg)).
Proof.
  intros cs c.
  apply (@chunk_budget_soft two_pages 1001 500 cs c).
  - unfold valid_config. lia.
  - reflexivity.
  - right. left. vm_compute. reflexivity.
Defined.

Lemma overlap_seeds_next_chunk_witness :
  let cs := finish (run_loop 1001 200 init two_pages) in
  let c := nth 0 cs no_chunk in
  let c' := nth 1 cs no_chunk in
  exists tail,
    len tail < 1001
    /\ (exists pre, text c = pre ++ tail)
    /\ (exists more, text c' = tail ++ more)
    /\ len tail = Z.min 200 (len (text c))
    /\ (200 <= len (text c) -> len tail = 200)
    /\ (len (text c) <= 200 -> tail = text c).
Proof.
  intros cs c c'.
  apply (@overlap_seeds_next_chunk two_pages 1001 200 cs [] c c' []).
  - unfold valid_config. lia.
  - reflexivity.
  - vm_compute. reflexivity.
Defined.

Lemma short_first_page_chunks :
  exists t1 t2,
    chunk_pages short_first_page 1001 200
    = Ok [mk_chunk t1 (Some 1) (Some 1); mk_chunk t2 (Some 1) (Some 2)]
    /\ len t1 = 8.
Proof. do 2 eexists. vm_compute. split; reflexivity. Qed.

(** C7 as it is written fails: with [max_chars = 1001] and [overlap = 200],
    a first page without text makes a first chunk of 8 characters, which
    page 2 closes; the second chunk begins with these 8 characters, and the
    first chunk has no last 200 characters. *)
Lemma exact_overlap_prefix_counterexample :
  ~ Claims.exact_overlap_prefix short_first_page 1001.
Proof.
  intros H. destruct short_first_page_chunks as (t1 & t2 & Hrun & Hlen).
  destruct (H _ [] (mk_chunk t1 (Some 1) (Some 1))
              (mk_chunk t2 (Some 1) (Some 2)) [] Hrun eq_refl)
    as (tail & Htail & (pre & Hpre) & _).
  cbn [text] in Hpre. apply (f_equal len) in Hpre.
  rewrite len_app, Hlen, Htail in Hpre.
  pose proof (len_nonneg pre). lia.
Qed.

Lemma three_pages_chunks :
  exists t1 t2,
    chunk_pages three_pages 1001 1
    = Ok [mk_chunk t1 (Some 1) (Some 2); mk_chunk t2 (Some 1) (Some 3)]
    /\ overlap_tail 1 t1 = [nl].
Proof. do 2 eexists. vm_compute. split; reflexivity. Qed.

(** C2 as it is written fails: with [max_chars = 1001] and [overlap = 1],
    pages 1 and 2 fill the first chunk, the tail is the newline that ends
    page 2, and the second chunk starts at page 1, not at page 2. *)
Lemma start_page_after_tail_counterexample :
  ~ Claims.start_page_after_tail three_pages 1001 1.
Proof.
  intros H. destruct three_pages_chunks as (t1 & t2 & Hrun & Htail).
  specialize (H _ [] (mk_chunk t1 (Some 1) (Some 2))
                (mk_chunk t2 (Some 1) (Some 3)) [] Hrun eq_refl).
  simpl in H. rewrite Htail in H.
  assert (E : Some 1 = Some 2) by (apply H; [lia|discriminate]).
  discriminate E.
Qed.

Lemma start_page_bookkeeping_witness :
  let cs := finish (run_loop 1001 1 init three_pages) in
  let c := nth 0 cs no_chunk in
  let c' := nth 1 cs no_chunk in
  (overlap_tail 1 (text c) <> [] -> page_start c' = page_start c)
  /\ (overlap_tail 1 (text c) = [] ->
      exists pg more, In pg three_pages /\ page_start c' = Some (fst pg)
                      /\ text c' = format_page pg ++ more)
  /\ (0 < 1 -> overlap_tail 1 (text c) <> []).
Proof.
  intros cs c c'.
  apply (@start_page_bookkeeping three_pages 1001 1 cs [] c c' []).
  - unfold valid_config. lia.
  - repeat constructor; simpl; lia.
  - reflexivity.
  - vm_compute. reflexivity.
Defined.

(** ** The start page is never moved *)

Lemma or_int_nonzero a o : a <> 0 -> or_int (Some a) o = Some a.
Proof.
  intros Ha. unfold or_int. destruct (Z.eqb_spec a 0); [contradiction|reflexivity].
Qed.

(** With an overlap the buffer is never empty again, and neither the
    chunks closed nor the buffer leave the start page they have. *)
Lemma run_loop_keeps_start max_chars overlap a rest :
  0 < overlap ->
  forall st,
    Forall (fun c => page_start c = Some a) (chunks st) ->
    concat (buf st) <> [] -> start_p st = Some a ->
    Forall (fun c => page_start c = Some a)
      (chunks (run_loop max_chars overlap st rest))
    /\ truthy (buf (run_loop max_chars overlap st rest)) = true
    /\ start_p (run_loop max_chars overlap st rest) = Some a.
Proof.
  intros Hov. induction rest as [|pg rest IH]; intros st Hch Hbuf Hst.
  - cbn [run_loop fold_left]. split; [assumption|]. split; [|assumption].
    destruct (buf st); [contradiction|reflexivity].
  - change (run_loop max_chars overlap st (pg :: rest))
      with (run_loop max_chars overlap (step max_chars overlap st pg) rest).
    destruct (step_cases max_chars st pg) as [Hb | [[Hb Hgt] | [Hb Hgt]]].
    + rewrite Hb in Hbuf. contradiction.
    + rewrite step_append by assumption. apply IH; projections; auto.
      rewrite concat_snoc. intros E. apply app_eq_nil in E.
      destruct E as [_ E]. now apply format_page_nonempty in E.
    + rewrite step_close by assumption.
      assert (Htail : truthy (overlap_tail overlap (concat (buf st))) = true).
      { apply truthy_true. intros E.
        apply overlap_tail_empty in E; [|lia]. destruct E; [lia|contradiction]. }
      rewrite Htail. apply IH; projections; auto.
      * apply Forall_app. split; [assumption|].
        constructor; [|constructor]. unfold pending; projections. assumption.
      * rewrite concat_snoc. intros E. apply app_eq_nil in E.
        destruct E as [_ E]. now apply format_page_nonempty in E.
Qed.

(** C2, where the code leaves the specification.  With [overlap > 0] the
    start page is set at the first page and never again: line 27 keeps
    [start_p] whenever a tail was carried over, and with an overlap a tail
    always is.  So every chunk of the result has the number of the first
    page as its start page, whichever page produced its tail; a chunk
    starts at the last page of the chunk before it only when that chunk
    ends on the first page. *)
Theorem start_page_stale p0 rest max_chars overlap cs :
  valid_config max_chars overlap ->
  0 < overlap -> fst p0 <> 0 ->
  chunk_pages (p0 :: rest) max_chars overlap = Ok cs ->
  Forall (fun c => page_start c = Some (fst p0)) cs
  /\ forall before c c' more,
       cs = before ++ c :: c' :: more ->
       page_start c' = page_start c
       /\ (page_start c' = page_end c <-> page_end c = Some (fst p0)).
Proof.
  intros Hv Hov Hnz Hrun.
  rewrite chunk_pages_ok in Hrun by assumption. injection Hrun as Ecs.
  assert (Hall : Forall (fun c => page_start c = Some (fst p0)) cs).
  { rewrite <- Ecs.
    change (run_loop max_chars overlap init (p0 :: rest))
      with (run_loop max_chars overlap (step max_chars overlap init p0) rest).
    rewrite step_first by reflexivity.
    match goal with
    | |- context [run_loop max_chars overlap ?st0 rest] =>
        destruct (@run_loop_keeps_start max_chars overlap (fst p0) rest Hov st0)
          as (Hch & Hb & Hst)
    end; projections.
    - constructor.
    - cbn [concat]. rewrite app_nil_r. apply format_page_nonempty.
    - reflexivity.
    - unfold finish. rewrite Hb. apply Forall_app. split; [assumption|].
      constructor; [|constructor]. projections.
      rewrite Hst. now apply or_int_nonzero. }
  split; [exact Hall|].
  intros before c c' more Hcs. rewrite Hcs in Hall.
  apply Forall_app in Hall. destruct Hall as [_ Hall].
  inversion Hall as [|? ? Hc Hall']; subst.
  inversion Hall' as [|? ? Hc' _]; subst.
  rewrite Hc, Hc'. split; [reflexivity|]. split; intros E; now rewrite E.
Qed.

(** With the defaults, [max_chars = 3000] and [overlap = 200], four pages
    of 2000 characters make the ranges 1-1, 1-2, 1-3 and 1-4. *)
Lemma four_pages_ranges :
  exists cs,
    chunk_pages four_pages 3000 200 = Ok cs
    /\ map (fun c => (page_start c, page_end c)) cs
       = [(Some 1, Some 1); (Some 1, Some 2); (Some 1, Some 3); (Some 1, Some 4)].
Proof. eexists. vm_compute. split; reflexivity. Qed.

Lemma start_page_stale_witness :
  let cs := finish (run_loop 3000 200 init four_pages) in
  Forall (fun c => page_start c = Some 1) cs
  /\ forall before c c' more,
       cs = before ++ c :: c' :: more ->
       page_start c' = page_start c
       /\ (page_start c' = page_end c <-> page_end c = Some 1).
Proof.
  intros cs.
  apply (@start_page_stale (1, repeat (ch "a") 2000)
           [(2, repeat (ch "b") 2000); (3, repeat (ch "c") 2000);
            (4, repeat (ch "d") 2000)] 3000 200 cs).
  - unfold valid_config. lia.
  - lia.
  - simpl. lia.
  - vm_compute. reflexivity.
Defined.

End ChunkerFacts.

(* ------------------------------------------------------------------ *)
(** * Properties of the stable sort *)

Module SortFacts.

Section Sort.
Variables (A K : Type) (ltb : K -> K -> bool) (key : A -> K).

Lemma insert_perm x l : Permutation (insert ltb key x l) (x :: l).
Proof.
  induction l as [|y l IH]; simpl.
  - reflexivity.
  - destruct (ltb (key y) (key x)).
    + rewrite IH. apply perm_swap.
    + reflexivity.
Qed.

Lemma sort_stable_perm l : Permutation (sort_stable ltb key l) l.
Proof.
  induction l as [|x l IH]; simpl.
  - reflexivity.
  - rewrite insert_perm. now constructor.
Qed.

Lemma sorted_perm reverse l : Permutation (sorted ltb key reverse l) l.
Proof.
  unfold sorted. destruct reverse.
  - rewrite <- Permutation_rev, sort_stable_perm. symmetry. apply Permutation_rev.
  - apply sort_stable_perm.
Qed.

(** Stability: a selection of keys among which none is smaller than
    another comes out in the order it went in. *)
Section Stable.
Variable sel : K -> bool.
Hypothesis sel_tied :
  forall a b, sel a = true -> sel b = true -> ltb a b = false.

Lemma insert_filter x l :
  filter (fun y => sel (key y)) (insert ltb key x l)
  = filter (fun y => sel (key y)) (x :: l).
Proof.
  induction l as [|y l IH]; simpl.
  - reflexivity.
  - destruct (ltb (key y) (key x)) eqn:E; simpl.
    + rewrite IH. simpl.
      destruct (sel (key y)) eqn:Ey, (sel (key x)) eqn:Ex; try reflexivity.
      rewrite (sel_tied Ey Ex) in E. discriminate.
    + reflexivity.
Qed.

Lemma sort_stable_filter l :
  filter (fun y => sel (key y)) (sort_stable ltb key l)
  = filter (fun y => sel (key y)) l.
Proof.
  induction l as [|x l IH]; simpl.
  - reflexivity.
  - rewrite insert_filter. simpl. now rewrite IH.
Qed.

Lemma sorted_filter reverse l :
  filter (fun y => sel (key y)) (sorted ltb key reverse l)
  = filter (fun y => sel (key y)) l.
Proof.
  unfold sorted. destruct reverse.
  - rewrite filter_rev, sort_stable_filter, filter_rev. apply rev_involutive.
  - apply sort_stable_filter.
Qed.

End Stable.

(** Order: no element is followed by one with a smaller key. *)
Section Ordered.
Hypothesis ltb_asym : forall a b, ltb a b = true -> ltb b a = false.
Hypothesis geb_trans :
  forall a b c, ltb b a = false -> ltb c b = false -> ltb c a = false.

Lemma insert_sorted x l :
  StronglySorted (ascending ltb key) l -> StronglySorted (ascending ltb key) (insert ltb key x l).
Proof.
  induction 1 as [|y l Hl IH Hy]; simpl.
  - repeat constructor.
  - destruct (ltb (key y) (key x)) eqn:E.
    + constructor; [assumption|].
      apply Forall_forall. intros z Hz.
      apply (Permutation_in _ (insert_perm x l)) in Hz.
      destruct Hz as [<- | Hz].
      * now apply ltb_asym.
      * rewrite Forall_forall in Hy. auto.
    + constructor; [now constructor|].
      constructor; [exact E|].
      rewrite Forall_forall in *. intros z Hz.
      unfold ascending in *. eauto.
Qed.

Lemma sort_stable_sorted l : StronglySorted (ascending ltb key) (sort_stable ltb key l).
Proof.
  induction l as [|x l IH]; simpl.
  - constructor.
  - now apply insert_sorted.
Qed.

End Ordered.
End Sort.

Lemma StronglySorted_app {A} (R : A -> A -> Prop) l1 l2 :
  StronglySorted R l1 -> StronglySorted R l2 ->
  (forall x y, In x l1 -> In y l2 -> R x y) ->
  StronglySorted R (l1 ++ l2).
Proof.
  induction 1 as [|x l1 Hl IH Hx]; simpl; intros H2 H12.
  - assumption.
  - constructor.
    + apply IH; auto.
    + apply Forall_app. split; [assumption|].
      apply Forall_forall. auto.
Qed.

Lemma StronglySorted_rev {A} (R : A -> A -> Prop) l :
  StronglySorted R l -> StronglySorted (fun x y => R y x) (rev l).
Proof.
  induction 1 as [|x l Hl IH Hx]; simpl.
  - constructor.
  - apply StronglySorted_app; [assumption|repeat constructor|].
    intros y z Hy [<- | []]. apply in_rev in Hy.
    rewrite Forall_forall in Hx. auto.
Qed.

Lemma Qltb_lt a b : Qltb a b = true <-> (a < b)%Q.
Proof.
  unfold Qltb. rewrite negb_true_iff, <- not_true_iff_false, Qle_bool_iff.
  split; [apply Qnot_le_lt | apply Qlt_not_le].
Qed.

Lemma Qltb_ge a b : Qltb a b = false <-> (b <= a)%Q.
Proof.
  unfold Qltb. rewrite negb_false_iff. apply Qle_bool_iff.
Qed.

Lemma StronglySorted_impl {A} (R R' : A -> A -> Prop) l :
  (forall x y, R x y -> R' x y) -> StronglySorted R l -> StronglySorted R' l.
Proof.
  intros HR. induction 1 as [|x l Hl IH Hx]; constructor; auto.
  rewrite Forall_forall in *. auto.
Qed.

Lemma filter_split {A} (p : A -> bool) l a x b :
  filter p l = a ++ x :: b ->
  exists l1 l2, l = l1 ++ x :: l2 /\ filter p l1 = a /\ filter p l2 = b.
Proof.
  revert a. induction l as [|y l IH]; simpl; intros a H.
  - destruct a; discriminate.
  - destruct (p y) eqn:E.
    + destruct a as [|z a]; simpl in H; injection H as Hy H.
      * subst y. exists [], l. auto.
      * subst z. destruct (IH _ H) as (l1 & l2 & -> & H1 & H2).
        exists (y :: l1), l2. simpl. rewrite E, H1. auto.
    + destruct (IH _ H) as (l1 & l2 & -> & H1 & H2).
      exists (y :: l1), l2. simpl. rewrite E. auto.
Qed.

(** Sorting by a rational key, largest first. *)
Section ByScore.
Variable A : Type.
Variable score : A -> Q.

Lemma sorted_desc_perm l : Permutation (sorted Qltb score true l) l.
Proof. apply sorted_perm. Qed.

Lemma sorted_desc_order l :
  StronglySorted (fun x y => (score y <= score x)%Q) (sorted Qltb score true l).
Proof.
  unfold sorted.
  apply StronglySorted_impl
    with (R := fun x y => ascending Qltb score y x).
  - intros x y H. now apply Qltb_ge in H.
  - apply StronglySorted_rev. apply sort_stable_sorted.
    + intros a b H. apply Qltb_lt in H. apply Qltb_ge. now apply Qlt_le_weak.
    + intros a b c H1 H2. apply Qltb_ge in H1, H2. apply Qltb_ge.
      eapply Qle_trans; eassumption.
Qed.

Lemma sorted_desc_stable v l :
  filter (fun x => Qeq_bool (score x) v) (sorted Qltb score true l)
  = filter (fun x => Qeq_bool (score x) v) l.
Proof.
  apply sorted_filter with (sel := fun k => Qeq_bool k v).
  intros a b Ha Hb. apply Qeq_bool_iff in Ha, Hb. apply Qltb_ge.
  rewrite Ha, Hb. apply Qle_refl.
Qed.

Lemma sorted_desc_keeps_order l l1 x l2 y l3 :
  l = l1 ++ x :: l2 ++ y :: l3 -> (score x == score y)%Q ->
  exists r1 r2 r3, sorted Qltb score true l = r1 ++ x :: r2 ++ y :: r3.
Proof.
  intros Hl Heq.
  pose proof (sorted_desc_stable (score x) l) as H.
  set (p := fun z => Qeq_bool (score z) (score x)) in *.
  assert (Hx : p x = true) by (apply Qeq_bool_iff; reflexivity).
  assert (Hy : p y = true) by (apply Qeq_bool_iff; now symmetry).
  rewrite Hl in H at 2.
  rewrite filter_app in H. simpl in H. rewrite Hx, filter_app in H.
  simpl in H. rewrite Hy in H.
  apply filter_split in H. destruct H as (r1 & r' & Hr & _ & H).
  apply filter_split in H. destruct H as (r2 & r3 & -> & _ & _).
  now exists r1, r2, r3.
Qed.

End ByScore.

End SortFacts.

(* ------------------------------------------------------------------ *)
(** * Properties of the ranker *)

Module RankerFacts.

Import Ranker SortFacts.

Section WithUnicode.
Context {U : UnicodeData}.

(** C9.  [rank_points] orders the scored points by score, largest first,
    without losing or inventing any, and the sort is stable: the points of
    any one score come out in the order they went in, so of two points with
    equal score the one that was first in the input is first in the
    ranking. *)
Theorem rank_points_stable content :
  let scored := scored_points content in
  let ranked := rank_points content in
  Permutation ranked scored
  /\ StronglySorted (fun x y => (snd y <= snd x)%Q) ranked
  /\ (forall v,
        filter (fun x => Qeq_bool (snd x) v) ranked
        = filter (fun x => Qeq_bool (snd x) v) scored)
  /\ (forall l1 x l2 y l3,
        scored = l1 ++ x :: l2 ++ y :: l3 -> (snd x == snd y)%Q ->
        exists r1 r2 r3, ranked = r1 ++ x :: r2 ++ y :: r3).
Proof.
  intros scored ranked. unfold ranked, rank_points. fold scored.
  split; [apply sorted_desc_perm|].
  split; [apply sorted_desc_order|].
  split; [intros v; apply sorted_desc_stable|].
  intros l1 x l2 y l3. apply sorted_desc_keeps_order.
Qed.

End WithUnicode.

Lemma rank_points_stable_witness :
  exists r1 r2 r3,
    rank_points (U := ascii_only) Inputs.three_points
    = r1 ++ (py "- a 5%", 15%Q) :: r2 ++ (py "- c 5%", 15%Q) :: r3.
Proof.
  refine (proj2 (proj2 (proj2 (@rank_points_stable ascii_only Inputs.three_points)))
            [] (py "- a 5%", 15%Q) [(py "- b", 0%Q)] (py "- c 5%", 15%Q) [] _ _).
  - vm_compute. reflexivity.
  - reflexivity.
Defined.

End RankerFacts.

(* ------------------------------------------------------------------ *)
(** * Properties of the string operations *)

Module TextFacts.

Import Claims.

Lemma lstrip_nil_iff p s : lstrip p s = [] <-> forallb p s = true.
Proof.
  induction s as [|c s IH]; simpl.
  - tauto.
  - destruct (p c); simpl; [assumption|]. split; discriminate.
Qed.

Lemma lstrip_head p s c t : lstrip p s = c :: t -> p c = false.
Proof.
  induction s as [|d s IH]; simpl; [discriminate|].
  destruct (p d) eqn:E; [assumption|]. now intros [= <- _].
Qed.

Lemma lstrip_split p s :
  exists junk, s = junk ++ lstrip p s /\ forallb p junk = true.
Proof.
  induction s as [|c s (junk & Hs & Hj)]; simpl.
  - now exists [].
  - destruct (p c) eqn:E.
    + exists (c :: junk). simpl. rewrite E, Hj. split; [now rewrite <- Hs|reflexivity].
    + now exists [].
Qed.

Lemma forallb_rev {A} (p : A -> bool) l : forallb p (rev l) = forallb p l.
Proof.
  induction l as [|x l IH]; simpl; [reflexivity|].
  rewrite forallb_app, IH. simpl. rewrite andb_true_r. apply andb_comm.
Qed.

(** [rstrip] removes a run of stripped characters from the end, and what
    it leaves does not end with one. *)
Lemma rstrip_split p s :
  exists junk,
    s = rstrip p s ++ junk /\ forallb p junk = true
    /\ (forall body c, rstrip p s = body ++ [c] -> p c = false).
Proof.
  unfold rstrip. destruct (lstrip_split p (rev s)) as (junk & Hs & Hj).
  exists (rev junk). split; [|split].
  - rewrite <- rev_app_distr, <- Hs. symmetry. apply rev_involutive.
  - now rewrite forallb_rev.
  - intros body c H. apply (f_equal (@rev _)) in H.
    rewrite rev_involutive, rev_app_distr in H. simpl in H.
    eapply lstrip_head. eassumption.
Qed.

Lemma forallb_eqb_repeat c junk :
  forallb (N.eqb c) junk = true -> junk = repeat c (length junk).
Proof.
  induction junk as [|d junk IH]; simpl; [reflexivity|].
  intros H. apply andb_true_iff in H. destruct H as [H1 H2].
  apply N.eqb_eq in H1. subst d. now rewrite <- IH.
Qed.

(** A text is blank when [strip] leaves nothing of it. *)
Lemma strip_blank s : strip s = [] <-> forallb is_space s = true.
Proof.
  unfold strip, rstrip. split.
  - intros H. apply (f_equal (@rev _)) in H. rewrite rev_involutive in H.
    simpl in H. apply lstrip_nil_iff in H. rewrite forallb_rev in H.
    destruct (lstrip is_space s) as [|c t] eqn:E.
    + now apply lstrip_nil_iff.
    + apply lstrip_head in E. simpl in H. rewrite E in H. discriminate.
  - intros H. apply lstrip_nil_iff in H. now rewrite H.
Qed.

Lemma starts_with_iff k s : starts_with k s = true <-> exists post, s = k ++ post.
Proof.
  revert s. induction k as [|a k IH]; intros s; simpl.
  - split; eauto.
  - destruct s as [|b s].
    + split; [discriminate|]. intros [post H]. discriminate.
    + rewrite andb_true_iff, N.eqb_eq, IH. split.
      * intros [-> [post ->]]. eauto.
      * intros [post [= -> ->]]. eauto.
Qed.

(** [k in s] is true exactly when [k] occurs in [s]. *)
Lemma contains_iff k s : contains k s = true <-> occurs_in k s.
Proof.
  unfold occurs_in. induction s as [|c s IH]; simpl.
  - rewrite orb_false_r, starts_with_iff. split.
    + intros [post H]. now exists [], post.
    + intros (pre & post & H). destruct pre; [now exists post|discriminate].
  - rewrite orb_true_iff, starts_with_iff, IH. split.
    + intros [[post H] | (pre & post & H)].
      * now exists [], post.
      * exists (c :: pre), post. simpl. now rewrite H.
    + intros (pre & post & H). destruct pre as [|d pre]; simpl in H.
      * left. now exists post.
      * right. injection H as _ H. now exists pre, post.
Qed.

End TextFacts.

(* ------------------------------------------------------------------ *)
(** * Properties of the matcher *)

Module ReFacts.

Import Direct.

Lemma skipn_span_lstrip p s : skipn (span_len p s) s = lstrip p s.
Proof.
  induction s as [|c s IH]; simpl; [reflexivity|].
  destruct (p c); simpl; auto.
Qed.

Lemma consumed_skipn n s l g :
  (n <= length s)%nat -> consumed s (mk_pos l (skipn n s) g) = n.
Proof. intros H. unfold consumed. simpl. rewrite length_skipn. lia. Qed.

Lemma span_len_le p s : (span_len p s <= length s)%nat.
Proof.
  induction s as [|c s IH]; simpl; [lia|]. destruct (p c); simpl; lia.
Qed.

Lemma span_len_next p s : next_is p (skipn (span_len p s) s) = false.
Proof.
  induction s as [|c s IH]; simpl; [reflexivity|].
  destruct (p c) eqn:E; simpl; [assumption|exact E].
Qed.

Lemma span_len_pos p s : (0 <? span_len p s)%nat = next_is p s.
Proof. destruct s as [|c s]; simpl; [reflexivity|]. now destruct (p c). Qed.

(** A greedy repetition at the end of a pattern takes the whole run. *)
Lemma rep_greedy_last p lo l s g :
  rep true p lo None l s g Some
  = if (lo <=? span_len p s)%nat
    then Some (mk_pos (rev (firstn (span_len p s) s) ++ l)
                 (skipn (span_len p s) s) g)
    else None.
Proof.
  revert lo l. induction s as [|c s IH]; intros lo l; simpl.
  - destruct lo; reflexivity.
  - destruct (p c) eqn:E; simpl.
    + rewrite IH. destruct lo as [|lo]; simpl.
      * now rewrite <- app_assoc.
      * destruct (lo <=? span_len p s)%nat; simpl; [|reflexivity].
        now rewrite <- app_assoc.
    + destruct lo; reflexivity.
Qed.

(** A greedy repetition followed by something that cannot start with a
    character of the class takes the whole run as well: giving back part of
    the run leaves such a character in front of the rest of the pattern. *)
Lemma rep_greedy_then p lo l s g k :
  (forall l' c r', p c = true -> k (mk_pos l' (c :: r') g) = None) ->
  rep true p lo None l s g k
  = if (lo <=? span_len p s)%nat
    then k (mk_pos (rev (firstn (span_len p s) s) ++ l)
              (skipn (span_len p s) s) g)
    else None.
Proof.
  intros Hk. revert lo l. induction s as [|c s IH]; intros lo l; simpl.
  - destruct lo; reflexivity.
  - destruct (p c) eqn:E; simpl.
    + rewrite IH. rewrite <- app_assoc. simpl.
      destruct lo as [|lo]; simpl.
      * rewrite (Hk l c s E).
        now destruct (k (mk_pos (rev (firstn (span_len p s) s) ++ c :: l)
                           (skipn (span_len p s) s) g)).
      * destruct (lo <=? span_len p s)%nat; simpl; [|reflexivity].
        now destruct (k (mk_pos (rev (firstn (span_len p s) s) ++ c :: l)
                           (skipn (span_len p s) s) g)).
    + destruct lo; reflexivity.
Qed.

Section WithUnicode.
Context {U : UnicodeData}.

(** A sequence of single-character classes matches where the text begins
    with one character of each. *)
Lemma run_classes ps l s g k :
  run (seq (map Cls ps)) (mk_pos l s g) k
  = if classes_at ps s
    then k (mk_pos (rev (firstn (length ps) s) ++ l) (skipn (length ps) s) g)
    else None.
Proof.
  revert l s. induction ps as [|p ps IH]; intros l s; simpl.
  - reflexivity.
  - destruct s as [|c s]; simpl; [reflexivity|].
    destruct (p c); simpl; [|reflexivity].
    rewrite IH. now rewrite <- app_assoc.
Qed.

(** ** Scanning with a pattern whose matches are known *)

Section Scan.
Variables (r : regex) (m : str -> option nat).

Hypothesis run_m :
  forall l s, option_map (consumed s) (run r (mk_pos l s None) Some) = m s.
Hypothesis m_bounds : forall s n, m s = Some n -> (1 <= n <= length s)%nat.

Lemma m_nil : m [] = None.
Proof.
  destruct (m []) as [n|] eqn:E; [|reflexivity].
  apply m_bounds in E. simpl in E. lia.
Qed.

Lemma scan_skip l s k :
  scan r l s k = scan r (rev (firstn k s) ++ l) (skipn k s) 0.
Proof.
  revert l s. induction k as [|k IH]; intros l s.
  - reflexivity.
  - destruct s as [|c s]; simpl.
    + pose proof (run_m l []) as H. rewrite m_nil in H.
      destruct (run r (mk_pos l [] None) Some); [discriminate|reflexivity].
    + rewrite IH. now rewrite <- app_assoc.
Qed.

Lemma scan_hit l s n :
  m s = Some n ->
  scan r l s 0 = Hit (firstn n s) :: scan r (rev (firstn n s) ++ l) (skipn n s) 0.
Proof.
  intros Hm. pose proof (m_bounds Hm) as Hn.
  pose proof (run_m l s) as H. rewrite Hm in H.
  destruct s as [|c s]; [simpl in Hn; lia|].
  unfold scan at 1; fold scan.
  destruct (run r (mk_pos l (c :: s) None) Some) as [st'|]; [|discriminate].
  simpl in H. injection H as H. unfold consumed in H. rewrite H.
  destruct n as [|n]; [lia|]. cbn [pred app].
  f_equal. rewrite scan_skip. simpl. now rewrite <- app_assoc.
Qed.

Lemma scan_miss l c s :
  m (c :: s) = None -> scan r l (c :: s) 0 = Lit c :: scan r (c :: l) s 0.
Proof.
  intros Hm. pose proof (run_m l (c :: s)) as H. rewrite Hm in H.
  unfold scan at 1; fold scan.
  destruct (run r (mk_pos l (c :: s) None) Some); [discriminate|reflexivity].
Qed.

Lemma scan_nil l : scan r l [] 0 = [].
Proof.
  pose proof (run_m l []) as H. rewrite m_nil in H. simpl.
  destruct (run r (mk_pos l [] None) Some); [discriminate|reflexivity].
Qed.

(** The matches are as many as the positions that [occ] marks, when each
    match holds exactly one marked position and no marked position is
    passed over. *)
Section Count.
Variable occ : str -> bool.
Hypothesis occ_hit :
  forall s n, m s = Some n -> count_at occ s = S (count_at occ (skipn n s)).
Hypothesis occ_miss : forall c s, m (c :: s) = None -> occ (c :: s) = false.

Lemma scan_count n :
  forall l s, (length s <= n)%nat ->
    length (flat_map (fun t => match t with Hit h => [h] | Lit _ => [] end)
              (scan r l s 0))
    = count_at occ s.
Proof.
  induction n as [|n IH]; intros l s Hlen.
  - destruct s; [|simpl in Hlen; lia]. now rewrite scan_nil.
  - destruct s as [|c s]; [now rewrite scan_nil|].
    destruct (m (c :: s)) as [k|] eqn:Hm.
    + rewrite (scan_hit l Hm). cbn [flat_map app length].
      rewrite (occ_hit Hm). f_equal. apply IH.
      pose proof (m_bounds Hm). rewrite length_skipn. cbn [length] in *. lia.
    + rewrite (scan_miss l Hm). cbn [flat_map app count_at].
      rewrite (occ_miss Hm). apply IH. simpl in Hlen. lia.
Qed.

Lemma findall_count s : length (findall r s) = count_at occ s.
Proof. unfold findall, tokens. now apply scan_count with (n := length s). Qed.

End Count.

(** [re.search] finds a match exactly when some position has one. *)
Lemma search_from_any l s :
  is_some (search_from r l s) = any_at (fun t => is_some (m t)) s.
Proof.
  revert l. induction s as [|c s IH]; intros l; simpl.
  - pose proof (run_m l []) as H.
    destruct (run r (mk_pos l [] None) Some), (m []); simpl in *;
      try discriminate; reflexivity.
  - pose proof (run_m l (c :: s)) as H.
    destruct (run r (mk_pos l (c :: s) None) Some), (m (c :: s)); simpl in *;
      try discriminate; auto.
Qed.

Lemma search_any s : search r s = any_at (fun t => is_some (m t)) s.
Proof. unfold search. rewrite <- (search_from_any [] s). reflexivity. Qed.

End Scan.

Lemma any_at_ext (f g : str -> bool) s :
  (forall t, f t = g t) -> any_at f s = any_at g s.
Proof.
  intros H. induction s as [|c s IH]; simpl; rewrite H; [reflexivity|].
  now rewrite IH.
Qed.

Lemma any_at_iff occ s :
  any_at occ s = true <-> exists pre t, s = pre ++ t /\ occ t = true.
Proof.
  induction s as [|c s IH]; simpl.
  - rewrite orb_false_r. split.
    + intros H. now exists [], [].
    + intros (pre & t & Hs & Ht). symmetry in Hs.
      apply app_eq_nil in Hs. destruct Hs as [_ ->]. exact Ht.
  - rewrite orb_true_iff, IH. split.
    + intros [H | (pre & t & -> & Ht)].
      * now exists [], (c :: s).
      * now exists (c :: pre), t.
    + intros (pre & t & Hs & Ht). destruct pre as [|d pre]; simpl in Hs.
      * left. now rewrite Hs.
      * right. injection Hs as _ ->. now exists pre, t.
Qed.

End WithUnicode.

End ReFacts.

(* ------------------------------------------------------------------ *)
(** * Properties of the value score *)

Module ScoreFacts.

Import Direct ReFacts Ranker.

#[local] Arguments N.eqb : simpl never.
#[local] Arguments ch : simpl never.

Section WithUnicode.
Context {U : UnicodeData}.

Lemma decimal_not (a : ascii) c :
  is_decimal (ch a) = false -> is_decimal c = true -> (ch a =? c)%N = false.
Proof.
  intros Ha Hc. destruct (N.eqb_spec (ch a) c) as [E|]; [|reflexivity].
  rewrite E in Ha. congruence.
Qed.

(** ** [\d+] *)

Lemma number_run l s :
  option_map (consumed s) (run re_number (mk_pos l s None) Some) = number_len s.
Proof.
  unfold re_number, plus, number_len. simpl. rewrite rep_greedy_last.
  pose proof (span_len_le is_decimal s).
  destruct (span_len is_decimal s) as [|n]; [reflexivity|].
  cbn [Nat.leb option_map]. now rewrite consumed_skipn.
Qed.

Lemma number_bounds s n : number_len s = Some n -> (1 <= n <= length s)%nat.
Proof.
  unfold number_len. pose proof (span_len_le is_decimal s).
  destruct (span_len is_decimal s); [discriminate|]. intros [= <-]. lia.
Qed.

Lemma number_hit s n :
  number_len s = Some n ->
  count_at digit_run_end s = S (count_at digit_run_end (skipn n s)).
Proof.
  unfold number_len. revert n. induction s as [|c s IH]; intros n; simpl.
  - discriminate.
  - destruct (is_decimal c) eqn:Ec; [|discriminate]. intros [= <-].
    rewrite <- span_len_pos. cbn [skipn].
    destruct (span_len is_decimal s) as [|k] eqn:Ek.
    + reflexivity.
    + cbn [Nat.ltb Nat.leb negb Nat.add]. now apply IH.
Qed.

Lemma number_miss c s : number_len (c :: s) = None -> digit_run_end (c :: s) = false.
Proof.
  unfold number_len. simpl. destruct (is_decimal c); [discriminate|reflexivity].
Qed.

Lemma findall_number s : length (findall re_number s) = digit_runs s.
Proof.
  apply findall_count with (m := number_len);
    auto using number_run, number_bounds, number_hit, number_miss.
Qed.

(** ** [\d+%|\+\d+pp|-\d+pp] *)

Lemma consumed_after s n c r' l g :
  skipn n s = c :: r' -> consumed s (mk_pos l r' g) = S n.
Proof.
  intros H. unfold consumed. simpl.
  pose proof (length_skipn n s) as L. rewrite H in L. simpl in L. lia.
Qed.

Lemma starts_with_pp s :
  starts_with (py "pp") s
  = match s with
    | c :: d :: _ => (ch "p" =? c)%N && (ch "p" =? d)%N
    | _ => false
    end.
Proof.
  destruct s as [|c [|d s]]; simpl; try reflexivity.
  - now rewrite andb_false_r.
  - now rewrite andb_true_r.
Qed.

(** The first alternative: a digit run and the percent sign. *)
Lemma percent_alt_run l s :
  option_map (consumed s)
    (run (seq [plus is_decimal; lit "%"]) (mk_pos l s None) Some)
  = if (0 <? span_len is_decimal s)%nat
       && next_is (N.eqb (ch "%")) (skipn (span_len is_decimal s) s)
    then Some (S (span_len is_decimal s)) else None.
Proof.
  simpl. rewrite rep_greedy_then.
  - destruct (span_len is_decimal s) as [|n] eqn:E; [reflexivity|].
    cbn [Nat.leb Nat.ltb andb]. rewrite <- E.
    destruct (skipn (span_len is_decimal s) s) as [|c r'] eqn:Es; simpl;
      [reflexivity|].
    destruct (ch "%" =? c)%N; simpl; [|reflexivity].
    f_equal. eapply consumed_after. eassumption.
  - intros l' c r' Hc. simpl. now rewrite decimal_not.
Qed.

(** The other alternatives: a sign, a digit run and [pp]. *)
Lemma points_alt_run (a : ascii) l s :
  option_map (consumed s)
    (run (seq [lit a; plus is_decimal; lit "p"; lit "p"]) (mk_pos l s None) Some)
  = match s with
    | c :: s' =>
        if (ch a =? c)%N && (0 <? span_len is_decimal s')%nat
           && starts_with (py "pp") (skipn (span_len is_decimal s') s')
        then Some (span_len is_decimal s' + 3)%nat else None
    | [] => None
    end.
Proof.
  destruct s as [|c s]; [reflexivity|].
  cbn [run seq fold_right plus lit after before group].
  destruct (ch a =? c)%N; [|reflexivity]. cbn [andb].
  rewrite rep_greedy_then.
  - destruct (span_len is_decimal s) as [|n] eqn:E; [reflexivity|].
    cbn [Nat.leb Nat.ltb andb]. rewrite <- E. rewrite starts_with_pp.
    pose proof (length_skipn (span_len is_decimal s) s) as L.
    cbn [after before group].
    destruct (skipn (span_len is_decimal s) s) as [|x [|y r']] eqn:Es.
    + reflexivity.
    + now destruct (ch "p" =? x)%N.
    + destruct (ch "p" =? x)%N; [|reflexivity].
      destruct (ch "p" =? y)%N; [|reflexivity].
      cbn [andb option_map]. f_equal. unfold consumed.
      cbn [after length] in *. lia.
  - intros l' x r' Hx. cbn [after before group]. now rewrite decimal_not.
Qed.

Lemma option_map_or_else {A B} (f : A -> B) (a b : option A) :
  option_map f (or_else a (fun _ => b))
  = or_else (option_map f a) (fun _ => option_map f b).
Proof. now destruct a. Qed.

Lemma percent_run l s :
  option_map (consumed s) (run re_percent (mk_pos l s None) Some) = percent_len s.
Proof.
  change (option_map (consumed s)
            (or_else (run (seq [plus is_decimal; lit "%"]) (mk_pos l s None) Some)
               (fun _ =>
                  or_else
                    (run (seq [lit "+"; plus is_decimal; lit "p"; lit "p"])
                       (mk_pos l s None) Some)
                    (fun _ =>
                       run (seq [lit "-"; plus is_decimal; lit "p"; lit "p"])
                         (mk_pos l s None) Some)))
          = percent_len s).
  rewrite !option_map_or_else, percent_alt_run, !points_alt_run.
  unfold percent_len.
  destruct ((0 <? span_len is_decimal s)%nat
            && next_is (N.eqb (ch "%")) (skipn (span_len is_decimal s) s));
    [reflexivity|].
  destruct s as [|c s]; [reflexivity|].
  rewrite (N.eqb_sym (ch "+") c), (N.eqb_sym (ch "-") c).
  destruct (c =? ch "+")%N, (c =? ch "-")%N; cbn [andb orb or_else];
    destruct (0 <? span_len is_decimal s)%nat;
    destruct (starts_with (py "pp") (skipn (span_len is_decimal s) s));
    reflexivity.
Qed.

Lemma percent_bounds s n : percent_len s = Some n -> (1 <= n <= length s)%nat.
Proof.
  unfold percent_len.
  destruct ((0 <? span_len is_decimal s)%nat
            && next_is (N.eqb (ch "%")) (skipn (span_len is_decimal s) s)) eqn:E1.
  - intros [= <-]. apply andb_true_iff in E1. destruct E1 as [_ E1].
    pose proof (length_skipn (span_len is_decimal s) s) as L.
    destruct (skipn (span_len is_decimal s) s); [discriminate|].
    simpl in L. lia.
  - destruct s as [|c s]; [discriminate|].
    destruct (((c =? ch "+")%N || (c =? ch "-")%N)
              && (0 <? span_len is_decimal s)%nat
              && starts_with (py "pp") (skipn (span_len is_decimal s) s)) eqn:E2;
      [|discriminate].
    intros [= <-]. apply andb_true_iff in E2. destruct E2 as [_ E2].
    rewrite starts_with_pp in E2.
    pose proof (length_skipn (span_len is_decimal s) s) as L.
    destruct (skipn (span_len is_decimal s) s) as [|x [|y r']]; try discriminate.
    simpl in *. lia.
Qed.

Lemma sign_not_decimal c :
  is_decimal c = true -> ((c =? ch "+")%N || (c =? ch "-")%N) = false.
Proof.
  intros Hc.
  destruct (N.eqb_spec c (ch "+")) as [->|]; [discriminate Hc|].
  destruct (N.eqb_spec c (ch "-")) as [->|]; [discriminate Hc|]. reflexivity.
Qed.

Lemma marked_digit c s :
  is_decimal c = true -> marked (c :: s) = next_is (N.eqb (ch "%")) s.
Proof.
  intros Hc. unfold marked, percent_at, points_at.
  rewrite Hc, (@sign_not_decimal c Hc). cbn [andb]. apply orb_false_r.
Qed.

Lemma marked_other c s :
  is_decimal c = false -> ((c =? ch "+")%N || (c =? ch "-")%N) = false ->
  marked (c :: s) = false.
Proof.
  intros Hc Hs. unfold marked, percent_at, points_at. now rewrite Hc, Hs.
Qed.

Lemma next_percent_not_decimal s :
  next_is (N.eqb (ch "%")) s = true -> next_is is_decimal s = false.
Proof.
  destruct s as [|c s]; simpl; [discriminate|].
  intros H. apply N.eqb_eq in H. now subst c.
Qed.

(** A digit run that ends in a percent sign holds one marked position, its
    last digit. *)
Lemma percent_hit s :
  next_is is_decimal s = true ->
  next_is (N.eqb (ch "%")) (skipn (span_len is_decimal s) s) = true ->
  count_at marked s = S (count_at marked (skipn (S (span_len is_decimal s)) s)).
Proof.
  induction s as [|c s IH]; [discriminate|].
  cbn [next_is span_len]. intros Hc. rewrite Hc. cbn [skipn count_at].
  rewrite (@marked_digit c s Hc). intros Hn.
  destruct (next_is is_decimal s) eqn:Ed.
  - rewrite (IH eq_refl Hn).
    destruct s as [|d s]; [discriminate|]. cbn [next_is] in *.
    now rewrite (@decimal_not "%" d eq_refl Ed).
  - rewrite <- span_len_pos in Ed.
    destruct (span_len is_decimal s); [|discriminate]. cbn [skipn] in *.
    rewrite Hn. destruct s as [|d s]; [discriminate|].
    cbn [next_is] in Hn. apply N.eqb_eq in Hn. subst d.
    cbn [count_at]. now rewrite marked_other.
Qed.

(** A digit run that ends in [pp] holds no marked position, nor does the
    [pp]. *)
Lemma points_tail s :
  starts_with (py "pp") (skipn (span_len is_decimal s) s) = true ->
  count_at marked s = count_at marked (skipn (span_len is_decimal s + 2) s).
Proof.
  induction s as [|c s IH]; [discriminate|].
  cbn [span_len]. destruct (is_decimal c) eqn:Hc.
  - cbn [skipn Nat.add count_at]. intros H. rewrite (@marked_digit c s Hc).
    rewrite <- (IH H).
    replace (next_is (N.eqb (ch "%")) s) with false; [reflexivity|].
    symmetry. rewrite starts_with_pp in H.
    destruct (span_len is_decimal s) eqn:En.
    + cbn [skipn] in H. destruct s as [|x [|y s]]; try discriminate.
      apply andb_true_iff in H. destruct H as [H _].
      apply N.eqb_eq in H. now subst x.
    + destruct s as [|x s]; [discriminate|]. cbn [span_len] in En.
      destruct (is_decimal x) eqn:Hx; [|discriminate].
      exact (@decimal_not "%" x eq_refl Hx).
  - cbn [skipn Nat.add]. rewrite starts_with_pp.
    destruct s as [|y s]; [discriminate|]. intros H.
    apply andb_true_iff in H. destruct H as [H1 H2].
    apply N.eqb_eq in H1, H2. subst c y.
    cbn [count_at]. now rewrite !marked_other.
Qed.

Lemma percent_len_hit s n :
  percent_len s = Some n ->
  count_at marked s = S (count_at marked (skipn n s)).
Proof.
  unfold percent_len. rewrite span_len_pos.
  destruct (next_is is_decimal s
            && next_is (N.eqb (ch "%")) (skipn (span_len is_decimal s) s)) eqn:E1.
  - intros [= <-]. apply andb_true_iff in E1. destruct E1.
    now apply percent_hit.
  - destruct s as [|c s]; [discriminate|]. rewrite span_len_pos.
    destruct (((c =? ch "+")%N || (c =? ch "-")%N)
              && next_is is_decimal s
              && starts_with (py "pp") (skipn (span_len is_decimal s) s)) eqn:E2;
      [|discriminate].
    intros [= <-]. cbn [count_at].
    replace (marked (c :: s)) with true.
    + replace (span_len is_decimal s + 3)%nat
        with (S (span_len is_decimal s + 2)) by lia.
      cbn [skipn]. apply andb_true_iff in E2. destruct E2 as [_ E2].
      now rewrite <- points_tail.
    + unfold marked, points_at. rewrite <- skipn_span_lstrip, E2.
      symmetry. apply orb_true_r.
Qed.

Lemma percent_len_miss c s : percent_len (c :: s) = None -> marked (c :: s) = false.
Proof.
  unfold percent_len. rewrite !span_len_pos. cbn [next_is span_len].
  destruct (is_decimal c) eqn:Hc.
  - cbn [andb skipn]. rewrite (@marked_digit c s Hc).
    destruct (next_is (N.eqb (ch "%")) s) eqn:En; [|reflexivity].
    pose proof (span_len_pos is_decimal s) as P.
    rewrite (@next_percent_not_decimal s En) in P.
    destruct (span_len is_decimal s); [|discriminate P].
    cbn [skipn]. rewrite En. intros H. discriminate H.
  - cbn [andb]. unfold marked, percent_at, points_at.
    rewrite Hc. cbn [andb orb]. rewrite <- skipn_span_lstrip.
    destruct (((c =? ch "+")%N || (c =? ch "-")%N)
              && next_is is_decimal s
              && starts_with (py "pp") (skipn (span_len is_decimal s) s));
      [intros H; discriminate H|reflexivity].
Qed.

Lemma findall_percent s : length (findall re_percent s) = percent_patterns s.
Proof.
  apply findall_count with (m := percent_len);
    auto using percent_run, percent_bounds, percent_len_hit, percent_len_miss.
Qed.

(** ** [\$\d+] *)

Lemma currency_run l s :
  option_map (consumed s) (run re_currency (mk_pos l s None) Some) = currency_len s.
Proof.
  unfold re_currency, currency_len. destruct s as [|c s]; [reflexivity|].
  cbn [run seq fold_right plus lit after before group].
  rewrite (N.eqb_sym c (ch "$")).
  destruct (ch "$" =? c)%N; [|reflexivity]. cbn [andb].
  change (fun st' : pos => Some st') with (@Some pos).
  rewrite rep_greedy_last.
  pose proof (span_len_le is_decimal s).
  destruct (span_len is_decimal s) as [|n]; [reflexivity|].
  cbn [Nat.leb Nat.ltb option_map]. f_equal.
  unfold consumed. cbn [after length]. rewrite length_skipn. lia.
Qed.

Lemma currency_bounds s n : currency_len s = Some n -> (1 <= n <= length s)%nat.
Proof.
  unfold currency_len. destruct s as [|c s]; [discriminate|].
  pose proof (span_len_le is_decimal s).
  destruct ((c =? ch "$")%N && (0 <? span_len is_decimal s)%nat); [|discriminate].
  intros [= <-]. simpl. lia.
Qed.

Lemma search_currency s : search re_currency s = any_at currency_at s.
Proof.
  rewrite search_any with (m := currency_len);
    auto using currency_run, currency_bounds.
  apply any_at_ext. intros [|c t]; [reflexivity|].
  unfold currency_len, currency_at. rewrite span_len_pos.
  now destruct ((c =? ch "$")%N && next_is is_decimal t).
Qed.

(** ** The score *)

Lemma round1_int x z : (x == inject_Z z)%Q -> round1 x = inject_Z z.
Proof.
  intros Hx.
  assert (Ht : (x * 10 == inject_Z (z * 10))%Q).
  { rewrite Hx, inject_Z_mult. reflexivity. }
  assert (Hf : Qfloor (x * 10) = (z * 10)%Z).
  { rewrite Ht. apply Qfloor_Z. }
  assert (Hc : ((x * 10 - inject_Z (z * 10)) ?= 1 # 2)%Q = Lt).
  { apply Qlt_alt. rewrite Ht. unfold Qminus. rewrite Qplus_opp_r. reflexivity. }
  unfold round1. cbv zeta. rewrite Hf, Hc.
  transitivity (Qred (inject_Z z)).
  - apply Qred_complete. unfold Qeq, inject_Z. simpl. lia.
  - apply Qcanon.Qred_identity. simpl. apply Z.gcd_1_r.
Qed.

(** ** The keywords *)

Lemma contains_any_at k s : contains k s = any_at (starts_with k) s.
Proof. induction s as [|c s IH]; simpl; [reflexivity|]. now rewrite IH. Qed.

Lemma any_at_map (occ : str -> bool) (f : char -> char) s :
  any_at occ (map f s) = any_at (fun t => occ (map f t)) s.
Proof. induction s as [|c s IH]; simpl; [reflexivity|]. now rewrite IH. Qed.

(** Against a keyword in small letters, looking in the lower-cased text is
    comparing with the case ignored. *)
Lemma starts_with_lowered k :
  Forall (fun a => ScoreSpec.fold_case a = a) k ->
  forall t, starts_with k (map ascii_lower t) = ScoreSpec.ci_prefix k t.
Proof.
  induction 1 as [|a k Ha Hk IH]; intros t; [reflexivity|].
  destruct t as [|b t]; [reflexivity|].
  cbn [map starts_with ScoreSpec.ci_prefix]. rewrite IH.
  unfold ScoreSpec.same_letter. rewrite Ha. reflexivity.
Qed.

Lemma keyword_hit k s :
  Forall (fun a => ScoreSpec.fold_case a = a) k ->
  contains k (lower s) = ScoreSpec.ci_substring k s.
Proof.
  intros Hk. rewrite contains_any_at. unfold lower, ScoreSpec.ci_substring.
  destruct (forallb is_ascii s); [|reflexivity].
  rewrite any_at_map. apply any_at_ext. intros t.
  now apply starts_with_lowered.
Qed.

Lemma keywords_small :
  Forall (Forall (fun a => ScoreSpec.fold_case a = a)) ScoreSpec.keywords.
Proof. repeat constructor. Qed.

Lemma kpi_hits_keywords s : kpi_hits s = ScoreSpec.keywords_present s.
Proof.
  unfold kpi_hits, ScoreSpec.keywords_present. f_equal.
  change kpis with ScoreSpec.keywords.
  apply filter_ext_in. intros k Hk. apply keyword_hit.
  pose proof keywords_small as H. rewrite Forall_forall in H. now apply H.
Qed.

(** What "begins with, case ignored" says. *)
Lemma ci_prefix_iff k :
  forall t,
    ScoreSpec.ci_prefix k t = true
    <-> exists mid post,
          t = mid ++ post
          /\ map ScoreSpec.fold_case mid = map ScoreSpec.fold_case k.
Proof.
  induction k as [|a k IH]; intros t.
  - split; [|reflexivity]. intros _. now exists [], t.
  - destruct t as [|b t]; cbn [ScoreSpec.ci_prefix].
    + split; [discriminate|]. intros (mid & post & E & Hm).
      symmetry in E. apply app_eq_nil in E. destruct E as [-> _].
      discriminate Hm.
    + unfold ScoreSpec.same_letter.
      rewrite andb_true_iff, N.eqb_eq, IH. split.
      * intros (Hab & mid & post & -> & Hm). exists (b :: mid), post.
        split; [reflexivity|]. cbn [map]. now rewrite Hab, Hm.
      * intros (mid & post & E & Hm). destruct mid as [|x mid];
          [discriminate Hm|].
        cbn [map app] in *. injection E as -> ->. injection Hm as Hx Hm.
        split; [now symmetry|]. now exists mid, post.
Qed.

(** C3.  For every point text, [score_value] is the sum the specification
    describes: 5 for each maximal digit run, up to five of them; 10 for each
    percentage or basis-point pattern; 15 when a dollar sign stands right
    before a digit; 5 for each keyword of the list revenue, market share,
    retention, awareness, guidance, customers, growth, qoq, yoy that is a
    case-insensitive substring.  In an ASCII text that is: somewhere in the
    text stand characters that are those of the keyword, case ignored.  The
    sum is an integer, which rounding to one decimal leaves as it is.  The
    sentence about revenue scores higher than the one without signals. *)
Theorem score_value_as_specified s :
  score_value s = inject_Z (ScoreSpec.score s)
  /\ (forall k,
        forallb is_ascii s = true ->
        (ScoreSpec.ci_substring k s = true
         <-> exists pre mid post,
               s = pre ++ mid ++ post
               /\ map ScoreSpec.fold_case mid = map ScoreSpec.fold_case k))
  /\ (score_value (py "Things were fine this quarter")
      < score_value (py "Revenue grew 15% to $2.3M, up 8pp YoY"))%Q.
Proof.
  split; [|split].
  - unfold score_value. apply round1_int.
    rewrite findall_number, findall_percent, search_currency.
    fold (kpi_hits s). rewrite kpi_hits_keywords. unfold ScoreSpec.score.
    destruct (any_at currency_at s);
      rewrite !inject_Z_plus, !inject_Z_mult; simpl inject_Z; ring.
  - intros k Hs. unfold ScoreSpec.ci_substring. rewrite Hs, any_at_iff. split.
    + intros (pre & t & -> & Ht). apply ci_prefix_iff in Ht.
      destruct Ht as (mid & post & -> & Hm). now exists pre, mid, post.
    + intros (pre & mid & post & -> & Hm). exists pre, (mid ++ post).
      split; [reflexivity|]. apply ci_prefix_iff. now exists mid, post.
  - vm_compute. reflexivity.
Qed.

End WithUnicode.

End ScoreFacts.

(* ------------------------------------------------------------------ *)
(** * Properties of the summariser *)

Module SummariserFacts.

Import Direct TextFacts ReFacts Summariser.
Local Open Scope Z_scope.

#[local] Arguments N.eqb : simpl never.
#[local] Arguments ch : simpl never.

Section WithUnicode.
Context {U : UnicodeData}.

(** ** The page tag *)

Lemma tag_run l s :
  option_map (consumed s) (run re_tag (mk_pos l s None) Some)
  = if tag_at s then Some 4%nat else None.
Proof.
  unfold re_tag, tag_at.
  change (seq [lit "["; lit "p"; lit "."; Cls is_decimal])
    with (seq (map Cls [N.eqb (ch "["); N.eqb (ch "p"); N.eqb (ch "."); is_decimal])).
  rewrite run_classes.
  set (ps := [N.eqb (ch "["); N.eqb (ch "p"); N.eqb (ch "."); is_decimal]).
  destruct (classes_at ps s) eqn:E; [|reflexivity].
  cbn [option_map length]. f_equal. apply consumed_skipn.
  destruct s as [|a [|b [|c [|d s]]]]; cbn in E; try discriminate;
    rewrite ?andb_false_r in E; try discriminate.
  simpl. lia.
Qed.

Lemma tag_bounds s n :
  (if tag_at s then Some 4%nat else None) = Some n -> (1 <= n <= length s)%nat.
Proof.
  unfold tag_at. destruct s as [|a [|b [|c [|d s]]]]; cbn [classes_at];
    rewrite ?andb_false_r; try discriminate.
  destruct (_ && _); [|discriminate]. intros [= <-]. simpl. lia.
Qed.

Lemma search_tag s : search re_tag s = any_at tag_at s.
Proof.
  rewrite search_any with (m := fun t => if tag_at t then Some 4%nat else None);
    auto using tag_run, tag_bounds.
  apply any_at_ext. intros t. now destruct (tag_at t).
Qed.

Lemma tag_at_iff t :
  tag_at t = true
  <-> exists d post, t = py "[p." ++ d :: post /\ is_decimal d = true.
Proof.
  unfold tag_at. split.
  - destruct t as [|a [|b [|c [|d t]]]]; cbn [classes_at];
      rewrite ?andb_false_r; try discriminate.
    rewrite !andb_true_iff, !N.eqb_eq. intros (<- & <- & <- & Hd & _).
    now exists d, t.
  - intros (d & post & -> & Hd). cbn. rewrite Hd. reflexivity.
Qed.

(** A point counts as tagged when [[p.] stands somewhere in it with a
    decimal digit right after. *)
Lemma tagged_iff s :
  any_at tag_at s = true
  <-> exists pre d post, s = pre ++ py "[p." ++ d :: post /\ is_decimal d = true.
Proof.
  rewrite any_at_iff. split.
  - intros (pre & t & -> & Ht). apply tag_at_iff in Ht.
    destruct Ht as (d & post & -> & Hd). now exists pre, d, post.
  - intros (pre & d & post & -> & Hd). exists pre, (py "[p." ++ d :: post).
    split; [reflexivity|]. apply tag_at_iff. now exists d, post.
Qed.

Lemma ensure_tag_tagged tag s : any_at tag_at s = true -> ensure_tag tag s = s.
Proof. intros H. unfold ensure_tag. now rewrite search_tag, H. Qed.

(** An untagged point loses every period it ends with, and gets the tag. *)
Lemma ensure_tag_untagged tag s :
  any_at tag_at s = false ->
  exists n body,
    s = body ++ repeat (ch ".") n
    /\ (forall b, body <> b ++ [ch "."])
    /\ ensure_tag tag s = body ++ tag.
Proof.
  intros H. unfold ensure_tag. rewrite search_tag, H.
  destruct (rstrip_split (N.eqb (ch ".")) s) as (junk & Hs & Hj & Hlast).
  exists (length junk), (rstrip (N.eqb (ch ".")) s). split; [|split].
  - transitivity (rstrip (N.eqb (ch ".")) s ++ junk); [exact Hs|].
    f_equal. exact (forallb_eqb_repeat _ _ Hj).
  - intros b Hb. apply Hlast in Hb. now rewrite N.eqb_refl in Hb.
  - reflexivity.
Qed.

Lemma ensure_tag_cases tag s :
  any_at tag_at (ensure_tag tag s) = true
  \/ exists body, ensure_tag tag s = body ++ tag.
Proof.
  destruct (any_at tag_at s) eqn:H.
  - left. now rewrite ensure_tag_tagged.
  - right. destruct (ensure_tag_untagged tag s H) as (n & body & _ & _ & E).
    now exists body.
Qed.

Lemma page_tag_single p : page_tag p p = py " [p." ++ str_of_int p ++ py "]".
Proof. unfold page_tag. now rewrite Z.eqb_refl. Qed.

Lemma page_tag_range p q :
  p <> q ->
  page_tag p q = py " [p." ++ str_of_int p ++ py "-" ++ str_of_int q ++ py "]".
Proof.
  intros H. unfold page_tag. apply Z.eqb_neq in H. rewrite H.
  now rewrite <- !app_assoc.
Qed.

(** ** The points of one chunk *)

Lemma extract_bullets_empty : extract_bullets [] = [].
Proof. reflexivity. Qed.

Lemma slice_to_length {A} (k : Z) (l : list A) :
  0 <= k -> Z.of_nat (length (slice_to k l)) <= k.
Proof.
  intros Hk. unfold slice_to. destruct (Z.ltb_spec k 0); [lia|].
  rewrite length_firstn. lia.
Qed.

Lemma top_sentences_length text k :
  0 <= k -> Z.of_nat (length (top_sentences text k)) <= k.
Proof.
  intros Hk. unfold top_sentences. rewrite length_map.
  now apply slice_to_length.
Qed.

Lemma extract_fallback raw text_in start_page end_page :
  extract_bullets raw = [] ->
  extract raw text_in start_page end_page
  = map (ensure_tag (page_tag start_page end_page)) (top_sentences text_in 6).
Proof. intros H. unfold extract. now rewrite H. Qed.

Lemma extract_primary raw text_in start_page end_page :
  extract_bullets raw <> [] ->
  extract raw text_in start_page end_page
  = map (ensure_tag (page_tag start_page end_page)) (extract_bullets raw).
Proof.
  intros H. unfold extract. destruct (extract_bullets raw); [contradiction|].
  reflexivity.
Qed.

(** ** One iteration *)

Section Backend.
Variable B : Type.
Variable generate : str -> str -> Q -> B -> outcome * B.
Variables (model prompt_template : str) (temperature : Q) (verbose : bool).

Abbreviation step := (step generate model prompt_template temperature verbose).
Abbreviation run_loop :=
  (run_loop generate model prompt_template temperature verbose).

Lemma step_blank st idx text start_page end_page :
  forallb is_space text = true ->
  step st (idx, (text, start_page, end_page)) = say verbose st [MsgEmpty idx].
Proof.
  intros H. apply strip_blank in H. unfold Summariser.step. now rewrite H.
Qed.

Lemma step_processed st idx text start_page end_page :
  strip text <> [] ->
  let text_in := strip text in
  let call :=
    generate model (format_prompt prompt_template text_in start_page end_page)
      temperature (backend st) in
  let pts := extract (raw_of (fst call)) text_in start_page end_page in
  step st (idx, (text, start_page, end_page))
  = mk_state (bullets st ++ pts)
      (printed st ++ (if verbose then report idx (fst call) pts else []))
      (snd call).
Proof.
  intros H text_in call pts. unfold Summariser.step. fold text_in.
  apply ChunkerFacts.truthy_true in H. fold text_in in H. rewrite H. cbn [negb].
  fold call. subst pts. unfold extract, report.
  destruct call as [answer b]. cbn [fst snd].
  destruct answer as [r|]; cbn [raw_of];
    destruct (truthy (extract_bullets _)); destruct verbose;
    cbn [say bullets printed backend app];
    rewrite ?app_nil_r, <- ?app_assoc; reflexivity.
Qed.

End Backend.

(** ** The loop *)

Section Loop.
Variable B : Type.
Variable generate : str -> str -> Q -> B -> outcome * B.
Variables (model prompt_template : str) (temperature : Q) (verbose : bool).

Abbreviation step := (step generate model prompt_template temperature verbose).
Abbreviation run_loop :=
  (run_loop generate model prompt_template temperature verbose).
Abbreviation summarise client chunks :=
  (summarise_chunks generate client model prompt_template chunks temperature
     verbose).
Abbreviation reached client before :=
  (reached generate client model prompt_template before temperature verbose).

Lemma enumerate_app {A} (l1 l2 : list A) k :
  enumerate k (l1 ++ l2)
  = enumerate k l1 ++ enumerate (k + Z.of_nat (length l1)) l2.
Proof.
  revert k. induction l1 as [|x l1 IH]; intros k; simpl.
  - now rewrite Z.add_0_r.
  - rewrite IH. do 3 f_equal. lia.
Qed.

Lemma run_loop_app st ics1 ics2 :
  run_loop st (ics1 ++ ics2) = run_loop (run_loop st ics1) ics2.
Proof. apply fold_left_app. Qed.

(** The loop goes through the chunks one after the other: what it has
    done when it reaches a chunk, that chunk's iteration, and the rest. *)
Lemma summarise_split client before c rest :
  summarise client (before ++ c :: rest)
  = run_loop (step (reached client before) (1 + Z.of_nat (length before), c))
      (enumerate (1 + Z.of_nat (length before) + 1) rest).
Proof.
  unfold summarise_chunks, reached, summarise_chunks.
  rewrite enumerate_app, run_loop_app. reflexivity.
Qed.

Lemma summarise_append client before rest :
  summarise client (before ++ rest)
  = run_loop (reached client before)
      (enumerate (1 + Z.of_nat (length before)) rest).
Proof.
  unfold summarise_chunks, reached, summarise_chunks.
  rewrite enumerate_app, run_loop_app. reflexivity.
Qed.

Lemma say_bullets (st : loop_state B) ms :
  bullets (say verbose st ms) = bullets st.
Proof. unfold say. now destruct verbose. Qed.

Lemma say_backend (st : loop_state B) ms :
  backend (say verbose st ms) = backend st.
Proof. unfold say. now destruct verbose. Qed.

Lemma say_printed (st : loop_state B) ms :
  printed (say verbose st ms) = printed st ++ (if verbose then ms else []).
Proof. unfold say. destruct verbose; simpl; now rewrite ?app_nil_r. Qed.

(** Neither the bullets nor the backend depend on the chunk numbers or on
    what was printed. *)
Lemma step_index_free st st' i j c :
  bullets st = bullets st' -> backend st = backend st' ->
  bullets (step st (i, c)) = bullets (step st' (j, c))
  /\ backend (step st (i, c)) = backend (step st' (j, c)).
Proof.
  intros Hb Hk. destruct c as [[text start_page] end_page].
  destruct (strip text) as [|x t] eqn:E.
  - apply strip_blank in E. rewrite !step_blank by assumption.
    now rewrite !say_bullets, !say_backend.
  - assert (Hne : strip text <> []) by (rewrite E; discriminate).
    rewrite !step_processed by assumption. cbn [bullets backend].
    now rewrite Hb, Hk.
Qed.

Lemma run_loop_index_free cs :
  forall st st' i j,
    bullets st = bullets st' -> backend st = backend st' ->
    bullets (run_loop st (enumerate i cs)) = bullets (run_loop st' (enumerate j cs))
    /\ backend (run_loop st (enumerate i cs))
       = backend (run_loop st' (enumerate j cs)).
Proof.
  induction cs as [|c cs IH]; intros st st' i j Hb Hk; simpl.
  - auto.
  - destruct (step_index_free st st' i j c Hb Hk). now apply IH.
Qed.

(** The list of bullets only grows, at its end. *)
Lemma step_appends st ic : exists added, bullets (step st ic) = bullets st ++ added.
Proof.
  destruct ic as [idx [[text start_page] end_page]].
  destruct (strip text) as [|x t] eqn:E.
  - apply strip_blank in E. rewrite step_blank by assumption.
    exists []. now rewrite say_bullets, app_nil_r.
  - assert (Hne : strip text <> []) by (rewrite E; discriminate).
    rewrite step_processed by assumption. cbn [bullets]. now eexists.
Qed.

Lemma run_loop_appends ics :
  forall st, exists later, bullets (run_loop st ics) = bullets st ++ later.
Proof.
  induction ics as [|ic ics IH]; intros st; simpl.
  - exists []. now rewrite app_nil_r.
  - destruct (step_appends st ic) as [added Ha].
    destruct (IH (step st ic)) as [later Hl].
    exists (added ++ later). now rewrite Hl, Ha, app_assoc.
Qed.

(** C10.  A chunk whose text is empty or all white space is skipped: its
    iteration adds no point, leaves the backend as it was, whatever the
    backend is (so no call was made), and prints at most that the chunk is
    empty (so no fallback ran).  The bullets and the backend at the end of
    the run are those of the run without the chunk. *)
Theorem blank_chunk_skipped client before text start_page end_page rest :
  forallb is_space text = true ->
  let st := reached client before in
  let idx := 1 + Z.of_nat (length before) in
  let st' := step st (idx, (text, start_page, end_page)) in
  bullets st' = bullets st
  /\ backend st' = backend st
  /\ printed st' = printed st ++ (if verbose then [MsgEmpty idx] else [])
  /\ bullets (summarise client (before ++ (text, start_page, end_page) :: rest))
     = bullets (summarise client (before ++ rest))
  /\ backend (summarise client (before ++ (text, start_page, end_page) :: rest))
     = backend (summarise client (before ++ rest)).
Proof.
  intros Hblank st idx st'. subst st'.
  rewrite summarise_split, summarise_append. fold st idx.
  rewrite step_blank by assumption.
  rewrite say_bullets, say_backend, say_printed.
  do 3 (split; [reflexivity|]).
  apply run_loop_index_free; rewrite step_blank by assumption;
    [apply say_bullets | apply say_backend].
Qed.

(** C8.  When the call for a chunk raises, the iteration goes on with empty
    raw output: the chunk's points are the fallback sentences of its own
    text, tagged, and the loop goes on with the chunks that follow: the
    list that [summarise_chunks] returns holds the points gathered before,
    then these fallback points, then those of the later chunks. *)
Theorem backend_failure_falls_back client before text start_page end_page rest :
  let st := reached client before in
  let idx := 1 + Z.of_nat (length before) in
  let text_in := strip text in
  let call :=
    generate model (format_prompt prompt_template text_in start_page end_page)
      temperature (backend st) in
  let fallback :=
    map (ensure_tag (page_tag start_page end_page)) (top_sentences text_in 6) in
  text_in <> [] ->
  fst call = Fails ->
  let st' := step st (idx, (text, start_page, end_page)) in
  bullets st' = bullets st ++ fallback
  /\ backend st' = snd call
  /\ printed st'
     = printed st
       ++ (if verbose
           then [MsgError idx; MsgRawLength idx 0; MsgFallback idx;
                 MsgAdded idx (Z.of_nat (length fallback))]
           else [])
  /\ summarise client (before ++ (text, start_page, end_page) :: rest)
     = run_loop st' (enumerate (idx + 1) rest)
  /\ (exists later,
        bullets (summarise client (before ++ (text, start_page, end_page) :: rest))
        = bullets st ++ fallback ++ later).
Proof.
  intros st idx text_in call fallback Hne Hfail st'.
  assert (Hst : st' = mk_state (bullets st ++ fallback)
                        (printed st ++ (if verbose then report idx Fails fallback
                                        else []))
                        (snd call)).
  { unfold st'. rewrite step_processed by assumption.
    fold text_in. fold call. rewrite Hfail. cbn [raw_of].
    now rewrite extract_fallback by apply extract_bullets_empty. }
  rewrite summarise_split. fold st idx. fold st'.
  rewrite Hst. cbn [bullets backend printed].
  do 2 (split; [reflexivity|]). split; [now destruct verbose|].
  rewrite <- Hst. split; [reflexivity|].
  destruct (run_loop_appends (enumerate (idx + 1) rest) st') as [later Hl].
  exists later. etransitivity; [exact Hl|].
  rewrite Hst. cbn [bullets]. now rewrite app_assoc.
Qed.

Lemma report_fallback idx answer pts :
  In (MsgFallback idx) (report idx answer pts)
  <-> extract_bullets (raw_of answer) = [].
Proof.
  unfold report. rewrite <- ChunkerFacts.truthy_false.
  destruct answer as [r|]; destruct (truthy (extract_bullets _)); simpl;
    intuition (discriminate || congruence).
Qed.

(** C4, as the code has it.  For a chunk that is not blank, the fallback
    runs exactly when no bullet line is found in the raw output (it is what
    the message about the fallback reports); it then works on the chunk's
    stripped input text and gives at most six points.  Every point of the
    chunk, from either path, is kept as it is when [[p.] with a digit after
    it stands anywhere in it, and ends with the tag of the chunk's page
    range otherwise. *)
Theorem fallback_when_no_bullets st idx text start_page end_page :
  let text_in := strip text in
  let call :=
    generate model (format_prompt prompt_template text_in start_page end_page)
      temperature (backend st) in
  let raw := raw_of (fst call) in
  let tag := page_tag start_page end_page in
  let st' := step st (idx, (text, start_page, end_page)) in
  let added := extract raw text_in start_page end_page in
  text_in <> [] ->
  bullets st' = bullets st ++ added
  /\ printed st'
     = printed st ++ (if verbose then report idx (fst call) added else [])
  /\ (In (MsgFallback idx) (report idx (fst call) added)
      <-> extract_bullets raw = [])
  /\ (extract_bullets raw = [] ->
      added = map (ensure_tag tag) (top_sentences text_in 6)
      /\ (length added <= 6)%nat)
  /\ (extract_bullets raw <> [] ->
      added = map (ensure_tag tag) (extract_bullets raw))
  /\ (forall p, In p added ->
        any_at tag_at p = true \/ exists body, p = body ++ tag).
Proof.
  intros text_in call raw tag st' added Hne.
  assert (Hst : st' = mk_state (bullets st ++ added)
                        (printed st
                         ++ (if verbose then report idx (fst call) added else []))
                        (snd call))
    by (now apply step_processed).
  rewrite Hst. cbn [bullets printed].
  do 2 (split; [reflexivity|]).
  split; [apply report_fallback|].
  split; [|split].
  - intros Hnone. unfold added. rewrite extract_fallback by assumption.
    split; [reflexivity|]. rewrite length_map.
    pose proof (@top_sentences_length text_in 6). lia.
  - intros Hsome. now apply extract_primary.
  - intros p Hp. unfold added, extract in Hp. apply in_map_iff in Hp.
    destruct Hp as (q & <- & _). apply ensure_tag_cases.
Qed.

End Loop.

(** C5, as the code has it.  A point in which [[p.] is nowhere followed by
    a decimal digit loses all the periods it ends with, not one only, and
    gets [ [p.N]] or [ [p.N-M]] appended; any other point is left as it is.
    With [start_page = end_page = 3], the raw text with the bullet line
    [- Revenue grew 12%.] and a line of narration gives exactly the point
    [- Revenue grew 12% [p.3]]. *)
Theorem page_tag_appended start_page end_page p :
  (any_at tag_at p = false ->
   exists n body,
     p = body ++ repeat (ch ".") n
     /\ (forall b, body <> b ++ [ch "."])
     /\ ensure_tag (page_tag start_page end_page) p
        = body ++ page_tag start_page end_page)
  /\ (any_at tag_at p = true ->
      ensure_tag (page_tag start_page end_page) p = p)
  /\ page_tag start_page start_page
     = py " [p." ++ str_of_int start_page ++ py "]"
  /\ (start_page <> end_page ->
      page_tag start_page end_page
      = py " [p." ++ str_of_int start_page ++ py "-" ++ str_of_int end_page
        ++ py "]")
  /\ (forall text_in,
        extract Inputs.raw_revenue text_in 3 3 = [py "- Revenue grew 12% [p.3]"]).
Proof.
  split; [apply ensure_tag_untagged|].
  split; [apply ensure_tag_tagged|].
  split; [apply page_tag_single|].
  split; [apply page_tag_range|].
  intros text_in. vm_compute. reflexivity.
Qed.

End WithUnicode.

(** ** The claims on concrete chunks *)

Import Inputs.

Lemma scenario_is_one_chunk :
  Chunker.chunk_pages
    [(1, py "Revenue up 10% to $50M"); (2, py "Guidance raised for FY25")]
    3000 0
  = Ok [Chunker.mk_chunk scenario_text (Some 1) (Some 2)].
Proof. reflexivity. Qed.

Lemma scenario_fallback (U : UnicodeData) :
  extract [] (strip scenario_text) 1 2
  = [py "- [p.1] Revenue up 10% to $50M [p.2] Guidance raised for FY25"].
Proof. vm_compute. reflexivity. Qed.

(** C4 as it is written fails, whatever the Unicode tables: the chunk of
    the end-to-end scenario spans pages 1-2, and its one fallback point
    keeps the page markers of the chunk text and gets no [[p.1-2]]. *)
Lemma fallback_points_tagged_counterexample :
  ~ exists U, Claims.fallback_points_tagged U.
Proof.
  intros [U H].
  specialize (H (strip scenario_text) 1 2
                (py "- [p.1] Revenue up 10% to $50M [p.2] Guidance raised for FY25")).
  rewrite scenario_fallback in H. specialize (H (or_introl eq_refl)).
  apply contains_iff in H. vm_compute in H. discriminate H.
Qed.

(** C5 as it is written fails, whatever the Unicode tables: the bullet
    [- Wait...] loses its three periods, not one. *)
Lemma one_period_stripped_counterexample :
  ~ exists U, Claims.one_period_stripped U.
Proof.
  intros [U H].
  specialize (H raw_wait [] 3 3 (py "- Wait...")).
  assert (Hin : In (py "- Wait...") (extract_bullets raw_wait))
    by (vm_compute; auto).
  assert (Hno : ~ Claims.occurs_in (py "[p.") (py "- Wait..."))
    by (intros Ho; apply contains_iff in Ho; vm_compute in Ho; discriminate Ho).
  specialize (H Hin Hno). vm_compute in H.
  destruct H as [H | []]. discriminate H.
Qed.

Lemma page_tag_appended_witness :
  exists n body,
    py "- Wait..." = body ++ repeat (ch ".") n
    /\ (forall b, body <> b ++ [ch "."])
    /\ ensure_tag (U := ascii_only) (page_tag 3 3) (py "- Wait...")
       = body ++ page_tag 3 3.
Proof.
  refine (proj1 (@page_tag_appended ascii_only 3 3 (py "- Wait...")) _).
  reflexivity.
Defined.

Lemma blank_chunk_skipped_witness :
  backend
    (summarise_chunks (U := ascii_only) (backend_says raw_revenue) 0%nat
       (py "m") (py "{{TEXT}}") [blank_chunk; (scenario_text, 1, 2)]
       (1 # 10)%Q true)
  = backend
      (summarise_chunks (U := ascii_only) (backend_says raw_revenue) 0%nat
         (py "m") (py "{{TEXT}}") [(scenario_text, 1, 2)] (1 # 10)%Q true).
Proof.
  refine (proj2 (proj2 (proj2 (proj2
            (@blank_chunk_skipped ascii_only nat (backend_says raw_revenue)
               (py "m") (py "{{TEXT}}") (1 # 10)%Q true 0%nat []
               [ch " "; nl; 9%N] 4 4 [(scenario_text, 1, 2)] _))))).
  reflexivity.
Defined.

Lemma backend_failure_falls_back_witness :
  bullets
    (step (U := ascii_only) backend_down (py "m") (py "{{TEXT}}") (1 # 10)%Q
       false (mk_state [] [] 0%nat) (1, (scenario_text, 1, 2)))
  = [] ++ map (ensure_tag (U := ascii_only) (page_tag 1 2))
            (top_sentences (U := ascii_only) (strip scenario_text) 6).
Proof.
  refine (proj1 (@backend_failure_falls_back ascii_only nat backend_down
                   (py "m") (py "{{TEXT}}") (1 # 10)%Q false 0%nat []
                   scenario_text 1 2 [] _ _)).
  - vm_compute. discriminate.
  - reflexivity.
Defined.

Lemma fallback_when_no_bullets_witness :
  bullets
    (step (U := ascii_only) backend_down (py "m") (py "{{TEXT}}") (1 # 10)%Q
       false (mk_state [] [] 0%nat) (1, (scenario_text, 1, 2)))
  = [] ++ extract (U := ascii_only) [] (strip scenario_text) 1 2.
Proof.
  refine (proj1 (@fallback_when_no_bullets ascii_only nat backend_down
                   (py "m") (py "{{TEXT}}") (1 # 10)%Q false
                   (mk_state [] [] 0%nat) 1 scenario_text 1 2 _)).
  vm_compute. discriminate.
Defined.

End SummariserFacts.

(* ------------------------------------------------------------------ *)
(** * The model on small inputs *)

Module Examples.

Import Inputs.
Local Open Scope Z_scope.
#[local] Existing Instance ascii_only.

Example str_of_int_12 : str_of_int 12 = py "12".
Proof. reflexivity. Qed.

Example str_of_int_0 : str_of_int 0 = py "0".
Proof. reflexivity. Qed.

Example slice_from_end : slice_from (-2) (py "abcd") = py "cd".
Proof. reflexivity. Qed.

Example slice_from_short : slice_from (-9) (py "abcd") = py "abcd".
Proof. reflexivity. Qed.

Example format_page_7 :
  Chunker.format_page (7, py "x") = [nl] ++ py "[p.7]" ++ [nl] ++ py "x" ++ [nl].
Proof. reflexivity. Qed.

Example splitlines_mixed :
  splitlines (py "a" ++ [13%N; 10%N] ++ py "b" ++ [10%N; 10%N] ++ py "c" ++ [10%N])
  = [py "a"; py "b"; []; py "c"].
Proof. reflexivity. Qed.

Example replace_twice : replace (py "ab") (py "x") (py "ababa") = py "xxa".
Proof. reflexivity. Qed.

Example findall_number_runs :
  findall Ranker.re_number (py "a12b3 456") = [py "12"; py "3"; py "456"].
Proof. reflexivity. Qed.

Example findall_percent_signs :
  findall Ranker.re_percent (py "a12% +3pp -44pp 8pp 5 % +12p")
  = [py "12%"; py "+3pp"; py "-44pp"].
Proof. reflexivity. Qed.

Example score_revenue :
  Ranker.score_value (py "Revenue grew 15% to $2.3M, up 8pp YoY") = 55%Q.
Proof. vm_compute. reflexivity. Qed.

Example score_plain :
  Ranker.score_value (py "Things were fine this quarter") = 0%Q.
Proof. vm_compute. reflexivity. Qed.

Example bullets_accepted :
  Summariser.extract_bullets
    (py "  12) hello   world  " ++ [nl] ++ py "-  " ++ [nl] ++ py "* x" ++ [nl]
     ++ py "1234. no" ++ [nl; 8226%N] ++ py " dot" ++ [nl; 8211%N] ++ py " dash")
  = [py "- hello world"; py "- x"; py "- dot"; py "- dash"].
Proof. vm_compute. reflexivity. Qed.

Example sentences_split :
  split Summariser.SENTENCE
    (py "Hello world. This is Mr. Smith. e.g. x y! Done? yes")
  = [py "Hello world."; py "This is Mr. Smith."; py "e.g. x y!"; py "Done?";
     py "yes"].
Proof. vm_compute. reflexivity. Qed.

Example top_sentences_order :
  Summariser.top_sentences
    (py "Costs were flat. Margin rose 3% YoY. Revenue hit $5 million. Fine.") 2
  = [py "- Revenue hit $5 million."; py "- Margin rose 3% YoY."].
Proof. vm_compute. reflexivity. Qed.

Example wait_point :
  Summariser.extract raw_wait [] 3 3 = [py "- Wait [p.3]"].
Proof. vm_compute. reflexivity. Qed.

Example ranking_ties :
  map fst
    (Ranker.rank_points
       (py "- a 5%" ++ [nl] ++ py "- b" ++ [nl] ++ py "- c 5%" ++ [nl]
        ++ py "- d $5" ++ [nl; nl] ++ py "- e"))
  = [py "- d $5"; py "- a 5%"; py "- c 5%"; py "- b"; py "- e"].
Proof. vm_compute. reflexivity. Qed.

Example backend_down_scenario :
  Summariser.bullets
    (Summariser.summarise_chunks backend_down 0%nat (py "m") (py "{{TEXT}}")
       [(scenario_text, 1, 2); blank_chunk] (1 # 10)%Q false)
  = [py "- [p.1] Revenue up 10% to $50M [p.2] Guidance raised for FY25"].
Proof. vm_compute. reflexivity. Qed.

Example backend_down_calls :
  Summariser.backend
    (Summariser.summarise_chunks backend_down 0%nat (py "m") (py "{{TEXT}}")
       [(scenario_text, 1, 2); blank_chunk; (py "Revenue fell.", 3, 3)]
       (1 # 10)%Q false)
  = 2%nat.
Proof. vm_compute. reflexivity. Qed.

End Examples.

(* ------------------------------------------------------------------ *)
(** * More properties of the chunker *)

Module ChunkerShapeFacts.

Import Chunker ChunkerInv ChunkerShape ChunkerFacts.
Local Open Scope Z_scope.

#[local] Arguments format_page : simpl never.
#[local] Arguments overlap_tail : simpl never.

Lemma chunk_pages_ok_inv pages max_chars overlap cs :
  chunk_pages pages max_chars overlap = Ok cs ->
  valid_config max_chars overlap
  /\ cs = finish (run_loop max_chars overlap init pages).
Proof.
  unfold chunk_pages, valid_config.
  destruct (Z.leb_spec max_chars 1000); [discriminate|].
  destruct (Z.ltb_spec overlap 0); [discriminate|].
  destruct (Z.geb_spec overlap max_chars); [discriminate|].
  simpl. intros [= <-]. repeat split; lia.
Qed.

(** An invariant that speaks of the pages read so far; [Good] is what is
    known of every prefix of the input. *)
Lemma run_loop_seen (I : list Page -> loop_state -> Prop)
    (Good : list Page -> Prop) max_chars overlap :
  (forall l1 l2, Good (l1 ++ l2) -> Good l1) ->
  (forall seen st pg,
     I seen st -> Good (seen ++ [pg]) ->
     I (seen ++ [pg]) (step max_chars overlap st pg)) ->
  forall pages seen st,
    I seen st -> Good (seen ++ pages) ->
    I (seen ++ pages) (run_loop max_chars overlap st pages).
Proof.
  intros Hpre Hstep. induction pages as [|pg pages IH]; intros seen st Hst Hg.
  - now rewrite app_nil_r.
  - simpl. replace (seen ++ pg :: pages) with ((seen ++ [pg]) ++ pages) in *
      by (now rewrite <- app_assoc).
    apply IH; [|assumption]. apply Hstep; [assumption|].
    now apply Hpre with (l2 := pages).
Qed.

(** ** Nothing is lost and nothing is added *)

Lemma last_default {A} (x : A) l d d' : last (x :: l) d = last (x :: l) d'.
Proof.
  revert x. induction l as [|y l IH]; intros x; [reflexivity|].
  cbn [last]. apply IH.
Qed.

Lemma unseed_snoc overlap prev ts t :
  unseed overlap prev (ts ++ [t])
  = unseed overlap prev ts
    ++ [skipn (length (overlap_tail overlap (last ts prev))) t].
Proof.
  revert prev. induction ts as [|u ts IH]; intros prev.
  - reflexivity.
  - cbn [app unseed]. rewrite IH. destruct ts as [|v ts]; [reflexivity|].
    now rewrite (last_default v ts u prev).
Qed.

Lemma unseed_zero prev ts : unseed 0 prev ts = ts.
Proof.
  revert prev. induction ts as [|t ts IH]; intros prev; simpl; [reflexivity|].
  now rewrite IH.
Qed.

Lemma concat_one (t : str) : concat [t] = t.
Proof. simpl. apply app_nil_r. Qed.

Lemma skipn_seed (seed rest : str) : skipn (length seed) (seed ++ rest) = rest.
Proof. rewrite skipn_app, skipn_all, Nat.sub_diag. reflexivity. Qed.

Lemma overlap_tail_nil overlap : overlap_tail overlap [] = [].
Proof.
  unfold overlap_tail, slice_from. destruct (overlap =? 0); [reflexivity|].
  destruct (- overlap <? 0); apply skipn_nil.
Qed.

Lemma read_inv_init overlap : read_inv overlap [] init.
Proof.
  exists []. cbn [init chunks buf map last concat].
  rewrite overlap_tail_nil. split; reflexivity.
Qed.

Lemma read_inv_step max_chars overlap seen st pg :
  read_inv overlap seen st ->
  read_inv overlap (seen ++ [pg]) (step max_chars overlap st pg).
Proof.
  intros (rest & Hbuf & Hsum). unfold read_inv.
  rewrite map_app, concat_app, <- Hsum. cbn [map]. rewrite concat_one.
  destruct (step_cases max_chars st pg) as [Hb | [[Hb Hgt] | [Hb Hgt]]].
  - rewrite step_first by assumption. projections.
    rewrite Hb in Hbuf. cbn [concat] in Hbuf. symmetry in Hbuf.
    apply app_eq_nil in Hbuf. destruct Hbuf as [Ht ->].
    exists (format_page pg). rewrite Ht, concat_one, !app_nil_r. auto.
  - rewrite step_append by assumption. projections.
    exists (rest ++ format_page pg).
    rewrite concat_snoc, Hbuf, <- !app_assoc. auto.
  - rewrite step_close by assumption. projections.
    exists (format_page pg). rewrite concat_seed, map_app. cbn [map].
    unfold pending at 1 2; projections.
    rewrite last_last, unseed_snoc, concat_app, concat_one.
    split; [reflexivity|].
    rewrite Hbuf, skipn_seed. now rewrite <- !app_assoc.
Qed.

Lemma read_inv_finish overlap seen st :
  read_inv overlap seen st ->
  concat (unseed overlap [] (map text (finish st)))
  = concat (map format_page seen).
Proof.
  intros (rest & Hbuf & Hsum). unfold finish.
  destruct (truthy (buf st)) eqn:Hb.
  - rewrite map_app. cbn [map]; projections.
    rewrite unseed_snoc, concat_app, concat_one.
    rewrite Hbuf at 1. now rewrite skipn_seed.
  - apply truthy_false in Hb. rewrite Hb in Hbuf. cbn [concat] in Hbuf.
    symmetry in Hbuf. apply app_eq_nil in Hbuf. destruct Hbuf as [_ ->].
    now rewrite app_nil_r in Hsum.
Qed.

(** X1.  No page text is lost, reordered or repeated beyond the overlap:
    the chunk texts, each without the tail that was copied from the chunk
    before it, concatenate to the formatted pages in their order.  With
    [overlap = 0] the chunk texts themselves do. *)
Theorem chunks_reconstruct_pages pages max_chars overlap cs :
  chunk_pages pages max_chars overlap = Ok cs ->
  concat (unseed overlap [] (map text cs)) = concat (map format_page pages)
  /\ (overlap = 0 -> concat (map text cs) = concat (map format_page pages)).
Proof.
  intros Hrun. apply chunk_pages_ok_inv in Hrun. destruct Hrun as [_ ->].
  assert (H : concat (unseed overlap []
                        (map text (finish (run_loop max_chars overlap init pages))))
              = concat (map format_page pages)).
  { apply read_inv_finish.
    apply (@run_loop_seen (read_inv overlap) (fun _ => True) max_chars overlap)
      with (seen := []); auto using read_inv_init.
    intros seen st pg Hst _. now apply read_inv_step. }
  split; [exact H|]. intros ->. now rewrite unseed_zero in H.
Qed.

(** ** How many chunks *)

Lemma finish_length st : length (finish st) = length (view st).
Proof.
  unfold finish, view. destruct (truthy (buf st)); now rewrite ?length_app.
Qed.

Lemma count_inv_init : count_inv [] init.
Proof.
  unfold count_inv, view, init; simpl.
  repeat split; try discriminate; auto.
Qed.

Lemma count_inv_step max_chars overlap seen st pg :
  count_inv seen st ->
  count_inv (seen ++ [pg]) (step max_chars overlap st pg).
Proof.
  intros (Hlen & Hseen & Hempty & Hfull & Hall). unfold count_inv.
  rewrite length_app. cbn [length].
  destruct (step_cases max_chars st pg) as [Hb | [[Hb Hgt] | [Hb Hgt]]].
  - rewrite step_first by assumption.
    rewrite view_filling by reflexivity. projections.
    rewrite Hempty by (now rewrite Hb). cbn [app length truthy].
    split; [lia|]. split; [reflexivity|]. split; [discriminate|].
    split; [|constructor]. intros _. rewrite concat_one.
    apply format_page_nonempty.
  - rewrite step_append by assumption.
    rewrite view_filling in * by (projections; auto using truthy_snoc).
    projections. rewrite length_app in *. cbn [length] in *.
    rewrite truthy_snoc, concat_snoc.
    split; [lia|]. split; [reflexivity|]. split; [discriminate|].
    split; [|assumption]. intros _ E. apply app_eq_nil in E.
    destruct E as [_ E]. now apply format_page_nonempty in E.
  - rewrite step_close by assumption.
    rewrite view_filling in * by (projections; auto using truthy_snoc).
    projections. rewrite !length_app in *. cbn [length] in *.
    rewrite truthy_snoc, concat_seed.
    split; [lia|]. split; [reflexivity|]. split; [discriminate|]. split.
    + intros _ E. apply app_eq_nil in E.
      destruct E as [_ E]. now apply format_page_nonempty in E.
    + apply Forall_app. split; [assumption|].
      constructor; [|constructor]. unfold pending; projections. auto.
Qed.

(** X2.  There are chunks exactly when there are pages, never more chunks
    than pages, and no chunk is empty. *)
Theorem chunks_count pages max_chars overlap cs :
  chunk_pages pages max_chars overlap = Ok cs ->
  (cs = [] <-> pages = [])
  /\ (length cs <= length pages)%nat
  /\ Forall (fun c => text c <> []) cs.
Proof.
  intros Hrun. apply chunk_pages_ok_inv in Hrun. destruct Hrun as [_ ->].
  set (st := run_loop max_chars overlap init pages).
  assert (H : count_inv pages st).
  { apply (@run_loop_seen count_inv (fun _ => True) max_chars overlap)
      with (seen := []); auto using count_inv_init.
    intros seen st' pg Hst _. now apply count_inv_step. }
  destruct H as (Hlen & Hseen & Hempty & Hfull & Hall).
  split; [|split].
  - split.
    + intros E. destruct pages as [|pg pages]; [reflexivity|].
      assert (Hb : truthy (buf st) = true) by (apply Hseen; discriminate).
      unfold finish in E. rewrite Hb in E.
      apply app_eq_nil in E. destruct E as [_ E]. discriminate E.
    + intros E. rewrite E in Hlen. simpl in Hlen.
      rewrite <- finish_length in Hlen.
      destruct (finish st); [reflexivity|simpl in Hlen; lia].
  - now rewrite finish_length.
  - unfold finish. destruct (truthy (buf st)) eqn:Hb; [|assumption].
    apply Forall_app. split; [assumption|].
    constructor; [|constructor]. projections. auto.
Qed.

(** ** Pages that fit in one chunk *)

Lemma last_cons {A} (x : A) l d : last (x :: l) d = last l x.
Proof.
  destruct l as [|y l]; [reflexivity|].
  change (last (x :: y :: l) d) with (last (y :: l) d). apply last_default.
Qed.

Lemma last_of_map {A B} (f : A -> B) l d : last (map f l) (f d) = f (last l d).
Proof.
  induction l as [|x [|y l] IH]; [reflexivity|reflexivity|].
  exact IH.
Qed.

Lemma run_loop_cons max_chars overlap st pg pages :
  run_loop max_chars overlap st (pg :: pages)
  = run_loop max_chars overlap (step max_chars overlap st pg) pages.
Proof. reflexivity. Qed.

Lemma run_loop_fits max_chars overlap pages :
  forall st,
    truthy (buf st) = true ->
    size st = len (concat (buf st)) ->
    size st + len (concat (map format_page pages)) <= max_chars ->
    run_loop max_chars overlap st pages
    = mk_state (chunks st) (buf st ++ map format_page pages) (start_p st)
        (last (map (fun pg => Some (fst pg)) pages) (end_p st))
        (size st + len (concat (map format_page pages))).
Proof.
  induction pages as [|pg pages IH]; intros st Hb Hsize Hfit.
  - cbn [map concat last run_loop fold_left]. change (len []) with 0.
    rewrite app_nil_r, Z.add_0_r. now destruct st.
  - cbn [map concat] in *. rewrite len_app in Hfit.
    pose proof (len_nonneg (concat (map format_page pages))).
    rewrite run_loop_cons, step_append; [|assumption|].
    + rewrite IH; projections.
      * rewrite <- app_assoc, len_app, Z.add_assoc. cbn [app].
        now rewrite last_cons.
      * apply truthy_snoc.
      * rewrite concat_snoc, len_app. lia.
      * lia.
    + rewrite Z.gtb_ltb. apply Z.ltb_ge. lia.
Qed.

(** X3.  Pages whose formatted texts together are within [max_chars] make
    one chunk: all of the text, from the first page to the last. *)
Theorem pages_that_fit_make_one_chunk p0 rest max_chars overlap :
  valid_config max_chars overlap ->
  fst p0 <> 0 -> fst (last rest p0) <> 0 ->
  len (concat (map format_page (p0 :: rest))) <= max_chars ->
  chunk_pages (p0 :: rest) max_chars overlap
  = Ok [mk_chunk (concat (map format_page (p0 :: rest)))
          (Some (fst p0)) (Some (fst (last rest p0)))].
Proof.
  intros Hv H0 Hl Hfit. rewrite chunk_pages_ok by assumption. f_equal.
  rewrite run_loop_cons, step_first by reflexivity.
  cbn [map concat] in *. rewrite len_app in Hfit.
  rewrite run_loop_fits; projections.
  - unfold finish; projections. cbn [truthy app concat].
    rewrite (last_of_map (fun pg : Page => Some (fst pg))).
    apply Z.eqb_neq in H0, Hl. cbn [or_int init chunks app].
    rewrite H0.
    match goal with
    | |- context [if ?c then _ else _] => replace c with false by (symmetry; exact Hl)
    end.
    reflexivity.
  - reflexivity.
  - cbn [concat init size]. rewrite app_nil_r. reflexivity.
  - cbn [init size]. lia.
Qed.

(** ** Page ranges *)

Lemma or_int_pos b o : 0 < b -> or_int (Some b) o = Some b.
Proof.
  intros Hb. unfold or_int. destruct (Z.eqb_spec b 0); [lia|reflexivity].
Qed.

Lemma ranged_mono seen pg t s e :
  ranged seen t s e -> ranged (seen ++ [pg]) t s e.
Proof.
  intros (a & b & pa & pb & pre & Hs & He & Hab & Hpa & Ha & Hpb & Hb & Ht).
  exists a, b, pa, pb, pre.
  do 3 (split; [assumption|]). split; [apply in_or_app; now left|].
  split; [assumption|]. split; [apply in_or_app; now left|]. now split.
Qed.

Lemma sorted_snoc {A} (R : A -> A -> Prop) l x :
  StronglySorted R (l ++ [x]) -> Forall (fun y => R y x) l.
Proof.
  induction l as [|a l IH]; intros H; [constructor|].
  cbn [app] in H. apply StronglySorted_inv in H. destruct H as [Hs Ha].
  constructor; [|now apply IH].
  apply Forall_app in Ha. destruct Ha as [_ Ha]. now inversion Ha.
Qed.

Lemma sorted_prefix {A} (R : A -> A -> Prop) l1 l2 :
  StronglySorted R (l1 ++ l2) -> StronglySorted R l1.
Proof.
  induction l1 as [|a l IH]; intros H; [constructor|].
  cbn [app] in H. apply StronglySorted_inv in H. destruct H as [Hs Ha].
  constructor; [now apply IH|].
  apply Forall_app in Ha. now destruct Ha.
Qed.

Lemma numbered_prefix l1 l2 : numbered (l1 ++ l2) -> numbered l1.
Proof.
  intros [Hp Hs]. split.
  - apply Forall_app in Hp. now destruct Hp.
  - now apply sorted_prefix with (l2 := l2).
Qed.

Lemma numbered_snoc seen pg :
  numbered (seen ++ [pg]) ->
  0 < fst pg /\ forall q, In q seen -> fst q <= fst pg.
Proof.
  intros [Hp Hs]. split.
  - apply Forall_app in Hp. destruct Hp as [_ Hp]. now inversion Hp.
  - apply sorted_snoc in Hs. rewrite Forall_forall in Hs. exact Hs.
Qed.

Lemma range_inv_init : range_inv [] init.
Proof.
  unfold range_inv, init; projections. split; [constructor|].
  split; [discriminate|]. now intros [].
Qed.

Lemma range_inv_step max_chars overlap seen st pg :
  range_inv seen st -> numbered (seen ++ [pg]) ->
  range_inv (seen ++ [pg]) (step max_chars overlap st pg).
Proof.
  intros (Hch & Hbuf & _) Hgood.
  apply numbered_snoc in Hgood. destruct Hgood as [Hpos Hle].
  assert (Hold : Forall
    (fun c => ranged (seen ++ [pg]) (text c) (page_start c) (page_end c))
    (chunks st)).
  { revert Hch. apply Forall_impl. intros c. apply ranged_mono. }
  assert (Hin : In pg (seen ++ [pg])) by (apply in_or_app; right; now left).
  unfold range_inv. rewrite last_last.
  destruct (step_cases max_chars st pg) as [Hb | [[Hb Hgt] | [Hb Hgt]]].
  - rewrite step_first by assumption. projections.
    split; [assumption|]. split; [|reflexivity]. intros _.
    split; [|reflexivity].
    exists (fst pg), (fst pg), pg, pg, []. rewrite concat_one.
    repeat split; auto; lia.
  - rewrite step_append by assumption. projections.
    split; [assumption|]. split; [|intros _; apply truthy_snoc]. intros _.
    split; [|reflexivity].
    destruct (Hbuf Hb)
      as [(a & b & pa & pb & pre & Hs & He & Hab & Hpa & Ha & Hpb & Hbb & Ht) _].
    exists a, (fst pg), pa, pg, (concat (buf st)). rewrite concat_snoc.
    specialize (Hle pb Hpb).
    repeat split; auto; try lia. apply in_or_app; now left.
  - rewrite step_close by assumption. projections.
    destruct (Hbuf Hb)
      as [(a & b & pa & pb & pre & Hs & He & Hab & Hpa & Ha & Hpb & Hbb & Ht) _].
    specialize (Hle pb Hpb).
    split; [|split; [|intros _; apply truthy_snoc]].
    + apply Forall_app. split; [assumption|].
      constructor; [|constructor]. unfold pending; projections.
      apply ranged_mono. rewrite He, or_int_pos by lia.
      exists a, b, pa, pb, pre. repeat split; auto; lia.
    + intros _. split; [|reflexivity]. rewrite concat_seed.
      destruct (truthy (overlap_tail overlap (concat (buf st)))).
      * exists a, (fst pg), pa, pg, (overlap_tail overlap (concat (buf st))).
        repeat split; auto; try lia. apply in_or_app; now left.
      * exists (fst pg), (fst pg), pg, pg,
          (overlap_tail overlap (concat (buf st))).
        repeat split; auto; lia.
Qed.

Lemma run_loop_range_inv pages max_chars overlap :
  numbered pages ->
  range_inv pages (run_loop max_chars overlap init pages).
Proof.
  intros Hnum.
  apply (@run_loop_seen range_inv numbered max_chars overlap)
    with (seen := []).
  - apply numbered_prefix.
  - intros seen st' pg. apply range_inv_step.
  - apply range_inv_init.
  - exact Hnum.
Qed.

Lemma finish_ranged seen st :
  range_inv seen st ->
  Forall (fun c => ranged seen (text c) (page_start c) (page_end c)) (finish st).
Proof.
  intros (Hch & Hbuf & Hne). unfold finish.
  destruct (truthy (buf st)) eqn:Hb; [|assumption].
  destruct (Hbuf eq_refl)
    as [(a & b & pa & pb & pre & Hs & He & Hab & Hpa & Ha & Hpb & Hbb & Ht) _].
  apply Forall_app. split; [assumption|].
  constructor; [|constructor]. projections.
  rewrite Hs, He, !or_int_pos by lia.
  exists a, b, pa, pb, pre. repeat split; auto; lia.
Qed.

Lemma finish_last_end seen st d :
  range_inv seen st -> seen <> [] ->
  finish st <> []
  /\ page_end (last (finish st) d) = Some (fst (last seen (0, []))).
Proof.
  intros (Hch & Hbuf & Hne) Hp. specialize (Hne Hp). unfold finish.
  rewrite Hne, last_last. projections. split.
  - intros E. apply app_eq_nil in E. destruct E as [_ E]. discriminate E.
  - destruct (Hbuf Hne)
      as [(a & b & pa & pb & pre & Hs & He & Hab & Hpa & Ha & Hpb & Hbb & Ht) Hend].
    rewrite <- Hend, He. apply or_int_pos. lia.
Qed.

(** X4.  When the pages are numbered from a positive number upwards, every
    chunk carries a page range [a..b] with [0 < a <= b], both of them
    numbers of pages of the input, and its text ends with the formatted
    page [b]; the last chunk ends on the last page. *)
Theorem chunk_page_ranges pages max_chars overlap cs :
  chunk_pages pages max_chars overlap = Ok cs ->
  numbered pages ->
  Forall (fun c => ranged pages (text c) (page_start c) (page_end c)) cs
  /\ (pages <> [] ->
      forall d, page_end (last cs d) = Some (fst (last pages (0, [])))).
Proof.
  intros Hrun Hnum. apply chunk_pages_ok_inv in Hrun. destruct Hrun as [_ ->].
  pose proof (run_loop_range_inv max_chars overlap Hnum) as H.
  split; [now apply finish_ranged|].
  intros Hp d. now apply finish_last_end.
Qed.

(** ** No page is left out of the ranges *)

Lemma cover_inv_step max_chars overlap seen st pg :
  range_inv seen st -> cover_inv seen st -> numbered (seen ++ [pg]) ->
  cover_inv (seen ++ [pg]) (step max_chars overlap st pg).
Proof.
  intros (_ & Hbuf & _) Hcover Hgood.
  apply numbered_snoc in Hgood. destruct Hgood as [Hpos Hle].
  unfold cover_inv in *.
  destruct (step_cases max_chars st pg) as [Hb | [[Hb Hgt] | [Hb Hgt]]].
  - rewrite step_first by assumption. projections.
    apply Forall_app. split.
    + revert Hcover. apply Forall_impl. intros q [Hq | [Hq _]]; [now left|].
      rewrite Hb in Hq. discriminate Hq.
    + constructor; [|constructor]. right. split; [reflexivity|].
      exists (fst pg), (fst pg). repeat split; lia.
  - rewrite step_append by assumption. projections.
    destruct (Hbuf Hb)
      as [(a & b & pa & pb & pre & Hs & He & Hab & Hpa & Ha & Hpb & Hbb & Ht) _].
    specialize (Hle pb Hpb). apply Forall_app. split.
    + revert Hcover. apply Forall_impl. intros q [Hq | [_ Hq]]; [now left|].
      right. split; [apply truthy_snoc|].
      destruct Hq as (a' & b' & Ha' & Hb' & Hq).
      exists a', (fst pg). rewrite He in Hb'. injection Hb' as <-.
      repeat split; auto; lia.
    + constructor; [|constructor]. right. split; [apply truthy_snoc|].
      exists a, (fst pg). repeat split; auto; lia.
  - rewrite step_close by assumption. projections.
    destruct (Hbuf Hb)
      as [(a & b & pa & pb & pre & Hs & He & Hab & Hpa & Ha & Hpb & Hbb & Ht) _].
    specialize (Hle pb Hpb). apply Forall_app. split.
    + revert Hcover. apply Forall_impl. intros q [Hq | [_ Hq]]; left;
        apply Exists_app; [now left|right].
      constructor. unfold pending; projections.
      rewrite He, or_int_pos by lia. now rewrite <- He.
    + constructor; [|constructor]. right. split; [apply truthy_snoc|].
      destruct (truthy (overlap_tail overlap (concat (buf st)))).
      * exists a, (fst pg). repeat split; auto; lia.
      * exists (fst pg), (fst pg). repeat split; lia.
Qed.

(** X22.  When the pages are numbered from a positive number upwards,
    every page of the input lies in the page range of some chunk. *)
Theorem every_page_in_a_range pages max_chars overlap cs :
  chunk_pages pages max_chars overlap = Ok cs ->
  numbered pages ->
  Forall (fun pg =>
            Exists (fun c => exists a b,
                      page_start c = Some a /\ page_end c = Some b
                      /\ a <= fst pg <= b) cs) pages.
Proof.
  intros Hrun Hnum. apply chunk_pages_ok_inv in Hrun. destruct Hrun as [_ ->].
  set (st := run_loop max_chars overlap init pages).
  assert (H : range_inv pages st /\ cover_inv pages st).
  { apply (@run_loop_seen (fun seen st => range_inv seen st /\ cover_inv seen st)
             numbered max_chars overlap) with (seen := []).
    - apply numbered_prefix.
    - intros seen st' pg [Hr Hc] Hg. split.
      + now apply range_inv_step.
      + now apply cover_inv_step.
    - split; [apply range_inv_init|constructor].
    - exact Hnum. }
  destruct H as [(_ & Hbuf & _) Hcover]. unfold finish.
  revert Hcover. apply Forall_impl. intros pg [Hpg | [Hb Hpg]].
  - destruct (truthy (buf st)); [apply Exists_app; now left|assumption].
  - rewrite Hb. apply Exists_app. right. constructor. projections.
    destruct (Hbuf Hb)
      as [(a & b & pa & pb & pre & Hs & He & Hab & _) _].
    rewrite Hs, He, !or_int_pos by lia. now rewrite <- Hs, <- He.
Qed.

(** ** The theorems at concrete inputs *)

Lemma chunks_reconstruct_pages_witness :
  let cs := finish (run_loop 1001 200 init Inputs.two_pages) in
  concat (unseed 200 [] (map text cs))
  = concat (map format_page Inputs.two_pages)
  /\ (200 = 0 -> concat (map text cs) = concat (map format_page Inputs.two_pages)).
Proof.
  intros cs.
  apply (@chunks_reconstruct_pages Inputs.two_pages 1001 200 cs).
  vm_compute. reflexivity.
Defined.

Lemma chunks_count_witness :
  let cs := finish (run_loop 1001 200 init Inputs.two_pages) in
  (cs = [] <-> Inputs.two_pages = [])
  /\ (length cs <= length Inputs.two_pages)%nat
  /\ Forall (fun c => text c <> []) cs.
Proof.
  intros cs.
  apply (@chunks_count Inputs.two_pages 1001 200 cs).
  vm_compute. reflexivity.
Defined.

Lemma pages_that_fit_make_one_chunk_witness :
  chunk_pages
    [(1, py "Revenue up 10% to $50M"); (2, py "Guidance raised for FY25")]
    1001 0
  = Ok [mk_chunk Inputs.scenario_text (Some 1) (Some 2)].
Proof.
  apply (@pages_that_fit_make_one_chunk
           (1, py "Revenue up 10% to $50M")
           [(2, py "Guidance raised for FY25")] 1001 0).
  - unfold valid_config. lia.
  - simpl. lia.
  - simpl. lia.
  - vm_compute. discriminate.
Defined.

Lemma chunk_page_ranges_witness :
  let cs := finish (run_loop 1001 200 init Inputs.two_pages) in
  Forall (fun c => ranged Inputs.two_pages (text c) (page_start c) (page_end c)) cs
  /\ (Inputs.two_pages <> [] ->
      forall d, page_end (last cs d) = Some (fst (last Inputs.two_pages (0, [])))).
Proof.
  intros cs.
  apply (@chunk_page_ranges Inputs.two_pages 1001 200 cs).
  - vm_compute. reflexivity.
  - split; repeat constructor; simpl; lia.
Defined.

Lemma every_page_in_a_range_witness :
  let cs := finish (run_loop 1001 200 init Inputs.two_pages) in
  Forall (fun pg =>
            Exists (fun c => exists a b,
                      page_start c = Some a /\ page_end c = Some b
                      /\ a <= fst pg <= b) cs) Inputs.two_pages.
Proof.
  intros cs.
  apply (@every_page_in_a_range Inputs.two_pages 1001 200 cs).
  - vm_compute. reflexivity.
  - split; repeat constructor; simpl; lia.
Defined.

End ChunkerShapeFacts.

(* ------------------------------------------------------------------ *)
(** * The validation of the numbers in [run] *)

Module MainFacts.

Import Chunker Main.
Local Open Scope Z_scope.

(** X5.  Which error [run] gives for which numbers: its own validation
    comes first, with the messages of [ensure_positive_int]; the first
    message of [chunk_pages] is left for [--max-chars 1000] alone, and the
    second one for an overlap that is not below [max_chars], never for a
    negative one.  The pages are chunked exactly when
    [1000 < max_chars] and [0 <= overlap < max_chars]. *)
Theorem run_chunking_errors pages arg_max_chars arg_overlap :
  (run_chunking pages arg_max_chars arg_overlap
   = Raise (ValueError "max-chars must be >= 1000")
   <-> arg_max_chars < 1000)
  /\ (run_chunking pages arg_max_chars arg_overlap
      = Raise (ValueError "overlap must be >= 0")
      <-> 1000 <= arg_max_chars /\ arg_overlap < 0)
  /\ (run_chunking pages arg_max_chars arg_overlap
      = Raise (ValueError "max_chars too small; recommend >= 3000")
      <-> arg_max_chars = 1000 /\ 0 <= arg_overlap)
  /\ (run_chunking pages arg_max_chars arg_overlap
      = Raise (ValueError "overlap must be >=0 and < max_chars")
      <-> 1000 < arg_max_chars <= arg_overlap)
  /\ (run_chunking pages arg_max_chars arg_overlap
      = Ok (finish (run_loop arg_max_chars arg_overlap init pages))
      <-> 1000 < arg_max_chars /\ 0 <= arg_overlap < arg_max_chars).
Proof.
  unfold run_chunking, ensure_positive_int, chunk_pages, bind.
  destruct (Z.ltb_spec arg_max_chars 1000);
    [|destruct (Z.ltb_spec arg_overlap 0);
      [|destruct (Z.leb_spec arg_max_chars 1000);
        [|cbn [orb]; destruct (Z.geb_spec arg_overlap arg_max_chars)]]];
    cbn [orb];
    try (destruct (Z.ltb_spec arg_overlap 0); [lia|]; cbn [orb]);
    repeat split; intros; try lia; try discriminate; try reflexivity.
Qed.

End MainFacts.

(* ------------------------------------------------------------------ *)
(** * Splitting on white space and joining *)

Module PyTextFacts.

Import PyText TextFacts.

#[local] Arguments is_space : simpl never.

Lemma split_from_ink w :
  forallb is_ink w = true ->
  forall word s, split_from word (w ++ s) = split_from (word ++ w) s.
Proof.
  induction w as [|c w IH]; intros Hw word s.
  - now rewrite app_nil_r.
  - cbn [forallb] in Hw. apply andb_true_iff in Hw. destruct Hw as [Hc Hw].
    unfold is_ink in Hc. apply negb_true_iff in Hc.
    cbn [app split_from]. rewrite Hc, IH by assumption.
    now rewrite <- app_assoc.
Qed.

Lemma split_from_words s :
  forall w, forallb is_ink w = true -> Forall word (split_from w s).
Proof.
  induction s as [|c s IH]; intros w Hw; cbn [split_from].
  - destruct w; [constructor|]. constructor; [|constructor].
    split; [discriminate|assumption].
  - destruct (is_space c) eqn:Hc.
    + apply Forall_app. split; [|now apply IH].
      destruct w; [constructor|]. constructor; [|constructor].
      split; [discriminate|assumption].
    + apply IH. rewrite forallb_app, Hw. unfold is_ink. cbn [forallb].
      now rewrite Hc.
Qed.

Lemma split_words s : Forall word (split s).
Proof. now apply split_from_words. Qed.

Lemma join_cons sep x y l : join sep (x :: y :: l) = x ++ sep ++ join sep (y :: l).
Proof. reflexivity. Qed.

(** Splitting undoes joining with a space. *)
Lemma split_from_join ws :
  Forall word ws ->
  forall w, forallb is_ink w = true ->
    split_from w (join (py " ") ws)
    = match ws with
      | [] => if truthy w then [w] else []
      | x :: ws' => (w ++ x) :: ws'
      end.
Proof.
  induction 1 as [|x ws [Hne Hx] Hws IH]; intros w Hw; [reflexivity|].
  destruct ws as [|y ws].
  - cbn [join]. rewrite <- (app_nil_r x) at 1.
    rewrite split_from_ink by assumption. cbn [split_from].
    destruct (w ++ x) eqn:E; [|reflexivity].
    apply app_eq_nil in E. now destruct E.
  - rewrite join_cons, split_from_ink by assumption.
    change (py " " ++ join (py " ") (y :: ws))
      with (32%N :: join (py " ") (y :: ws)).
    cbn [split_from]. change (is_space 32%N) with true. cbv iota.
    rewrite (IH []) by reflexivity. cbn [app].
    destruct (w ++ x) eqn:E; [|reflexivity].
    apply app_eq_nil in E. now destruct E.
Qed.

Lemma split_join ws : Forall word ws -> split (join (py " ") ws) = ws.
Proof.
  intros H. unfold split. rewrite split_from_join by auto.
  now destruct ws.
Qed.

Lemma concat_split_from s :
  forall w, concat (split_from w s) = w ++ filter is_ink s.
Proof.
  induction s as [|c s IH]; intros w; cbn [split_from filter].
  - destruct w; cbn; now rewrite ?app_nil_r.
  - unfold is_ink at 1. destruct (is_space c); cbn [negb].
    + rewrite concat_app, IH. destruct w; cbn; now rewrite ?app_nil_r.
    + rewrite IH. now rewrite <- app_assoc.
Qed.

Lemma filter_ink_word w : forallb is_ink w = true -> filter is_ink w = w.
Proof.
  induction w as [|c w IH]; cbn [forallb filter]; [reflexivity|].
  intros H. apply andb_true_iff in H. destruct H as [-> H]. now rewrite IH.
Qed.

Lemma filter_ink_join ws :
  Forall word ws -> filter is_ink (join (py " ") ws) = concat ws.
Proof.
  induction 1 as [|x ws [Hne Hx] Hws IH]; [reflexivity|].
  destruct ws as [|y ws].
  - cbn [join concat]. rewrite app_nil_r. now apply filter_ink_word.
  - rewrite join_cons, !filter_app, IH, filter_ink_word by assumption.
    reflexivity.
Qed.

(** In a joined text every white space character is one of the single
    spaces between the words. *)
Lemma join_spaces ws :
  Forall word ws ->
  Forall (fun c => is_space c = true -> c = ch " ") (join (py " ") ws).
Proof.
  assert (Hword : forall w, forallb is_ink w = true ->
            Forall (fun c => is_space c = true -> c = ch " ") w).
  { intros w Hw. apply Forall_forall. intros c Hc Hs.
    rewrite forallb_forall in Hw. specialize (Hw c Hc).
    unfold is_ink in Hw. rewrite Hs in Hw. discriminate. }
  induction 1 as [|x ws [Hne Hx] Hws IH]; [constructor|].
  destruct ws as [|y ws]; [now apply Hword|].
  rewrite join_cons. apply Forall_app. split; [now apply Hword|].
  apply Forall_app. split; [|assumption].
  constructor; [reflexivity|constructor].
Qed.

Lemma join_ends ws :
  Forall word ws -> ws <> [] ->
  (exists c t, join (py " ") ws = c :: t /\ is_space c = false)
  /\ (exists t c, join (py " ") ws = t ++ [c] /\ is_space c = false).
Proof.
  induction 1 as [|x ws [Hne Hx] Hws IH]; intros Hn; [congruence|clear Hn].
  assert (Hhead : exists c t, x = c :: t /\ is_space c = false).
  { destruct x as [|c t]; [contradiction|]. exists c, t.
    cbn [forallb] in Hx. apply andb_true_iff in Hx. destruct Hx as [Hc _].
    unfold is_ink in Hc. now apply negb_true_iff in Hc. }
  assert (Hlast : exists t c, x = t ++ [c] /\ is_space c = false).
  { destruct (exists_last Hne) as (t & c & ->). exists t, c.
    rewrite forallb_app in Hx. apply andb_true_iff in Hx.
    destruct Hx as [_ Hc]. cbn [forallb] in Hc. rewrite andb_true_r in Hc.
    unfold is_ink in Hc. now apply negb_true_iff in Hc. }
  destruct ws as [|y ws]; [now split|].
  rewrite join_cons. split.
  - destruct Hhead as (c & t & -> & Hc). now exists c, (t ++ py " " ++ join (py " ") (y :: ws)).
  - destruct IH as [_ (t & c & E & Hc)]; [discriminate|].
    exists (x ++ py " " ++ t), c. rewrite E.
    now rewrite <- !app_assoc.
Qed.

Lemma lstrip_kept p c t : p c = false -> lstrip p (c :: t) = c :: t.
Proof. intros H. cbn [lstrip]. now rewrite H. Qed.

Lemma rstrip_kept p t c : p c = false -> rstrip p (t ++ [c]) = t ++ [c].
Proof.
  intros H. unfold rstrip. rewrite rev_unit, lstrip_kept by assumption.
  cbn [rev]. now rewrite rev_involutive.
Qed.

Lemma strip_join ws :
  Forall word ws -> strip (join (py " ") ws) = join (py " ") ws.
Proof.
  intros H. destruct ws as [|x ws]; [reflexivity|].
  destruct (join_ends H) as [(c & t & E & Hc) (t' & c' & E' & Hc')];
    [discriminate|].
  unfold strip. rewrite E, lstrip_kept by assumption. rewrite <- E, E'.
  now apply rstrip_kept.
Qed.

Lemma join_nil_iff ws : Forall word ws -> join (py " ") ws = [] <-> ws = [].
Proof.
  intros H. split; [|now intros ->].
  destruct ws as [|x ws]; [reflexivity|]. intros E.
  destruct (join_ends H) as [(c & t & E' & _) _]; [discriminate|].
  rewrite E in E'. discriminate.
Qed.

Lemma filter_ink_nil s : filter is_ink s = [] <-> forallb is_space s = true.
Proof.
  induction s as [|c s IH]; cbn [filter forallb]; [tauto|].
  unfold is_ink at 1. destruct (is_space c); cbn [negb andb]; [assumption|].
  split; discriminate.
Qed.

End PyTextFacts.

(* ------------------------------------------------------------------ *)
(** * Properties of the page reader *)

Module PdfReaderFacts.

Import Chunker ChunkerInv ChunkerShape PyText PdfReader TextFacts PyTextFacts.
Local Open Scope Z_scope.

(** X6.  The cleaned text of a page: splitting it again gives the same
    words and cleaning it again changes nothing; every character that is
    not white space is kept, in order; the white space left is single
    [" "] characters between words, none at either end; and the cleaned
    text is empty exactly when the page text is blank. *)
Theorem cleaned_is_normal txt :
  split (cleaned txt) = split txt
  /\ cleaned (cleaned txt) = cleaned txt
  /\ filter is_ink (cleaned txt) = filter is_ink txt
  /\ Forall (fun c => is_space c = true -> c = ch " ") (cleaned txt)
  /\ strip (cleaned txt) = cleaned txt
  /\ (cleaned txt = [] <-> strip txt = []).
Proof.
  pose proof (split_words txt) as Hw.
  assert (Hs : split (cleaned txt) = split txt) by (now apply split_join).
  split; [exact Hs|]. split; [unfold cleaned at 1; now rewrite Hs|].
  split.
  { unfold cleaned. rewrite filter_ink_join by assumption.
    unfold split. now rewrite concat_split_from. }
  split; [now apply join_spaces|]. split; [now apply strip_join|].
  unfold cleaned. rewrite join_nil_iff, strip_blank, <- filter_ink_nil by assumption.
  unfold split in *. pose proof (concat_split_from txt []) as Hc.
  cbn [app] in Hc. rewrite <- Hc.
  split; [now intros ->|]. intros E.
  destruct (split_from [] txt) as [|x ws]; [reflexivity|].
  apply Forall_inv in Hw. destruct Hw as [Hne _].
  cbn [concat] in E. apply app_eq_nil in E. now destruct E.
Qed.

(** ** The loop *)

Lemma fold_step ips :
  forall acc,
    fold_left step ips acc
    = acc ++ map (fun ip => (fst ip, cleaned (text_of (snd ip)))) ips.
Proof.
  induction ips as [|ip ips IH]; intros acc; cbn [fold_left map].
  - now rewrite app_nil_r.
  - rewrite IH. unfold step. now rewrite <- app_assoc.
Qed.

Lemma enumerate_nth {A} (l : list A) :
  forall k i x,
    nth_error l i = Some x ->
    nth_error (Summariser.enumerate k l) i = Some (k + Z.of_nat i, x).
Proof.
  induction l as [|y l IH]; intros k i x; destruct i as [|i];
    cbn [nth_error Summariser.enumerate]; try discriminate.
  - intros [= ->]. now rewrite Z.add_0_r.
  - intros H. rewrite (IH (k + 1) i x H). do 2 f_equal. lia.
Qed.

Lemma enumerate_length {A} (l : list A) :
  forall k, length (Summariser.enumerate k l) = length l.
Proof.
  induction l as [|y l IH]; intros k; cbn; [reflexivity|]. now rewrite IH.
Qed.

Lemma enumerate_fst {A} (l : list A) :
  forall k, map fst (Summariser.enumerate k l) = numbers k (length l).
Proof.
  induction l as [|y l IH]; intros k; cbn; [reflexivity|]. now rewrite IH.
Qed.

Lemma extract_pages_opened ps :
  ps <> [] ->
  extract_pages (Opened ps)
  = inr (map (fun ip => (fst ip, cleaned (text_of (snd ip))))
           (Summariser.enumerate 1 ps)).
Proof.
  intros Hne. unfold extract_pages. rewrite fold_step. cbn [app].
  destruct ps as [|x ps]; [contradiction|]. reflexivity.
Qed.

(** X7.  What [extract_pages] returns and raises.  It returns exactly when
    the document opened, [reader.pages] gave all its pages without raising,
    and there is at least one page; the list then has one entry per page of
    the document, numbered from 1 in order, with the cleaned text of the
    page, which is empty when the extraction of that page failed or gave
    nothing.  It never returns the empty list: a document without pages
    raises [ValueError], as does a failure to open other than
    [FileNotFoundError], which is passed on.  An exception that
    [reader.pages] raises is not caught: it passes through as it is,
    whatever pages were read before it, also when the extraction of every
    one of them had worked. *)
Theorem extract_pages_result pdf :
  match extract_pages pdf with
  | inr pages =>
      exists ps,
        pdf = Opened ps /\ ps <> [] /\ pages <> []
        /\ length pages = length ps
        /\ map fst pages = numbers 1 (length ps)
        /\ forall i x, nth_error ps i = Some x ->
             nth_error pages i = Some (1 + Z.of_nat i, cleaned (text_of x))
  | inl FileNotFoundError => pdf = NotFound
  | inl (ValueError msg) =>
      (pdf = Opened [] /\ msg = "PDF has no extractable text."%string)
      \/ exists e, pdf = OpenFails e /\ msg = ("Failed to open PDF: " ++ e)%string
  | inl (Uncaught e) => exists read, pdf = PagesFail read e
  end.
Proof.
  destruct pdf as [ps|read e| |e];
    [|now exists read|reflexivity|right; now exists e].
  destruct ps as [|x ps]; [left; now split|].
  rewrite extract_pages_opened by discriminate.
  exists (x :: ps). split; [reflexivity|]. split; [discriminate|].
  split; [discriminate|]. split; [|split].
  - now rewrite length_map, enumerate_length.
  - rewrite map_map. cbn [fst]. apply enumerate_fst.
  - intros i y Hi. apply enumerate_nth with (k := 1) in Hi.
    now rewrite nth_error_map, Hi.
Qed.

(** ** From the document to the chunks *)

Lemma numbers_bounds n : forall k x, In x (numbers k n) -> k <= x < k + Z.of_nat n.
Proof.
  induction n as [|n IH]; intros k x; cbn [numbers In]; [contradiction|].
  intros [<- | H]; [lia|]. apply IH in H. lia.
Qed.

Lemma numbers_last n : forall k d, last (numbers k (S n)) d = k + Z.of_nat n.
Proof.
  induction n as [|n IH]; intros k d.
  - cbn. lia.
  - change (last (numbers k (S (S n))) d) with (last (numbers (k + 1) (S n)) d).
    rewrite IH. lia.
Qed.

Lemma numbers_numbered (pages : list Page) :
  forall k, 0 < k -> map fst pages = numbers k (length pages) -> numbered pages.
Proof.
  induction pages as [|pg pages IH]; intros k Hk E.
  - split; constructor.
  - cbn [map length numbers] in E. injection E as E1 E2.
    destruct (IH (k + 1)) as [Hpos Hsorted]; [lia|assumption|].
    split; constructor; try assumption; [lia|].
    apply Forall_forall. intros q Hq.
    apply (in_map fst) in Hq. rewrite E2 in Hq.
    apply numbers_bounds in Hq. lia.
Qed.

Lemma run_chunking_ok pages arg_max_chars arg_overlap cs :
  Main.run_chunking pages arg_max_chars arg_overlap = Ok cs ->
  chunk_pages pages arg_max_chars arg_overlap = Ok cs.
Proof.
  unfold Main.run_chunking, Main.ensure_positive_int, bind.
  destruct (arg_max_chars <? 1000); [discriminate|].
  destruct (arg_overlap <? 0); [discriminate|]. auto.
Qed.

Lemma extract_pages_inr pdf pages :
  extract_pages pdf = inr pages ->
  exists ps,
    pdf = Opened ps /\ ps <> []
    /\ pages = map (fun ip => (fst ip, cleaned (text_of (snd ip))))
                 (Summariser.enumerate 1 ps).
Proof.
  destruct pdf as [ps|read e| |e]; [|discriminate|discriminate|discriminate].
  destruct ps as [|x ps]; [discriminate|].
  rewrite extract_pages_opened by discriminate. intros [= <-].
  exists (x :: ps). split; [reflexivity|]. split; [discriminate|reflexivity].
Qed.

Lemma extract_pages_numbered pdf pages :
  extract_pages pdf = inr pages ->
  pages <> [] /\ map fst pages = numbers 1 (length pages) /\ numbered pages.
Proof.
  intros H. apply extract_pages_inr in H. destruct H as (ps & _ & Hne & ->).
  assert (Hfst : map fst (map (fun ip : Z * extraction =>
                                 (fst ip, cleaned (text_of (snd ip))))
                            (Summariser.enumerate 1 ps))
                 = numbers 1 (length (map (fun ip : Z * extraction =>
                                             (fst ip, cleaned (text_of (snd ip))))
                                        (Summariser.enumerate 1 ps)))).
  { rewrite map_map, length_map, enumerate_length. cbn [fst].
    apply enumerate_fst. }
  split; [|split; [exact Hfst|]].
  - destruct ps; [contradiction|discriminate].
  - apply numbers_numbered with (k := 1); [lia|exact Hfst].
Qed.

(** X8.  [run] from the pages that [extract_pages] returned to the chunks.
    Whenever [extract_pages] returns (the document opened, [reader.pages]
    gave its pages without raising, and there is a page) and the numbers
    are accepted, then, whatever the pages hold and whichever of them fail
    to extract, there is at least one chunk, every chunk carries a range
    [a..b] with [1 <= a <= b <= n] for the [n] pages returned, and the last
    chunk ends on page [n]. *)
Theorem document_page_ranges pdf pages arg_max_chars arg_overlap cs :
  extract_pages pdf = inr pages ->
  Main.run_chunking pages arg_max_chars arg_overlap = Ok cs ->
  cs <> []
  /\ Forall (fun c => exists a b,
               page_start c = Some a /\ page_end c = Some b
               /\ 1 <= a <= b /\ b <= Z.of_nat (length pages)) cs
  /\ forall d, page_end (last cs d) = Some (Z.of_nat (length pages)).
Proof.
  intros Hpdf Hrun. apply run_chunking_ok in Hrun.
  apply ChunkerShapeFacts.chunk_pages_ok_inv in Hrun. destruct Hrun as [_ ->].
  destruct (extract_pages_numbered pdf Hpdf) as (Hne & Hfst & Hnum).
  pose proof (ChunkerShapeFacts.run_loop_range_inv arg_max_chars arg_overlap Hnum) as Hinv.
  assert (Hlast : fst (last pages (0, [])) = Z.of_nat (length pages)).
  { transitivity (last (map fst pages) 0);
      [symmetry; exact (ChunkerShapeFacts.last_of_map fst pages (0, []))|].
    rewrite Hfst.
    destruct pages as [|pg pages]; [contradiction|].
    cbn [length]. rewrite numbers_last. lia. }
  split; [|split].
  - now apply (ChunkerShapeFacts.finish_last_end Inputs.no_chunk Hinv).
  - pose proof (ChunkerShapeFacts.finish_ranged Hinv) as Hall.
    revert Hall. apply Forall_impl. intros c.
    intros (a & b & pa & pb & pre & Hs & He & Hab & Hpa & Ha & Hpb & Hb & _).
    exists a, b. split; [assumption|]. split; [assumption|].
    apply (in_map fst) in Hpb. rewrite Hfst in Hpb.
    apply numbers_bounds in Hpb. lia.
  - intros d.
    destruct (ChunkerShapeFacts.finish_last_end d Hinv Hne) as [_ ->].
    now rewrite Hlast.
Qed.

Lemma document_page_ranges_witness :
  let pages :=
    [(1, repeat (ch "a") 300 ++ py " " ++ repeat (ch "a") 300); (2, []);
     (3, repeat (ch "b") 600)] in
  let cs := finish (run_loop 1001 200 init pages) in
  cs <> []
  /\ Forall (fun c => exists a b,
               page_start c = Some a /\ page_end c = Some b
               /\ 1 <= a <= b /\ b <= Z.of_nat (length pages)) cs
  /\ forall d, page_end (last cs d) = Some (Z.of_nat (length pages)).
Proof.
  intros pages cs.
  apply (@document_page_ranges (Opened MoreInputs.three_extractions)
           pages 1001 200 cs).
  - vm_compute. reflexivity.
  - vm_compute. reflexivity.
Defined.

End PdfReaderFacts.

(* ------------------------------------------------------------------ *)
(** * Substitution of a repeated class *)

Module CollapseFacts.

Import Direct ReFacts Collapse TextFacts PyTextFacts.

Section WithUnicode.
Context {U : UnicodeData}.
Variable p : char -> bool.

Lemma plus_run l s :
  option_map (consumed s) (run (plus p) (mk_pos l s None) Some) = run_len p s.
Proof.
  unfold plus, run_len. simpl. rewrite rep_greedy_last.
  pose proof (span_len_le p s).
  destruct (span_len p s) as [|n]; [reflexivity|].
  cbn [Nat.leb option_map]. now rewrite consumed_skipn.
Qed.

Lemma run_len_bounds s n : run_len p s = Some n -> (1 <= n <= length s)%nat.
Proof.
  unfold run_len. pose proof (span_len_le p s).
  destruct (span_len p s); [discriminate|]. intros [= <-]. lia.
Qed.

Lemma collapse_in_run repl s :
  collapse_from p repl true s
  = collapse_from p repl false (skipn (span_len p s) s).
Proof.
  induction s as [|c s IH]; [reflexivity|].
  cbn [collapse_from span_len]. destruct (p c) eqn:E.
  - cbn [app skipn]. exact IH.
  - cbn [skipn collapse_from]. now rewrite E.
Qed.

Lemma scan_collapse repl n :
  forall l s, (length s <= n)%nat ->
    flat_map (fun t => match t with Hit _ => repl | Lit c => [c] end)
      (scan (plus p) l s 0)
    = collapse_from p repl false s.
Proof.
  induction n as [|n IH]; intros l s Hlen.
  - destruct s; [|simpl in Hlen; lia].
    now rewrite (@scan_nil _ (plus p) (run_len p) plus_run run_len_bounds).
  - destruct s as [|c s];
      [now rewrite (@scan_nil _ (plus p) (run_len p) plus_run run_len_bounds)|].
    destruct (run_len p (c :: s)) as [k|] eqn:Hm.
    + rewrite (@scan_hit _ (plus p) (run_len p) plus_run run_len_bounds l _ _ Hm). cbn [flat_map].
      pose proof (@run_len_bounds _ _ Hm) as Hk.
      rewrite IH by (rewrite length_skipn; cbn [length] in *; lia).
      unfold run_len in Hm. cbn [span_len collapse_from] in *.
      destruct (p c); [|discriminate]. injection Hm as <-.
      cbn [skipn]. now rewrite collapse_in_run.
    + rewrite (@scan_miss _ (plus p) (run_len p) plus_run l _ _ Hm). cbn [flat_map app].
      rewrite IH by (simpl in Hlen; lia).
      unfold run_len in Hm. cbn [span_len collapse_from] in *.
      destruct (p c); [discriminate|reflexivity].
Qed.

(** [re.sub] of [p+] collapses every run of the class. *)
Lemma sub_plus repl s : sub (plus p) repl s = collapse p repl s.
Proof. unfold sub, tokens. now apply scan_collapse with (n := length s). Qed.

End WithUnicode.

(** ** Collapsing white space *)

Section Spaces.
Variable p : char -> bool.
Variable r : char.
Hypothesis p_r : p r = true.

Lemma collapse_head b c t :
  p c = false -> collapse_from p [r] b (c :: t) = c :: collapse_from p [r] false t.
Proof. intros H. cbn [collapse_from]. now rewrite H. Qed.

Lemma collapse_last s c :
  p c = false ->
  forall b, collapse_from p [r] b (s ++ [c]) = collapse_from p [r] b s ++ [c].
Proof.
  intros Hc. induction s as [|d s IH]; intros b; cbn [app collapse_from].
  - now rewrite Hc.
  - destruct (p d); rewrite IH; [|reflexivity]. now rewrite app_assoc.
Qed.

Lemma collapse_nil_iff s : collapse p [r] s = [] <-> s = [].
Proof.
  unfold collapse. destruct s as [|c s]; [tauto|]. cbn [collapse_from].
  destruct (p c); split; discriminate.
Qed.

Lemma collapse_true_head s : next_is p (collapse_from p [r] true s) = false.
Proof.
  induction s as [|c s IH]; [reflexivity|]. cbn [collapse_from].
  destruct (p c) eqn:E; [exact IH|]. cbn [next_is]. exact E.
Qed.

Lemma no_pair_cons c s :
  no_pair p (c :: s) = negb (p c && next_is p s) && no_pair p s.
Proof. destruct s; cbn [no_pair next_is]; now rewrite ?andb_false_r. Qed.

Lemma collapse_no_pair s : forall b, no_pair p (collapse_from p [r] b s) = true.
Proof.
  induction s as [|c s IH]; intros b; [reflexivity|]. cbn [collapse_from].
  destruct (p c) eqn:E.
  - destruct b; cbn [app]; [apply IH|].
    now rewrite no_pair_cons, collapse_true_head, andb_false_r, IH.
  - now rewrite no_pair_cons, E, IH.
Qed.

Lemma collapse_chars s :
  forall b, Forall (fun c => p c = true -> c = r) (collapse_from p [r] b s).
Proof.
  induction s as [|c s IH]; intros b; [constructor|]. cbn [collapse_from].
  destruct (p c) eqn:E.
  - apply Forall_app. split; [|apply IH].
    destruct b; constructor; auto.
  - constructor; [|apply IH]. intros H. congruence.
Qed.

Lemma collapse_kept s :
  forall b,
    filter (fun c => negb (p c)) (collapse_from p [r] b s)
    = filter (fun c => negb (p c)) s.
Proof.
  induction s as [|c s IH]; intros b; [reflexivity|].
  cbn [collapse_from filter]. destruct (p c) eqn:E; cbn [negb].
  - rewrite filter_app, IH. destruct b; cbn [filter]; [reflexivity|].
    now rewrite p_r.
  - cbn [filter]. now rewrite E, IH.
Qed.

End Spaces.

(** What [strip] leaves is empty, or begins and ends with a character that
    is not white space. *)
Lemma strip_ends s :
  strip s = []
  \/ (exists c t, strip s = c :: t /\ is_space c = false)
     /\ (exists t c, strip s = t ++ [c] /\ is_space c = false).
Proof.
  unfold strip. set (u := lstrip is_space s).
  destruct (rstrip_split is_space u) as (junk & Hu & _ & Hlast).
  destruct (rstrip is_space u) as [|c t] eqn:E; [now left|right]. split.
  - exists c, t. split; [reflexivity|].
    apply lstrip_head with (s := s) (t := t ++ junk). fold u. now rewrite Hu.
  - destruct (@exists_last _ (c :: t)) as (t' & c' & E'); [discriminate|].
    exists t', c'. split; [assumption|]. now apply (Hlast t').
Qed.

Lemma strip_fixed s c t t' c' :
  s = c :: t -> s = t' ++ [c'] -> is_space c = false -> is_space c' = false ->
  strip s = s.
Proof.
  intros E E' Hc Hc'. unfold strip.
  rewrite E, lstrip_kept by assumption. rewrite <- E, E'.
  now apply rstrip_kept.
Qed.

(** Collapsing the white space of a stripped text leaves a single-spaced
    text. *)
Lemma collapse_strip_single_spaced s :
  single_spaced (collapse is_space (py " ") (strip s)).
Proof.
  unfold single_spaced, collapse.
  split; [|split; [apply collapse_chars with (r := ch " ")
                  |apply collapse_no_pair with (r := ch " ")]].
  destruct (strip_ends s) as [-> | [(c & t & E & Hc) (t' & c' & E' & Hc')]];
    [reflexivity|].
  apply strip_fixed with (c := c) (c' := c')
    (t := collapse_from is_space (py " ") false t)
    (t' := collapse_from is_space (py " ") false t'); try assumption.
  - rewrite E. now apply collapse_head.
  - rewrite E'. now apply collapse_last.
Qed.

End CollapseFacts.

(* ------------------------------------------------------------------ *)
(** * Properties of the points *)

Module PointsFacts.

Import Direct TextFacts ReFacts PyText PyTextFacts Collapse CollapseFacts.
Import Summariser SummariserFacts Points.
Local Open Scope Z_scope.

#[local] Arguments is_space : simpl never.
#[local] Arguments is_linebreak : simpl never.
#[local] Arguments N.eqb : simpl never.
#[local] Arguments ch : simpl never.

Ltac ranges :=
  unfold is_int_char, is_space, is_linebreak, is_ascii, in_range in *;
  rewrite ?orb_true_iff, ?andb_true_iff, ?N.leb_le, ?N.eqb_eq, ?N.ltb_lt in *.

Lemma linebreak_space c : is_linebreak c = true -> is_space c = true.
Proof. ranges. lia. Qed.

Lemma int_char_ink c : is_int_char c = true -> is_space c = false.
Proof.
  intros H. apply not_true_iff_false. intros Hs. revert H Hs. ranges. lia.
Qed.

(** ** [str(n)] *)

Lemma uint_chars d : forallb is_int_char (py (NilEmpty.string_of_uint d)) = true.
Proof. induction d; cbn; auto. Qed.

Lemma str_of_int_chars n : forallb is_int_char (str_of_int n) = true.
Proof.
  unfold str_of_int. destruct (Z.to_int n) as [d|d]; cbn.
  - destruct d; try reflexivity; apply (uint_chars (_ d)).
  - destruct d; try reflexivity; apply (uint_chars (_ d)).
Qed.

Section WithUnicode.
Context {U : UnicodeData}.

Lemma uint_head d :
  d <> Decimal.Nil ->
  exists c rest, py (NilEmpty.string_of_uint d) = c :: rest /\ is_decimal c = true.
Proof.
  destruct d; [contradiction| | | | | | | | | |]; intros _; cbn;
    eexists; eexists; (split; [reflexivity|reflexivity]).
Qed.

(** [str(n)] of a number that is not negative begins with a decimal
    digit. *)
Lemma str_of_int_head n :
  0 <= n -> exists c rest, str_of_int n = c :: rest /\ is_decimal c = true.
Proof.
  intros Hn. unfold str_of_int. destruct n as [|q|q]; [| |lia].
  - cbn. eexists; eexists; split; reflexivity.
  - cbn [Z.to_int NilZero.string_of_int NilZero.string_of_uint].
    pose proof (DecimalPos.Unsigned.to_uint_nonnil q) as Hq.
    destruct (Pos.to_uint q) eqn:E; try contradiction;
      cbn; eexists; eexists; (split; [reflexivity|reflexivity]).
Qed.

(** ** Points *)

Lemma sub_spaces s : sub re_spaces (py " ") s = collapse is_space (py " ") s.
Proof. apply sub_plus. Qed.

Lemma point_of_stripped s :
  strip s <> [] -> point (py "- " ++ sub re_spaces (py " ") (strip s)).
Proof.
  intros Hne. exists (collapse is_space (py " ") (strip s)).
  split; [f_equal; apply sub_spaces|]. split.
  - intros E. change (py " ") with [ch " "] in E.
    now apply collapse_nil_iff in E.
  - apply collapse_strip_single_spaced.
Qed.

Lemma In_slice_to {A} k (l : list A) x : In x (slice_to k l) -> In x l.
Proof.
  unfold slice_to. destruct (k <? 0); intros H;
    match type of H with
    | In _ (firstn ?n _) => rewrite <- (firstn_skipn n l)
    end; apply in_or_app; now left.
Qed.

Lemma extract_bullets_points raw b : In b (extract_bullets raw) -> point b.
Proof.
  intros H. unfold extract_bullets in H. apply in_flat_map in H.
  destruct H as (ln & _ & H).
  destruct (match_ BULLET_LINE ln) as [m|]; [|contradiction].
  cbv zeta in H.
  destruct (truthy (sub re_spaces (py " ") (strip (group_text m)))) eqn:T;
    [|contradiction].
  destruct H as [<- | []]. apply point_of_stripped.
  intros E. rewrite E in T. discriminate T.
Qed.

Lemma top_sentences_points text k b : In b (top_sentences text k) -> point b.
Proof.
  intros H. unfold top_sentences in H. apply in_map_iff in H.
  destruct H as (x & <- & H). apply In_slice_to in H.
  apply (Permutation_in _ (SortFacts.sorted_perm _ _ _ _)) in H.
  apply (Permutation_in _ (SortFacts.sorted_perm _ _ _ _)) in H.
  apply in_flat_map in H. destruct H as (s & _ & H).
  destruct (truthy (strip s)) eqn:T; [|contradiction].
  destruct H as [<- | []]. cbn [snd]. apply point_of_stripped.
  intros E. rewrite E in T. discriminate T.
Qed.

(** X9.  Every point that [_extract_bullets] or [_top_sentences] returns
    is ["- "] followed by a text that is not empty, has no white space at
    either end, and inside only single [" "] characters. *)
Theorem points_are_single_spaced raw text k b :
  In b (extract_bullets raw) \/ In b (top_sentences text k) ->
  exists pt,
    b = py "- " ++ pt /\ pt <> []
    /\ strip pt = pt
    /\ Forall (fun c => is_space c = true -> c = ch " ") pt
    /\ no_pair is_space pt = true.
Proof.
  intros [H | H].
  - apply extract_bullets_points in H. exact H.
  - apply top_sentences_points in H. exact H.
Qed.

(** ** Bullets *)

Lemma page_tag_shape start_page end_page :
  exists mid,
    page_tag start_page end_page = py " [p." ++ str_of_int start_page ++ mid ++ py "]"
    /\ forallb is_int_char mid = true.
Proof.
  unfold page_tag. destruct (start_page =? end_page).
  - now exists [].
  - exists (py "-" ++ str_of_int end_page). split.
    + now rewrite <- !app_assoc.
    + rewrite forallb_app. now rewrite str_of_int_chars.
Qed.

Lemma int_chars_inline s :
  forallb is_int_char s = true ->
  forallb (fun c => negb (is_linebreak c)) s = true.
Proof.
  intros H. apply forallb_forall. intros c Hc.
  rewrite forallb_forall in H. specialize (H c Hc).
  apply int_char_ink in H. apply negb_true_iff.
  apply not_true_iff_false. intros Hl. apply linebreak_space in Hl. congruence.
Qed.

Lemma page_tag_inline start_page end_page :
  forallb (fun c => negb (is_linebreak c)) (page_tag start_page end_page) = true.
Proof.
  destruct (page_tag_shape start_page end_page) as (mid & -> & Hmid).
  rewrite !forallb_app.
  rewrite (int_chars_inline _ (str_of_int_chars start_page)).
  rewrite (int_chars_inline _ Hmid). reflexivity.
Qed.

Lemma point_one_line b : point b -> one_line b.
Proof.
  intros (pt & -> & Hne & Hstrip & Hchars & _). split; [|split].
  - now exists pt.
  - rewrite forallb_app. apply andb_true_iff. split; [reflexivity|].
    apply forallb_forall. intros c Hc. rewrite Forall_forall in Hchars.
    specialize (Hchars c Hc). apply negb_true_iff.
    apply not_true_iff_false. intros Hl. pose proof (linebreak_space _ Hl) as Hs.
    rewrite (Hchars Hs) in Hl. discriminate Hl.
  - destruct (strip_ends pt) as [E | [_ (t & c & E & Hc)]];
      rewrite Hstrip in E; [contradiction|].
    apply strip_fixed with (c := ch "-") (t := ch " " :: pt)
      (t' := py "- " ++ t) (c' := c); auto.
    rewrite E. now rewrite <- app_assoc.
Qed.

(** The periods that [_ensure_tag] strips are behind the ["- "]. *)
Lemma body_keeps_dash rest body n :
  py "- " ++ rest = body ++ repeat (ch ".") n ->
  exists rest', body = py "- " ++ rest'.
Proof.
  intros E. destruct body as [|x [|y body]].
  - destruct n; discriminate E.
  - injection E as <- E. destruct n; discriminate E.
  - injection E as <- <- _. now exists body.
Qed.

Lemma ensure_tag_one_line start_page end_page b :
  one_line b -> one_line (ensure_tag (page_tag start_page end_page) b).
Proof.
  intros Hb. destruct (any_at tag_at b) eqn:T.
  - now rewrite ensure_tag_tagged.
  - destruct (ensure_tag_untagged (page_tag start_page end_page) b T)
      as (n & body & E & _ & ->).
    destruct Hb as ((rest & Hrest) & Hline & _).
    rewrite Hrest in E. destruct (@body_keeps_dash _ _ _ E) as (rest' & ->).
    split; [|split].
    + exists (rest' ++ page_tag start_page end_page). now rewrite <- app_assoc.
    + rewrite Hrest, E, forallb_app in Hline.
      apply andb_true_iff in Hline. destruct Hline as [Hline _].
      rewrite forallb_app, Hline. apply page_tag_inline.
    + destruct (page_tag_shape start_page end_page) as (mid & Etag & _).
      apply strip_fixed with (c := ch "-")
        (t := ch " " :: rest' ++ page_tag start_page end_page)
        (t' := (py "- " ++ rest') ++ py " [p." ++ str_of_int start_page ++ mid)
        (c' := ch "]"); auto.
      rewrite Etag. now rewrite <- !app_assoc.
Qed.

Lemma extract_one_line raw text_in start_page end_page b :
  In b (extract raw text_in start_page end_page) -> one_line b.
Proof.
  unfold extract. intros H. apply in_map_iff in H.
  destruct H as (b0 & <- & H). apply ensure_tag_one_line, point_one_line.
  destruct (truthy (extract_bullets raw));
    [now apply extract_bullets_points in H|now apply top_sentences_points in H].
Qed.

(** ** The page tag is recognised *)

Lemma ensure_tag_recognised start_page end_page b :
  0 <= start_page ->
  any_at tag_at (ensure_tag (page_tag start_page end_page) b) = true.
Proof.
  intros Hs. destruct (any_at tag_at b) eqn:T.
  - now rewrite ensure_tag_tagged.
  - destruct (ensure_tag_untagged (page_tag start_page end_page) b T)
      as (n & body & _ & _ & ->).
    destruct (page_tag_shape start_page end_page) as (mid & -> & _).
    destruct (str_of_int_head Hs) as (d & rest & -> & Hd).
    apply tagged_iff. exists (body ++ py " "), d, (rest ++ mid ++ py "]").
    split; [|assumption]. now rewrite <- !app_assoc.
Qed.

Lemma extract_tagged raw text_in start_page end_page b :
  0 <= start_page ->
  In b (extract raw text_in start_page end_page) ->
  search re_tag b = true /\ forall tag, ensure_tag tag b = b.
Proof.
  intros Hs H. unfold extract in H. apply in_map_iff in H.
  destruct H as (b0 & <- & _).
  pose proof (ensure_tag_recognised end_page b0 Hs) as T.
  split; [now rewrite search_tag|].
  intros tag. now apply ensure_tag_tagged.
Qed.

(** ** The loop, chunk by chunk *)

Section Loop.
Variable B : Type.
Variable generate : str -> str -> Q -> B -> outcome * B.
Variables (model prompt_template : str) (temperature : Q).

Abbreviation replies := (replies generate model prompt_template temperature).
Abbreviation run_loop verbose :=
  (run_loop generate model prompt_template temperature verbose).
Abbreviation summarise client chunks verbose :=
  (summarise_chunks generate client model prompt_template chunks temperature
     verbose).

(** The chunks that are not blank. *)
Abbreviation inked :=
  (filter (fun c : Chunk => truthy (strip (fst (fst c))))).

Lemma summarise_loop_cons verbose st ic ics :
  run_loop verbose st (ic :: ics)
  = run_loop verbose
      (step generate model prompt_template temperature verbose st ic) ics.
Proof. reflexivity. Qed.

Lemma run_loop_replies verbose cs :
  forall st k,
    bullets (run_loop verbose st (enumerate k cs))
    = bullets st ++ flat_map points_of (fst (replies (backend st) cs))
    /\ backend (run_loop verbose st (enumerate k cs))
       = snd (replies (backend st) cs).
Proof.
  induction cs as [|[[text start_page] end_page] cs IH]; intros st k.
  - cbn. now rewrite app_nil_r.
  - cbn [enumerate Points.replies]. rewrite summarise_loop_cons.
    destruct (truthy (strip text)) eqn:T.
    + assert (Hne : strip text <> []) by (intros E; rewrite E in T; discriminate T).
      rewrite step_processed by assumption.
      destruct (generate model
                  (format_prompt prompt_template (strip text) start_page end_page)
                  temperature (backend st)) as [answer b'] eqn:Ecall.
      cbn [fst snd].
      match goal with
      | |- context [run_loop verbose ?st' _] =>
          destruct (IH st' (k + 1)) as [IHb IHk]
      end.
      cbn [bullets backend] in IHb, IHk. rewrite IHb, IHk.
      destruct (replies b' cs) as [l b'']. cbn [fst snd flat_map points_of].
      now rewrite <- app_assoc.
    + apply ChunkerFacts.truthy_false in T.
      assert (Hblank : forallb is_space text = true) by (now apply strip_blank).
      rewrite step_blank by assumption.
      destruct (IH (say verbose st [MsgEmpty k]) (k + 1)) as [IHb IHk].
      rewrite say_bullets, say_backend in IHb. rewrite say_backend in IHk.
      now split.
Qed.

Lemma replies_chunks cs : forall b, map fst (fst (replies b cs)) = inked cs.
Proof.
  induction cs as [|[[text start_page] end_page] cs IH]; intros b; [reflexivity|].
  cbn [Points.replies filter fst]. destruct (truthy (strip text)); [|apply IH].
  destruct (generate _ _ _ _) as [answer b'].
  specialize (IH b'). destruct (replies b' cs) as [l b''].
  cbn [fst map] in *. now rewrite IH.
Qed.

Lemma run_loop_quiet ics :
  forall st, printed (run_loop false st ics) = printed st.
Proof.
  induction ics as [|[idx [[text start_page] end_page]] ics IH]; intros st;
    [reflexivity|].
  rewrite summarise_loop_cons, IH.
  destruct (strip text) as [|x t] eqn:E.
  - apply strip_blank in E. now rewrite step_blank.
  - assert (Hne : strip text <> []) by (rewrite E; discriminate).
    rewrite step_processed by assumption. cbn [printed]. apply app_nil_r.
Qed.

(** X12.  [summarise_chunks] without the loop.  The backend is called once
    for every chunk whose text is not blank, in the order of the chunks,
    with the prompt made of the stripped text and the page numbers; blank
    chunks cause no call.  The bullets returned are the points of these
    chunks in the same order.  Neither depends on [verbose], and without
    [verbose] nothing is printed. *)
Theorem summarise_chunks_by_chunk client chunks verbose :
  bullets (summarise client chunks verbose)
  = flat_map points_of (fst (replies client chunks))
  /\ backend (summarise client chunks verbose) = snd (replies client chunks)
  /\ map fst (fst (replies client chunks)) = inked chunks
  /\ printed (summarise client chunks false) = [].
Proof.
  unfold summarise_chunks.
  destruct (run_loop_replies verbose chunks (mk_state [] [] client) 1) as [Hb Hk].
  split; [exact Hb|]. split; [exact Hk|]. split; [apply replies_chunks|].
  apply run_loop_quiet.
Qed.

Lemma points_of_one_line ca b : In b (points_of ca) -> one_line b.
Proof. destruct ca as [[[text s] e] answer]. apply extract_one_line. Qed.

Lemma points_of_tagged ca b :
  0 <= snd (fst (fst ca)) -> In b (points_of ca) ->
  search re_tag b = true /\ forall tag, ensure_tag tag b = b.
Proof. destruct ca as [[[text s] e] answer]. apply extract_tagged. Qed.

(** What holds for the points of every chunk that was answered holds for
    the bullets. *)
Lemma Forall_bullets (P : str -> Prop) client chunks verbose :
  (forall ca, In ca (fst (replies client chunks)) ->
     forall b, In b (points_of ca) -> P b) ->
  Forall P (bullets (summarise client chunks verbose)).
Proof.
  intros H. unfold summarise_chunks.
  destruct (run_loop_replies verbose chunks (mk_state [] [] client) 1) as [-> _].
  cbn [bullets backend app]. apply Forall_forall. intros b Hb.
  apply in_flat_map in Hb. destruct Hb as (ca & Hca & Hb). eauto.
Qed.

Lemma replies_In ca b cs : In ca (fst (replies b cs)) -> In (fst ca) cs.
Proof.
  intros H. apply (in_map fst) in H. rewrite replies_chunks in H.
  apply filter_In in H. now destruct H.
Qed.

(** X10.  Every bullet that [summarise_chunks] returns begins with
    ["- "], holds no line boundary of [str.splitlines], and has no white
    space at either end: whatever the model wrote and whatever the chunk
    texts are. *)
Theorem summarise_chunks_gives_lines client chunks verbose :
  Forall (fun b =>
            (exists rest, b = py "- " ++ rest)
            /\ forallb (fun c => negb (is_linebreak c)) b = true
            /\ strip b = b)
    (bullets (summarise client chunks verbose)).
Proof.
  apply Forall_bullets. intros ca _ b Hb.
  apply points_of_one_line in Hb. exact Hb.
Qed.

(** X11.  When no chunk has a negative start page, every bullet that
    [summarise_chunks] returns holds a page tag that [_ensure_tag]
    recognises, so tagging it again, with any tag, leaves it as it is. *)
Theorem summarise_chunks_gives_tagged client chunks verbose :
  Forall (fun c : Chunk => 0 <= snd (fst c)) chunks ->
  Forall (fun b => search re_tag b = true /\ forall tag, ensure_tag tag b = b)
    (bullets (summarise client chunks verbose)).
Proof.
  intros Hpages. apply Forall_bullets. intros ca Hca b Hb.
  apply replies_In in Hca. rewrite Forall_forall in Hpages.
  apply (points_of_tagged ca); auto.
Qed.

End Loop.

(** ** The points file, read back by the ranker *)

Lemma splitlines_from_line b :
  forallb (fun c => negb (is_linebreak c)) b = true ->
  forall cur rest,
    splitlines_from cur (b ++ nl :: rest)
    = (rev cur ++ b) :: splitlines_from [] rest.
Proof.
  induction b as [|c b IH]; intros Hb cur rest.
  - cbn [app splitlines_from]. change (is_linebreak nl) with true. cbv iota.
    rewrite app_nil_r. destruct rest; reflexivity.
  - cbn [forallb] in Hb. apply andb_true_iff in Hb. destruct Hb as [Hc Hb].
    apply negb_true_iff in Hc. cbn [app splitlines_from]. rewrite Hc.
    rewrite IH by assumption. cbn [rev]. now rewrite <- app_assoc.
Qed.

Lemma points_text_cons b bs : points_text (b :: bs) = b ++ nl :: points_text bs.
Proof.
  unfold points_text. destruct bs as [|b' bs]; [reflexivity|].
  rewrite join_cons. cbn [truthy]. now rewrite <- !app_assoc.
Qed.

Lemma splitlines_points_text bs :
  Forall one_line bs -> splitlines (points_text bs) = bs.
Proof.
  induction 1 as [|b bs (_ & Hb & _) Hbs IH]; [reflexivity|].
  rewrite points_text_cons. unfold splitlines in *.
  rewrite splitlines_from_line by assumption. cbn [rev app]. now rewrite IH.
Qed.

Lemma scored_points_lines bs :
  Forall one_line bs ->
  Ranker.scored_points (points_text bs)
  = map (fun p => (p, Ranker.score_value p)) bs.
Proof.
  intros H. unfold Ranker.scored_points.
  rewrite splitlines_points_text by assumption. f_equal.
  induction H as [|b bs ((rest & Hrest) & _ & Hstrip) Hbs IH]; [reflexivity|].
  cbn [flat_map]. rewrite Hstrip, IH. rewrite Hrest. reflexivity.
Qed.

(** X13.  The points file that [run] writes holds the bullets one on a
    line, and [rank_points] reads back exactly these bullets: the list it
    scores is the list [summarise_chunks] returned, in that order, with no
    bullet split, merged, trimmed or dropped. *)
Theorem points_file_read_back B generate (client : B) model prompt_template
    chunks temperature verbose :
  let pieces :=
    bullets (summarise_chunks generate client model prompt_template chunks
               temperature verbose) in
  splitlines (points_text pieces) = pieces
  /\ Ranker.scored_points (points_text pieces)
     = map (fun p => (p, Ranker.score_value p)) pieces.
Proof.
  intros pieces.
  assert (H : Forall one_line pieces).
  { apply Forall_bullets. intros ca _ b. apply points_of_one_line. }
  split; [now apply splitlines_points_text|now apply scored_points_lines].
Qed.

(** ** No chunk that is read leaves without a bullet *)

Abbreviation hit_is_space :=
  (fun t => match t with Hit m => forallb is_space m = true | Lit _ => True end).
Abbreviation token_text :=
  (fun t => match t with Hit m => m | Lit c => [c] end).

Lemma run_after_lookbehind positive width r r2 st k x :
  run (Cat (LookBehind positive width r) r2) st k = Some x ->
  run r2 st k = Some x.
Proof.
  cbn [run].
  match goal with |- context [if ?c then _ else _] => destruct c end;
    [auto|discriminate].
Qed.

(** A match of [_SENTENCE] is one white space character. *)
Lemma sentence_run l s st' :
  run SENTENCE (mk_pos l s None) Some = Some st' ->
  exists c, s = c :: after st' /\ is_space c = true.
Proof.
  unfold SENTENCE, seq. cbn [fold_right]. intros H.
  do 3 apply run_after_lookbehind in H.
  cbn [run after before group] in H. destruct s as [|c s]; [discriminate|].
  destruct (is_space c) eqn:E; [|discriminate].
  injection H as <-. now exists c.
Qed.

Lemma scan_sentence_hits s :
  forall l k, Forall hit_is_space (scan SENTENCE l s k).
Proof.
  induction s as [|c s IH]; intros l k.
  - destruct k; cbn [scan]; [|constructor].
    destruct (run SENTENCE _ Some); repeat constructor.
  - destruct k as [|k]; [|apply IH].
    unfold scan; fold scan.
    destruct (run SENTENCE (mk_pos l (c :: s) None) Some) as [st'|] eqn:E.
    + apply sentence_run in E. destruct E as (c' & E & Hc).
      injection E as <- <-.
      replace (length (c :: s) - length s)%nat with 1%nat
        by (cbn [length]; lia).
      cbn [firstn pred app]. constructor; [|apply IH].
      cbn [forallb]. now rewrite Hc.
    + constructor; [exact I|apply IH].
Qed.

(** The tokens of a scan spell the text. *)
Lemma scan_text r s :
  forall l k, flat_map token_text (scan r l s k) = skipn k s.
Proof.
  induction s as [|c s IH]; intros l k.
  - destruct k; cbn [scan skipn]; [|reflexivity].
    destruct (run r _ Some); reflexivity.
  - destruct k as [|k]; [|apply IH].
    unfold scan; fold scan.
    destruct (run r (mk_pos l (c :: s) None) Some) as [st'|].
    + set (n := (length (c :: s) - length (after st'))%nat).
      cbn [flat_map skipn]. destruct n as [|n].
      * cbn [firstn app flat_map]. now rewrite IH.
      * cbn [firstn app pred]. rewrite IH. f_equal. apply firstn_skipn.
    + cbn [flat_map app skipn]. now rewrite IH.
Qed.

Lemma pieces_blank ts :
  Forall hit_is_space ts ->
  forall cur,
    Forall (fun piece => forallb is_space piece = true) (pieces cur ts) ->
    forallb is_space (rev cur ++ flat_map token_text ts) = true.
Proof.
  induction 1 as [|t ts Ht Hts IH]; intros cur Hp.
  - cbn [pieces flat_map] in *. rewrite app_nil_r. now apply Forall_inv in Hp.
  - destruct t as [c|m]; cbn [pieces flat_map] in *.
    + specialize (IH (c :: cur) Hp). cbn [rev] in IH.
      now rewrite <- app_assoc in IH.
    + inversion Hp as [|? ? Hcur Hrest]; subst.
      specialize (IH [] Hrest). cbn [rev app] in IH.
      now rewrite !forallb_app, Hcur, Ht, IH.
Qed.

(** A text that is not blank has a sentence that is not blank. *)
Lemma split_sentence_inked text :
  forallb is_space text = false ->
  exists s, In s (Re.split SENTENCE text) /\ strip s <> [].
Proof.
  intros Htext. unfold Re.split, tokens.
  pose proof (scan_sentence_hits text [] 0) as Hhits.
  pose proof (scan_text SENTENCE text [] 0) as Htoks. cbn [skipn] in Htoks.
  pose proof (@pieces_blank _ Hhits []) as Hblank.
  cbn [rev app] in Hblank. rewrite Htoks in Hblank.
  destruct (Forall_Exists_dec (fun piece => forallb is_space piece = true)
              (fun piece => bool_dec (forallb is_space piece) true)
              (pieces [] (scan SENTENCE [] text 0))) as [Hall | Hex].
  - rewrite (Hblank Hall) in Htext. discriminate Htext.
  - apply Exists_exists in Hex. destruct Hex as (s & Hs & Hne).
    exists s. split; [assumption|]. intros E. apply strip_blank in E.
    contradiction.
Qed.

Lemma top_sentences_inked text k :
  0 < k -> forallb is_space text = false -> top_sentences text k <> [].
Proof.
  intros Hk Htext. destruct (split_sentence_inked text Htext) as (s & Hs & Hne).
  unfold top_sentences.
  set (scored := flat_map _ (Re.split SENTENCE text)).
  assert (Hin : In (sentence_score (strip s), strip s) scored).
  { apply in_flat_map. exists s. split; [assumption|].
    destruct (strip s); [contradiction|]. now left. }
  set (ranked := sorted Qltb fst true (sorted str_ltb snd false scored)).
  assert (Hlen : length ranked = length scored).
  { unfold ranked.
    rewrite (Permutation_length (SortFacts.sorted_perm _ _ _ _)).
    apply (Permutation_length (SortFacts.sorted_perm _ _ _ _)). }
  intros E. apply (f_equal (@length _)) in E. rewrite length_map in E.
  unfold slice_to in E. destruct (Z.ltb_spec k 0); [lia|].
  rewrite length_firstn, Hlen in E. cbn [length] in E.
  destruct scored; [contradiction|]. cbn [length] in E. lia.
Qed.

Lemma extract_inked raw text_in start_page end_page :
  forallb is_space text_in = false ->
  extract raw text_in start_page end_page <> [].
Proof.
  intros Htext. unfold extract. intros E. apply map_eq_nil in E.
  destruct (extract_bullets raw); cbn [truthy] in E; [|discriminate].
  revert E. apply top_sentences_inked; [lia|assumption].
Qed.

Lemma strip_inked s : strip s <> [] -> forallb is_space (strip s) = false.
Proof.
  intros Hne. destruct (strip_ends s) as [E | [(c & t & E & Hc) _]];
    [contradiction|].
  rewrite E. cbn [forallb]. now rewrite Hc.
Qed.

Lemma flat_map_length_le {A C} (f : A -> list C) l :
  (forall x, In x l -> f x <> []) -> (length l <= length (flat_map f l))%nat.
Proof.
  induction l as [|x l IH]; intros H; cbn [flat_map length]; [lia|].
  rewrite length_app.
  assert (Hx : f x <> []) by (apply H; now left).
  assert (Hl : (length l <= length (flat_map f l))%nat)
    by (apply IH; intros y Hy; apply H; now right).
  destruct (f x); [contradiction|]. cbn [length]. lia.
Qed.

Lemma bullets_count B generate (client : B) model prompt_template
    chunks temperature verbose :
  (length (filter (fun c : Chunk => truthy (strip (fst (fst c)))) chunks)
   <= length (bullets (summarise_chunks generate client model prompt_template
                         chunks temperature verbose)))%nat.
Proof.
  unfold summarise_chunks.
  destruct (run_loop_replies generate model prompt_template temperature
              verbose chunks (mk_state [] [] client) 1) as [-> _].
  cbn [bullets backend app].
  rewrite <- (replies_chunks generate model prompt_template temperature
                chunks client), length_map.
  apply flat_map_length_le. intros [[[text s] e] answer] Hin.
  apply (in_map fst) in Hin. rewrite replies_chunks in Hin.
  apply filter_In in Hin. destruct Hin as [_ Hin]. cbn [fst] in Hin.
  cbn [points_of]. apply extract_inked, strip_inked.
  intros E. rewrite E in Hin. discriminate Hin.
Qed.

(** X14.  Every chunk whose text is not blank adds at least one bullet,
    whatever the backend answers and also when it fails: there are at least
    as many bullets as such chunks, and no bullet at all only when every
    chunk is blank. *)
Theorem every_chunk_gives_a_bullet B generate (client : B) model prompt_template
    chunks temperature verbose :
  let pieces :=
    bullets (summarise_chunks generate client model prompt_template chunks
               temperature verbose) in
  (length (filter (fun c : Chunk => truthy (strip (fst (fst c)))) chunks)
   <= length pieces)%nat
  /\ (pieces = [] -> Forall (fun c : Chunk => strip (fst (fst c)) = []) chunks).
Proof.
  intros pieces.
  pose proof (bullets_count generate client model prompt_template chunks
                temperature verbose) as Hlen.
  fold pieces in Hlen.
  split; [exact Hlen|]. intros E. rewrite E in Hlen. cbn [length] in Hlen.
  apply Forall_forall. intros c Hc.
  destruct (strip (fst (fst c))) eqn:Es; [reflexivity|].
  assert (Hin : In c (filter (fun c : Chunk => truthy (strip (fst (fst c)))) chunks)).
  { apply filter_In. split; [assumption|]. now rewrite Es. }
  destruct (filter _ chunks); [contradiction|]. cbn [length] in Hlen. lia.
Qed.

End WithUnicode.

(** ** The theorems at concrete inputs *)

#[local] Existing Instance ascii_only.

Lemma points_are_single_spaced_witness :
  exists pt,
    py "- Revenue grew 12%." = py "- " ++ pt /\ pt <> []
    /\ strip pt = pt
    /\ Forall (fun c => is_space c = true -> c = ch " ") pt
    /\ no_pair is_space pt = true.
Proof.
  apply (@points_are_single_spaced ascii_only Inputs.raw_revenue [] 0
           (py "- Revenue grew 12%.")).
  left. vm_compute. left. reflexivity.
Defined.

Lemma summarise_chunks_gives_tagged_witness :
  Forall (fun b => search re_tag b = true
                   /\ forall tag, ensure_tag tag b = b)
    (bullets
       (summarise_chunks (Inputs.backend_says Inputs.raw_revenue)
          0%nat (py "llama3.1:8b") (py "{{TEXT}}")
          [(Inputs.scenario_text, 1, 2)] (1 # 10)%Q false)).
Proof.
  apply (@summarise_chunks_gives_tagged ascii_only nat
           (Inputs.backend_says Inputs.raw_revenue) (py "llama3.1:8b")
           (py "{{TEXT}}") (1 # 10)%Q 0%nat [(Inputs.scenario_text, 1, 2)] false).
  repeat constructor. simpl. lia.
Defined.

End PointsFacts.

(* ------------------------------------------------------------------ *)
(** * The whole run, from the document to the bullets *)

Module PipelineFacts.

Import Direct TextFacts Chunker ChunkerInv ChunkerShape PdfReader.
Import Summariser Points Pipeline.
Local Open Scope Z_scope.

#[local] Arguments is_space : simpl never.




Section WithUnicode.
Context {U : UnicodeData}.


End WithUnicode.

#[local] Existing Instance ascii_only.


End PipelineFacts.

(* ------------------------------------------------------------------ *)
(** * The range of the scores *)

Module ScoreRangeFacts.

Import Direct TextFacts ReFacts Ranker ScoreFacts Summariser SummariserFacts.
Local Open Scope Z_scope.

#[local] Arguments N.eqb : simpl never.
#[local] Arguments ch : simpl never.

Section WithUnicode.
Context {U : UnicodeData}.

Lemma score_value_sum s : score_value s = inject_Z (spec_score s).
Proof.
  unfold score_value. apply round1_int.
  rewrite findall_number, findall_percent, search_currency.
  unfold spec_score. fold (kpi_hits s).
  destruct (any_at currency_at s);
    rewrite !inject_Z_plus, !inject_Z_mult; simpl inject_Z; ring.
Qed.

Lemma next_is_exists p s : next_is p s = true -> existsb p s = true.
Proof. destruct s as [|c s]; cbn; [discriminate|]. now intros ->. Qed.

Lemma digit_runs_pos s : existsb is_decimal s = true -> (1 <= digit_runs s)%nat.
Proof.
  unfold digit_runs. induction s as [|c s IH]; cbn [existsb count_at];
    [discriminate|].
  intros H.
  change (digit_run_end (c :: s))
    with (is_decimal c && negb (next_is is_decimal s)).
  destruct (next_is is_decimal s) eqn:En.
  - apply next_is_exists in En. specialize (IH En).
    destruct (is_decimal c && negb true); lia.
  - destruct (is_decimal c); cbn [orb andb negb] in *; [lia|].
    specialize (IH H). lia.
Qed.

Lemma no_digit_counts s :
  existsb is_decimal s = false ->
  digit_runs s = 0%nat /\ percent_patterns s = 0%nat
  /\ any_at currency_at s = false.
Proof.
  unfold digit_runs, percent_patterns.
  induction s as [|c s IH]; cbn [existsb count_at any_at]; [now auto|].
  intros H. apply orb_false_iff in H. destruct H as [Hc Hs].
  destruct (IH Hs) as (-> & -> & Hcur).
  assert (Hn : next_is is_decimal s = false).
  { destruct (next_is is_decimal s) eqn:En; [|reflexivity].
    apply next_is_exists in En. congruence. }
  unfold digit_run_end, marked, percent_at, points_at, currency_at in *.
  rewrite Hc, Hn. cbn [andb orb]. rewrite !andb_false_r. cbn [andb orb].
  destruct s; cbn [any_at] in *; rewrite ?andb_false_r; auto.
Qed.

(** X16.  Every score is five times a whole number that is not negative,
    and it is 0 exactly for a point with no decimal digit and none of the
    KPI words. *)
Theorem score_value_steps s :
  exists n : nat,
    score_value s = inject_Z (5 * Z.of_nat n)
    /\ (n = 0%nat <-> existsb is_decimal s = false /\ kpi_hits s = 0%nat).
Proof.
  exists (Nat.min (digit_runs s) 5 + 2 * percent_patterns s
          + (if any_at currency_at s then 3 else 0) + kpi_hits s)%nat.
  split.
  - rewrite score_value_sum. f_equal. unfold spec_score.
    rewrite !Nat2Z.inj_add, Nat2Z.inj_mul, Nat2Z.inj_min.
    destruct (any_at currency_at s); cbn [Z.of_nat]; lia.
  - split.
    + intros H. split; [|lia].
      destruct (existsb is_decimal s) eqn:E; [|reflexivity].
      apply digit_runs_pos in E. lia.
    + intros [Hd Hk]. destruct (no_digit_counts s Hd) as (-> & -> & ->).
      rewrite Hk. reflexivity.
Qed.

Lemma tagged_scores s : any_at tag_at s = true -> (5 <= score_value s)%Q.
Proof.
  intros H. apply tagged_iff in H.
  destruct H as (pre & d & post & -> & Hd).
  rewrite score_value_sum.
  assert (Hex : existsb is_decimal (pre ++ py "[p." ++ d :: post) = true).
  { rewrite !existsb_app. cbn [existsb]. rewrite Hd.
    now rewrite !orb_true_r. }
  apply digit_runs_pos in Hex.
  change 5%Q with (inject_Z 5). rewrite <- Zle_Qle. unfold spec_score.
  destruct (any_at currency_at _); lia.
Qed.

(** X17.  The page tag counts as a number: when no chunk has a negative
    start page, every bullet that [summarise_chunks] returns scores at
    least 5 in [score_value], whatever it says. *)
Theorem tagged_bullets_score B generate (client : B) model prompt_template
    chunks temperature verbose :
  Forall (fun c : Chunk => 0 <= snd (fst c)) chunks ->
  Forall (fun b => (5 <= score_value b)%Q)
    (bullets (summarise_chunks generate client model prompt_template chunks
                temperature verbose)).
Proof.
  intros Hpages. apply PointsFacts.Forall_bullets. intros ca Hca b Hb.
  apply PointsFacts.replies_In in Hca. rewrite Forall_forall in Hpages.
  apply (PointsFacts.points_of_tagged ca) in Hb; [|now apply Hpages].
  destruct Hb as [Hb _]. apply tagged_scores. now rewrite <- search_tag.
Qed.

End WithUnicode.

#[local] Existing Instance ascii_only.

Lemma tagged_bullets_score_witness :
  Forall (fun b => (5 <= score_value b)%Q)
    (bullets
       (summarise_chunks Inputs.backend_down 0%nat (py "llama3.1:8b")
          (py "{{TEXT}}") [(Inputs.scenario_text, 1, 2)] (1 # 10)%Q false)).
Proof.
  apply (@tagged_bullets_score ascii_only nat Inputs.backend_down 0%nat
           (py "llama3.1:8b") (py "{{TEXT}}") [(Inputs.scenario_text, 1, 2)]
           (1 # 10)%Q false).
  repeat constructor. simpl. lia.
Defined.

End ScoreRangeFacts.

(* ------------------------------------------------------------------ *)
(** * Properties of the name of the points file *)

Module TitlesFacts.

Import Direct TextFacts ReFacts PyTextFacts Collapse CollapseFacts Titles.

#[local] Arguments N.eqb : simpl never.
#[local] Arguments ch : simpl never.

Lemma strip_chars_split p s :
  exists j1 j2,
    s = j1 ++ strip_chars p s ++ j2
    /\ forallb p j1 = true /\ forallb p j2 = true.
Proof.
  unfold strip_chars.
  destruct (lstrip_split p s) as (j1 & H1 & Hj1).
  destruct (rstrip_split p (lstrip p s)) as (j2 & H2 & Hj2 & _).
  exists j1, j2. split; [|now split].
  rewrite <- H2. exact H1.
Qed.

Lemma strip_chars_ends p s :
  strip_chars p s = []
  \/ (exists c t, strip_chars p s = c :: t /\ p c = false)
     /\ (exists t c, strip_chars p s = t ++ [c] /\ p c = false).
Proof.
  unfold strip_chars. set (u := lstrip p s).
  destruct (rstrip_split p u) as (junk & Hu & _ & Hlast).
  destruct (rstrip p u) as [|c t] eqn:E; [now left|right]. split.
  - exists c, t. split; [reflexivity|].
    apply lstrip_head with (s := s) (t := t ++ junk). fold u. now rewrite Hu.
  - destruct (@exists_last _ (c :: t)) as (t' & c' & E'); [discriminate|].
    exists t', c'. split; [assumption|]. now apply (Hlast t').
Qed.

Lemma strip_chars_nil_iff p s : strip_chars p s = [] <-> forallb p s = true.
Proof.
  split.
  - intros E. destruct (strip_chars_split p s) as (j1 & j2 & Hs & H1 & H2).
    rewrite E in Hs. cbn [app] in Hs. rewrite Hs, forallb_app, H1, H2. reflexivity.
  - intros H. unfold strip_chars. apply lstrip_nil_iff in H. now rewrite H.
Qed.

Lemma strip_chars_filter p f s :
  (forall c, p c = true -> f c = false) ->
  filter f (strip_chars p s) = filter f s.
Proof.
  intros Hpf.
  assert (Hjunk : forall j, forallb p j = true -> filter f j = []).
  { induction j as [|c j IH]; cbn [forallb filter]; [reflexivity|].
    intros H. apply andb_true_iff in H. destruct H as [Hc Hj].
    now rewrite (Hpf c Hc), IH. }
  destruct (strip_chars_split p s) as (j1 & j2 & Hs & H1 & H2).
  rewrite Hs at 2. rewrite !filter_app, (Hjunk j1 H1), (Hjunk j2 H2).
  now rewrite app_nil_r.
Qed.

Section WithUnicode.
Context {U : UnicodeData}.

Lemma collapse_all_repl p r s :
  forall b,
    forallb (N.eqb r) (collapse_from p [r] b s) = true
    <-> forallb (fun c => p c || N.eqb r c) s = true.
Proof.
  induction s as [|c s IH]; intros b; cbn [collapse_from forallb]; [tauto|].
  destruct (p c) eqn:E; cbn [orb].
  - rewrite forallb_app, andb_true_iff, IH.
    destruct b; cbn [forallb]; rewrite ?N.eqb_refl; cbn [andb]; tauto.
  - cbn [forallb]. rewrite !andb_true_iff, IH. tauto.
Qed.

Lemma collapse_filter p r (f : char -> bool) s :
  (forall c, p c = true -> f c = false) -> f r = false ->
  forall b, filter f (collapse_from p [r] b s) = filter f s.
Proof.
  intros Hp Hr. induction s as [|c s IH]; intros b; [reflexivity|].
  cbn [collapse_from filter]. destruct (p c) eqn:E.
  - rewrite filter_app, IH, (Hp c E).
    destruct b; cbn [filter]; [reflexivity|]. now rewrite Hr.
  - cbn [filter]. now rewrite IH.
Qed.

Lemma company_collapse stem :
  company_of stem = strip_chars (N.eqb (ch "_")) (collapse unsafe [ch "_"] stem).
Proof. unfold company_of, re_unsafe. now rewrite sub_plus. Qed.

(** X18.  The company part of the name of the points file.  It holds only
    word characters and ["-"], so no ["/"] and no ["."]; it does not begin
    or end with ["_"]; the characters of the stem that are word characters
    or ["-"], other than ["_"], are all kept, in order; and it is empty
    exactly when the stem has no such character. *)
Theorem company_of_is_safe stem :
  let company := company_of stem in
  let kept := fun c => negb (unsafe c) && negb (N.eqb (ch "_") c) in
  Forall (fun c => is_word c = true \/ c = ch "-") company
  /\ ~ In (ch "/") company /\ ~ In (ch ".") company
  /\ (company = []
      \/ (exists c t, company = c :: t /\ c <> ch "_")
         /\ (exists t c, company = t ++ [c] /\ c <> ch "_"))
  /\ filter kept company = filter kept stem
  /\ (company = [] <-> filter kept stem = []).
Proof.
  intros company kept.
  assert (Hsafe : Forall (fun c => is_word c = true \/ c = ch "-") company).
  { unfold company. rewrite company_collapse.
    destruct (strip_chars_split (N.eqb (ch "_")) (collapse unsafe [ch "_"] stem))
      as (j1 & j2 & Hs & _ & _).
    pose proof (collapse_chars unsafe (ch "_") stem false) as Hall.
    unfold collapse in Hs. rewrite Hs in Hall.
    apply Forall_app in Hall. destruct Hall as [_ Hall].
    apply Forall_app in Hall. destruct Hall as [Hall _].
    revert Hall. apply Forall_impl. intros c Hc.
    destruct (unsafe c) eqn:E.
    - left. rewrite (Hc eq_refl). reflexivity.
    - unfold unsafe in E. apply negb_false_iff, orb_true_iff in E.
      destruct E as [E | E]; [now left|right]. now apply N.eqb_eq in E. }
  assert (Hkept : filter kept company = filter kept stem).
  { unfold company. rewrite company_collapse, strip_chars_filter.
    - unfold collapse. apply collapse_filter.
      + intros c Hc. unfold kept. now rewrite Hc.
      + unfold kept. rewrite N.eqb_refl. apply andb_false_r.
    - intros c Hc. unfold kept. rewrite Hc. apply andb_false_r. }
  split; [exact Hsafe|]. rewrite Forall_forall in Hsafe.
  split; [|split; [|split; [|split; [exact Hkept|]]]].
  - intros H. destruct (Hsafe _ H) as [E | E]; discriminate E.
  - intros H. destruct (Hsafe _ H) as [E | E]; discriminate E.
  - destruct (strip_chars_ends (N.eqb (ch "_")) (sub re_unsafe (py "_") stem))
      as [E | [(c & t & E & Hc) (t' & c' & E' & Hc')]]; [now left|right].
    split.
    + exists c, t. split; [exact E|]. intros ->. now rewrite N.eqb_refl in Hc.
    + exists t', c'. split; [exact E'|]. intros ->. now rewrite N.eqb_refl in Hc'.
  - unfold company. rewrite company_collapse, strip_chars_nil_iff.
    unfold collapse. rewrite collapse_all_repl.
    clear. induction stem as [|c s IH]; cbn [forallb filter]; [tauto|].
    unfold kept at 1.
    destruct (unsafe c); cbn [orb negb andb]; [exact IH|].
    destruct (N.eqb (ch "_") c); cbn [negb andb]; [exact IH|].
    split; discriminate.
Qed.

End WithUnicode.

End TitlesFacts.

(* ------------------------------------------------------------------ *)
(** * Properties of the prompt *)

Module PromptFacts.

Import TextFacts Summariser Prompt.
Local Open Scope Z_scope.

#[local] Arguments N.eqb : simpl never.
#[local] Arguments ch : simpl never.

Lemma no_braces_cons c s :
  no_braces (c :: s)
  <-> (c =? ch "{")%N = false /\ (c =? ch "}")%N = false /\ no_braces s.
Proof.
  unfold no_braces. cbn [forallb].
  rewrite andb_true_iff, negb_true_iff, orb_false_iff. tauto.
Qed.

(** A placeholder does not begin in text without braces. *)
Lemma starts_with_no_brace old c s :
  placeholder old -> (c =? ch "{")%N = false -> starts_with old (c :: s) = false.
Proof.
  intros (mid & ->) Hc. cbn [starts_with]. rewrite N.eqb_sym, Hc. reflexivity.
Qed.

Lemma replace_from_plain old new s :
  placeholder old -> no_braces s -> replace_from old new s 0 = s.
Proof.
  intros Hold. induction s as [|c s IH]; intros Hs; [reflexivity|].
  apply no_braces_cons in Hs. destruct Hs as (Hc & _ & Hs).
  cbn [replace_from]. rewrite starts_with_no_brace by assumption.
  now rewrite IH.
Qed.

Lemma replace_from_pre old new pre s :
  placeholder old -> no_braces pre ->
  replace_from old new (pre ++ s) 0 = pre ++ replace_from old new s 0.
Proof.
  intros Hold. induction pre as [|c pre IH]; intros Hs; [reflexivity|].
  apply no_braces_cons in Hs. destruct Hs as (Hc & _ & Hs).
  cbn [app replace_from]. rewrite starts_with_no_brace by assumption.
  now rewrite IH.
Qed.

(** Text without braces does not begin with text that ends in ["}"]. *)
Lemma starts_with_closing k :
  forall post, no_braces post -> starts_with (k ++ [ch "}"]) post = false.
Proof.
  induction k as [|a k IH]; intros post Hpost;
    (destruct post as [|d post]; [reflexivity|]);
    apply no_braces_cons in Hpost; destruct Hpost as (_ & Hd & Hpost);
    cbn [app starts_with].
  - now rewrite N.eqb_sym, Hd.
  - rewrite IH by assumption. apply andb_false_r.
Qed.

(** A placeholder that begins in [s] ends in [s] when no brace follows. *)
Lemma starts_with_post old post :
  placeholder old -> no_braces post ->
  forall s,
    starts_with old (s ++ post) = starts_with old s
    /\ (starts_with old s = true -> (length old <= length s)%nat).
Proof.
  intros (mid & ->) Hpost.
  assert (H : forall k s,
             starts_with (k ++ [ch "}"]) (s ++ post) = starts_with (k ++ [ch "}"]) s
             /\ (starts_with (k ++ [ch "}"]) s = true ->
                 (length (k ++ [ch "}"]) <= length s)%nat)).
  { induction k as [|a k IH]; intros s.
    - destruct s as [|c s]; cbn [app].
      + pose proof (starts_with_closing [] Hpost) as Hc. cbn [app] in Hc.
        rewrite Hc. split; [reflexivity|discriminate].
      + cbn [starts_with length]. split; [reflexivity|]. intros _. lia.
    - destruct s as [|c s]; cbn [app].
      + pose proof (starts_with_closing (a :: k) Hpost) as Hc. cbn [app] in Hc.
        rewrite Hc. split; [reflexivity|discriminate].
      + cbn [starts_with length].
        destruct (IH s) as [IH1 IH2]. rewrite IH1. split; [reflexivity|].
        intros H. apply andb_true_iff in H. destruct H as [_ H].
        apply IH2 in H. lia. }
  intros s. apply (H (ch "{" :: mid) s).
Qed.

Lemma replace_from_post old new post :
  placeholder old -> no_braces post ->
  forall s skip,
    (skip <= length s)%nat ->
    replace_from old new (s ++ post) skip = replace_from old new s skip ++ post.
Proof.
  intros Hold Hpost. induction s as [|c s IH]; intros skip Hskip.
  - cbn [length] in Hskip. replace skip with 0%nat by lia.
    cbn [app]. rewrite replace_from_plain by assumption.
    destruct post; reflexivity.
  - cbn [app replace_from]. destruct skip as [|n].
    + change (c :: s ++ post) with ((c :: s) ++ post).
      destruct (starts_with_post Hold Hpost (c :: s)) as [-> Hlen].
      destruct (starts_with old (c :: s)) eqn:E.
      * specialize (Hlen eq_refl). cbn [length] in Hlen.
        rewrite IH by lia. now rewrite app_assoc.
      * now rewrite IH by lia.
    + cbn [length] in Hskip. apply IH. lia.
Qed.

Lemma replace_between old new pre s post :
  placeholder old -> no_braces pre -> no_braces post ->
  replace old new (pre ++ s ++ post) = pre ++ replace old new s ++ post.
Proof.
  intros Hold Hpre Hpost. unfold replace.
  rewrite replace_from_pre by assumption. f_equal.
  apply replace_from_post; auto. lia.
Qed.

Lemma replace_self old new : old <> [] -> replace old new old = new.
Proof.
  intros Hne. unfold replace. destruct old as [|c old]; [contradiction|].
  cbn [replace_from length].
  assert (Hs : forall k s : str, starts_with k (k ++ s) = true).
  { induction k as [|a k IH]; intros s; [reflexivity|].
    cbn [app starts_with]. now rewrite N.eqb_refl, IH. }
  rewrite <- (app_nil_r (c :: old)) at 2. rewrite Hs.
  replace (S (length old) - 1)%nat with (length old) by lia.
  assert (Hskip : forall s : str, replace_from (c :: old) new s (length s) = []).
  { induction s as [|a s IH]; [reflexivity|]. exact IH. }
  now rewrite Hskip, app_nil_r.
Qed.

Section WithUnicode.
Context {U : UnicodeData}.

(** X19.  A template with the text placeholder between two pieces without
    braces: the chunk text goes in first and the page placeholders are
    replaced afterwards, so a page placeholder that stands in the chunk
    text is replaced as well; the pieces of the template stay as they
    are.  A template without braces is the prompt, unchanged. *)
Theorem format_prompt_substitutes pre post text start_page end_page :
  no_braces pre -> no_braces post ->
  format_prompt (pre ++ py "{{TEXT}}" ++ post) text start_page end_page
  = pre
    ++ replace (py "{{END_PAGE}}") (str_of_int end_page)
         (replace (py "{{START_PAGE}}") (str_of_int start_page) text)
    ++ post
  /\ format_prompt pre text start_page end_page = pre.
Proof.
  intros Hpre Hpost.
  assert (Htext : placeholder (py "{{TEXT}}")) by (now exists (py "{TEXT}")).
  assert (Hstart : placeholder (py "{{START_PAGE}}"))
    by (now exists (py "{START_PAGE}")).
  assert (Hend : placeholder (py "{{END_PAGE}}")) by (now exists (py "{END_PAGE}")).
  unfold format_prompt. split.
  - rewrite replace_between by assumption.
    rewrite replace_self by discriminate.
    rewrite replace_between by assumption.
    now rewrite replace_between by assumption.
  - unfold replace.
    rewrite (@replace_from_plain _ text _ Htext Hpre).
    rewrite (@replace_from_plain _ (str_of_int start_page) _ Hstart Hpre).
    exact (@replace_from_plain _ (str_of_int end_page) _ Hend Hpre).
Qed.

End WithUnicode.

Lemma format_prompt_substitutes_witness :
  format_prompt (py "Pages: " ++ py "{{TEXT}}" ++ py " end")
    (py "see {{END_PAGE}}") 3 4
  = py "Pages: "
    ++ replace (py "{{END_PAGE}}") (str_of_int 4)
         (replace (py "{{START_PAGE}}") (str_of_int 3) (py "see {{END_PAGE}}"))
    ++ py " end"
  /\ format_prompt (py "Pages: ") (py "see {{END_PAGE}}") 3 4 = py "Pages: ".
Proof.
  apply (@format_prompt_substitutes (py "Pages: ") (py " end")
           (py "see {{END_PAGE}}") 3 4).
  - reflexivity.
  - reflexivity.
Defined.

End PromptFacts.

(* ------------------------------------------------------------------ *)
(** * The bullet parser on its own output *)

Module BulletFacts.

Import Direct TextFacts ReFacts PyText PyTextFacts Collapse CollapseFacts.
Import Summariser SummariserFacts Points.

#[local] Arguments is_space : simpl never.
#[local] Arguments N.eqb : simpl never.
#[local] Arguments ch : simpl never.

Lemma or_else_none {A} (a : option A) : or_else a (fun _ => None) = a.
Proof. now destruct a. Qed.

(** A greedy star in front of a character outside the class takes
    nothing. *)
Lemma star_skip p l c r g k :
  p c = false -> rep true p 0 None l (c :: r) g k = k (mk_pos l (c :: r) g).
Proof. intros E. cbn [rep]. rewrite E. reflexivity. Qed.

(** A greedy plus on one character of the class takes that one. *)
Lemma plus_one p l c d r g k :
  p c = true -> p d = false ->
  rep true p 1 None l (c :: d :: r) g k = k (mk_pos (c :: l) (d :: r) g).
Proof.
  intros Ec Ed. cbn [rep]. rewrite Ec. cbn [andb may_repeat pred option_map].
  rewrite Ed. cbn [andb or_else]. apply or_else_none.
Qed.

(** A lazy repetition goes on as long as what follows fails. *)
Lemma lazy_star_all p g k s :
  forall l,
    forallb p s = true ->
    (forall a b, s = a ++ b -> b <> [] -> k (mk_pos (rev a ++ l) b g) = None) ->
    rep false p 0 None l s g k = k (mk_pos (rev s ++ l) [] g).
Proof.
  induction s as [|c s IH]; intros l Hp Hk.
  - cbn [rep rev app or_else]. apply or_else_none.
  - cbn [forallb] in Hp. apply andb_true_iff in Hp. destruct Hp as [Hc Hp].
    assert (H0 : k (mk_pos l (c :: s) g) = None)
      by (apply (Hk [] (c :: s)); [reflexivity|discriminate]).
    cbn [rep]. rewrite H0. cbn [or_else]. rewrite Hc. cbn [andb may_repeat pred option_map].
    rewrite IH; [|assumption|].
    + cbn [rev]. now rewrite <- app_assoc.
    + intros a b E Hb. specialize (Hk (c :: a) b). cbn [rev app] in Hk.
      rewrite <- app_assoc in Hk. apply Hk; [now rewrite E|assumption].
Qed.

Lemma lazy_plus_all p g k c s l :
  forallb p (c :: s) = true ->
  (forall a b, c :: s = a ++ b -> a <> [] -> b <> [] ->
     k (mk_pos (rev a ++ l) b g) = None) ->
  rep false p 1 None l (c :: s) g k = k (mk_pos (rev (c :: s) ++ l) [] g).
Proof.
  intros Hp Hk. cbn [forallb] in Hp. apply andb_true_iff in Hp.
  destruct Hp as [Hc Hp]. cbn [rep or_else]. rewrite Hc.
  cbn [andb may_repeat pred option_map]. rewrite lazy_star_all; [|assumption|].
  - cbn [rev]. now rewrite <- app_assoc.
  - intros a b E Hb. specialize (Hk (c :: a) b). cbn [rev app] in Hk.
    rewrite <- app_assoc in Hk. apply Hk; [now rewrite E|discriminate|assumption].
Qed.

Section WithUnicode.
Context {U : UnicodeData}.

(** [\s*$] *)
Abbreviation line_end := (Cat (star is_space) (Cat Eol Eps)).

(** [\s*$] does not match in front of a character that is not white
    space. *)
Lemma line_end_fails t c l g :
  is_space c = false ->
  run line_end (mk_pos l (t ++ [c]) g) Some = None.
Proof.
  intros Hc. unfold star. cbn [run before after group]. revert l.
  assert (Hnl : (c =? nl)%N = false).
  { destruct (N.eqb_spec c nl) as [->|]; [discriminate Hc|reflexivity]. }
  induction t as [|d t IH]; intros l; cbn [app rep].
  - rewrite Hc. cbn [andb or_else run after]. now rewrite Hnl.
  - rewrite IH. destruct (is_space d); cbn [andb may_repeat or_else run after];
      destruct (t ++ [c]) eqn:E; try reflexivity;
      now destruct t.
Qed.

Lemma line_end_matches l g :
  run line_end (mk_pos l [] g) Some = Some (mk_pos l [] g).
Proof. reflexivity. Qed.

Lemma bullet_line_match pt :
  pt <> [] -> strip pt = pt -> forallb not_newline pt = true ->
  exists m, match_ BULLET_LINE (py "- " ++ pt) = Some m /\ group m = Some pt.
Proof.
  intros Hne Hstrip Hnn.
  destruct (strip_ends pt) as [E | [(c0 & t0 & E0 & Hc0) (t1 & c1 & E1 & Hc1)]];
    rewrite Hstrip in *; [contradiction|].
  unfold match_, BULLET_LINE, seq, star, plus, lazy_plus, one_of.
  cbn [fold_right].
  change (py "- " ++ pt) with (ch "-" :: ch " " :: pt).
  cbn [run before after group].
  rewrite star_skip by reflexivity. cbn [after before group existsb].
  rewrite N.eqb_refl. cbn [orb].
  rewrite E0. rewrite plus_one by (reflexivity || assumption).
  cbn [before after group]. rewrite lazy_plus_all.
  - cbn [before after group rep or_else]. eexists. split; [reflexivity|].
    cbn [group]. f_equal.
    rewrite length_app, Nat.add_sub, firstn_app, firstn_all, Nat.sub_diag.
    cbn [firstn]. rewrite app_nil_r. apply rev_involutive.
  - now rewrite <- E0.
  - intros a b E Ha Hb. cbn [before after group].
    rewrite <- E0, E1 in E.
    destruct (exists_last Hb) as (t' & x & ->).
    rewrite app_assoc in E. apply app_inj_tail in E. destruct E as [_ <-].
    exact (@line_end_fails t' c1 _ _ Hc1).
Qed.

Lemma collapse_from_single_spaced s :
  forall b,
    Forall (fun c => is_space c = true -> c = ch " ") s ->
    no_pair is_space s = true ->
    (b = true -> next_is is_space s = false) ->
    collapse_from is_space (py " ") b s = s.
Proof.
  induction s as [|c s IH]; intros b Hall Hpair Hb; [reflexivity|].
  inversion Hall as [|? ? Hc Hs]; subst.
  rewrite no_pair_cons in Hpair. apply andb_true_iff in Hpair.
  destruct Hpair as [Hcs Hpair]. cbn [collapse_from].
  destruct (is_space c) eqn:E.
  - destruct b; [specialize (Hb eq_refl); cbn [next_is] in Hb; congruence|].
    rewrite IH; auto.
    + rewrite (Hc eq_refl). reflexivity.
    + intros _. cbn [andb] in Hcs. now apply negb_true_iff in Hcs.
  - rewrite IH; auto. discriminate.
Qed.

(** The parser takes a point as it is. *)
Lemma point_line b :
  point b ->
  match match_ BULLET_LINE b with
  | Some m =>
      let pt := strip (group_text m) in
      let pt := sub re_spaces (py " ") pt in
      if truthy pt then [py "- " ++ pt] else []
  | None => []
  end = [b].
Proof.
  intros (pt & -> & Hne & Hstrip & Hall & Hpair).
  assert (Hnn : forallb not_newline pt = true).
  { apply forallb_forall. intros c Hc. rewrite Forall_forall in Hall.
    unfold not_newline. apply negb_true_iff.
    destruct (N.eqb_spec c nl) as [->|]; [|reflexivity].
    specialize (Hall nl Hc eq_refl). discriminate Hall. }
  destruct (bullet_line_match Hne Hstrip Hnn) as (m & -> & Hg).
  unfold group_text. rewrite Hg. cbv zeta. rewrite Hstrip.
  rewrite PointsFacts.sub_spaces. unfold collapse.
  rewrite collapse_from_single_spaced by (auto; discriminate).
  destruct pt; [contradiction|reflexivity].
Qed.

(** X20.  The bullet parser is idempotent: given its own output back, one
    point on a line as [run] writes them, it returns the same points. *)
Theorem extract_bullets_idempotent raw :
  extract_bullets (points_text (extract_bullets raw)) = extract_bullets raw.
Proof.
  assert (Hpoints : Forall point (extract_bullets raw)).
  { apply Forall_forall. intros b. apply PointsFacts.extract_bullets_points. }
  revert Hpoints. generalize (extract_bullets raw) as bs. intros bs Hpoints.
  unfold extract_bullets at 1.
  rewrite PointsFacts.splitlines_points_text.
  - induction Hpoints as [|b bs Hb Hbs IH]; [reflexivity|].
    cbn [flat_map]. change (b :: bs) with ([b] ++ bs).
    f_equal; [exact (point_line Hb)|exact IH].
  - revert Hpoints. apply Forall_impl. apply PointsFacts.point_one_line.
Qed.

End WithUnicode.

End BulletFacts.

(* ------------------------------------------------------------------ *)
(** * The order of the fallback sentences *)

Module FallbackFacts.

Import SortFacts Summariser SummariserFacts Fallback.
Local Open Scope Z_scope.

Lemma str_ltb_nil a : str_ltb a [] = false.
Proof. now destruct a. Qed.

Lemma str_ltb_asym a : forall b, str_ltb a b = true -> str_ltb b a = false.
Proof.
  induction a as [|x a IH]; intros [|y b]; cbn [str_ltb]; try easy.
  intros H. apply orb_true_iff in H. apply orb_false_iff.
  destruct H as [H | H].
  - apply N.ltb_lt in H. split; [apply N.ltb_ge; lia|].
    apply andb_false_iff. left. apply N.eqb_neq. lia.
  - apply andb_true_iff in H. destruct H as [E H]. apply N.eqb_eq in E.
    subst y. split; [apply N.ltb_irrefl|]. rewrite (IH b H). apply andb_false_r.
Qed.

Lemma str_geb_trans a :
  forall b c, str_ltb b a = false -> str_ltb c b = false -> str_ltb c a = false.
Proof.
  induction a as [|x a IH]; intros b c Hab Hbc; [apply str_ltb_nil|].
  destruct b as [|y b]; [discriminate Hab|].
  destruct c as [|z c]; [discriminate Hbc|].
  cbn [str_ltb] in *. apply orb_false_iff in Hab, Hbc.
  destruct Hab as [Hyx Hab], Hbc as [Hzy Hbc].
  apply N.ltb_ge in Hyx, Hzy. apply orb_false_iff. split; [apply N.ltb_ge; lia|].
  destruct (N.eqb_spec z x) as [->|]; [|reflexivity]. cbn [andb].
  assert (y = x) by lia. subst y. rewrite N.eqb_refl in Hab, Hbc.
  cbn [andb] in Hab, Hbc. now apply (IH b c).
Qed.

Lemma StronglySorted_filter {A} (R : A -> A -> Prop) (p : A -> bool) l :
  StronglySorted R l -> StronglySorted R (filter p l).
Proof.
  induction 1 as [|x l Hl IH Hx]; cbn [filter]; [constructor|].
  destruct (p x); [|assumption]. constructor; [assumption|].
  rewrite Forall_forall in *. intros y Hy. apply filter_In in Hy.
  apply Hx. now destruct Hy.
Qed.

Section WithUnicode.
Context {U : UnicodeData}.

(** X21.  The order of the fallback sentences.  The two stable sorts of
    [_top_sentences] leave the candidates ordered by score, largest first,
    and the candidates of any one score by their text, smallest first; the
    bullets returned are the first [k] of them, rendered, so there are [k]
    of them or, when there are fewer candidates, one for each. *)
Theorem top_sentences_ranking text k :
  exists ranked,
    top_sentences text k = map render (slice_to k ranked)
    /\ Permutation ranked (scored_sentences text)
    /\ StronglySorted (fun x y => (fst y <= fst x)%Q) ranked
    /\ (forall v,
          StronglySorted (fun x y => str_ltb (snd y) (snd x) = false)
            (filter (fun x => Qeq_bool (fst x) v) ranked))
    /\ (0 <= k ->
        length (top_sentences text k)
        = Nat.min (Z.to_nat k) (length (scored_sentences text))).
Proof.
  set (by_text := sorted str_ltb snd false (scored_sentences text)).
  exists (sorted Qltb fst true by_text).
  split; [reflexivity|]. split; [|split; [|split]].
  - transitivity by_text; [apply sorted_desc_perm|apply sorted_perm].
  - apply sorted_desc_order.
  - intros v. rewrite sorted_desc_stable. apply StronglySorted_filter.
    unfold by_text, sorted.
    apply sort_stable_sorted.
    + intros a b. apply str_ltb_asym.
    + intros a b c. apply str_geb_trans.
  - intros Hk. unfold top_sentences. rewrite length_map. unfold slice_to.
    destruct (Z.ltb_spec k 0); [lia|]. rewrite length_firstn. f_equal.
    fold (scored_sentences text). fold by_text.
    rewrite (Permutation_length (sorted_desc_perm fst by_text)).
    apply Permutation_length, sorted_perm.
Qed.

End WithUnicode.

End FallbackFacts.

(* ------------------------------------------------------------------ *)
(** * Properties of the choice of the report *)

Module LatestFacts.

Import SortFacts Latest.

(** X23.  [find_latest_pdf] raises exactly when no path was found.
    Otherwise it returns one of the paths found, none of them is newer, and
    every path that was found before it is older: of several newest
    reports the first one found is taken. *)
Theorem find_latest_pdf_latest mtime found :
  match find_latest_pdf mtime found with
  | inl e =>
      found = [] /\ e = FileNotFoundError "No PDF found in ./reports."
  | inr p =>
      exists l1 l2,
        found = l1 ++ p :: l2
        /\ (forall q, In q l1 -> (key mtime q < key mtime p)%Q)
        /\ (forall q, In q l2 -> (key mtime q <= key mtime p)%Q)
  end.
Proof.
  unfold find_latest_pdf.
  pose proof (sorted_desc_perm (key mtime) found) as Hperm.
  pose proof (sorted_desc_order (key mtime) found) as Hord.
  pose proof (sorted_desc_stable (key mtime) (key mtime
                (hd [] (sorted Qltb (key mtime) true found))) found) as Hst.
  destruct (sorted Qltb (key mtime) true found) as [|p rest].
  - apply Permutation_nil in Hperm. now split.
  - cbn [hd filter] in Hst.
    assert (Hpp : Qeq_bool (key mtime p) (key mtime p) = true)
      by (apply Qeq_bool_iff; reflexivity).
    rewrite Hpp in Hst. symmetry in Hst.
    apply (@filter_split _ _ found []) in Hst.
    destruct Hst as (l1 & l2 & -> & H1 & _).
    apply StronglySorted_inv in Hord. destruct Hord as [_ Hle].
    assert (Hall : forall q, In q (l1 ++ p :: l2) ->
                     (key mtime q <= key mtime p)%Q).
    { intros q Hq. apply (Permutation_in _ (Permutation_sym Hperm)) in Hq.
      destruct Hq as [<- | Hq]; [apply Qle_refl|].
      rewrite Forall_forall in Hle. now apply Hle. }
    exists l1, l2. split; [reflexivity|]. split.
    + intros q Hq.
      assert (Hne : Qeq_bool (key mtime q) (key mtime p) = false).
      { destruct (Qeq_bool (key mtime q) (key mtime p)) eqn:E; [|reflexivity].
        assert (Hin : In q (filter (fun x => Qeq_bool (key mtime x) (key mtime p)) l1))
          by (apply filter_In; now split).
        rewrite H1 in Hin. contradiction. }
      pose proof (Hall q (in_or_app _ _ _ (or_introl Hq))) as Hq'.
      apply Qle_lteq in Hq'. destruct Hq' as [Hlt | Heq]; [assumption|].
      apply Qeq_bool_iff in Heq. congruence.
    + intros q Hq. apply Hall. apply in_or_app. right. now right.
Qed.

End LatestFacts.

(* ------------------------------------------------------------------ *)
(** * More evaluations of the model *)

Module MoreExamples.

Import PyText PdfReader Titles Latest Summariser Points.
Local Open Scope Z_scope.

#[local] Existing Instance ascii_only.

Example cleaned_text :
  cleaned (py "  a " ++ [9%N] ++ py " b" ++ [nl; 11%N] ++ py "c d ") = py "a b c d".
Proof. vm_compute. reflexivity. Qed.

Example extract_three_pages :
  extract_pages (Opened MoreInputs.three_extractions)
  = inr [(1, repeat (ch "a") 300 ++ py " " ++ repeat (ch "a") 300); (2, []);
         (3, repeat (ch "b") 600)].
Proof. vm_compute. reflexivity. Qed.

Example extract_encrypted :
  extract_pages (PagesFail [] "File has not been decrypted")
  = inl (Uncaught "File has not been decrypted").
Proof. reflexivity. Qed.

Example company_of_report :
  company_of (py "ACME Q3 (final).v2") = py "ACME_Q3_final_v2".
Proof. vm_compute. reflexivity. Qed.

Example company_of_dots : company_of (py "../__x__/..") = py "x".
Proof. vm_compute. reflexivity. Qed.

Example company_of_marks : build_titles (py "?!") (py "20250101_120000")
                           = py "_POINTS_20250101_120000".
Proof. vm_compute. reflexivity. Qed.

Example prompt_with_placeholder_in_text :
  format_prompt (py "Pages: {{TEXT}} end") (py "see {{END_PAGE}}") 3 4
  = py "Pages: see 4 end".
Proof. vm_compute. reflexivity. Qed.

Example bullet_with_wide_gap : extract_bullets (py "-  x") = [py "- x"].
Proof. vm_compute. reflexivity. Qed.

Example bullet_with_two_spaces : extract_bullets (py "- a  b ") = [py "- a b"].
Proof. vm_compute. reflexivity. Qed.

Example latest_of_three :
  find_latest_pdf
    (fun p => if starts_with (py "a") p then Some 1%Q else Some 2%Q)
    [py "b"; py "a"; py "c"]
  = inr (py "b").
Proof. vm_compute. reflexivity. Qed.

Example points_text_two : points_text [py "- a"; py "- b"]
                          = py "- a" ++ [nl] ++ py "- b" ++ [nl].
Proof. vm_compute. reflexivity. Qed.

End MoreExamples.
